(** * Private variable analysis of TSAR (tsar_private.cpp)

    A shallow embedding of the memory-trait resolution engine of the
    private recognition pass: the bit-coded trait lattice, the dependence
    descriptors, the dependence collector, the explicit access classifier,
    the first-private check, the result store and the descriptor decoder.

    Integers of type [unsigned long long] are values of [Z] in the range
    [0, 2^64); maps keyed by pointers are [gmap]s keyed by the identifier of
    the object pointed to; sets of traits of a [bcl::TraitDescriptor] are
    [gset]s of labels. *)

From Stdlib Require Import ZArith Ascii String List Bool Lia.
From stdpp Require Import base gmap sets list strings option.

Local Open Scope Z_scope.
Set Warnings "-register-all,-clear-no-such-hyp".

(** ** Binary literals ([bcl::operator "" _b]) *)

Fixpoint bits_of (s : string) (acc : Z) : Z :=
  match s with
  | EmptyString => acc
  | String c s' => bits_of s' (2 * acc + (if Ascii.eqb c "1"%char then 1 else 0))
  end.

Definition _b (s : string) : Z := bits_of s 0.

(** ** Identifiers of recognized traits ([tsar::detail::TraitId]) *)

Definition ULLONG_WIDTH : Z := 64.

Definition NoAccess : Z := _b "1111111".
Definition Readonly : Z := _b "1111011".
Definition Shared : Z := _b "1111001".
Definition Private : Z := _b "0111111".
Definition FirstPrivate : Z := _b "0111011".
Definition SecondToLastPrivate : Z := _b "0101111".
Definition LastPrivate : Z := _b "0011111".
Definition DynamicPrivate : Z := _b "0001111".
Definition Dependency : Z := _b "0000001".
Definition AddressAccess : Z := _b "1111110".

(** The ten enumerators, in the order of their declaration. *)
Definition TraitId_enumerators : list Z :=
  [NoAccess; Readonly; Shared; Private; FirstPrivate; SecondToLastPrivate;
   LastPrivate; DynamicPrivate; Dependency; AddressAccess].

(** [operator&(TraitId, TraitId)] *)
Definition tand (LHS RHS : Z) : Z := Z.land LHS RHS.

(** [operator|(TraitId, TraitId)] *)
Definition tor (LHS RHS : Z) : Z := Z.lor LHS RHS.

(** [operator~(TraitId)]: the complement on 64 bits, masked with [NoAccess]
    to avoid reversal of unused bits. *)
Definition tnot (What : Z) : Z :=
  Z.land (Z.lnot What mod 2 ^ ULLONG_WIDTH) NoAccess.

(** ** Internal representation of traits of a memory location ([TraitImp]) *)

Record TraitImp : Type := mkTraitImp { mId : Z }.

#[global] Instance TraitImp_eq_dec : EqDecision TraitImp.
Proof. solve_decision. Defined.

(** [TraitImp() = default], with the member initializer [mId = NoAccess]. *)
Definition TraitImp_default : TraitImp := mkTraitImp NoAccess.

(** [TraitImp::operator&=] *)
Definition and_assign (self With : TraitImp) : TraitImp :=
  mkTraitImp (Z.land (mId self) (mId With)).

(** [TraitImp::operator|=]: its body is the expression statement
    [mId != With.mId;], whose value is discarded, followed by
    [return *this]. *)
Definition or_assign (self With : TraitImp) : TraitImp :=
  let _ := negb (mId self =? mId With) in
  self.

(** [TraitImp::operator!] *)
Definition is_zero (self : TraitImp) : bool := mId self =? 0.

(** [TraitImp::get] and the conversion to [TraitId]. *)
Definition get (self : TraitImp) : Z := mId self.

(** ** Trait labels and descriptors *)

Module trait.
Inductive t : Type :=
| AddressAccess | ExplicitAccess | NoAccess | Readonly | Shared | Private
| FirstPrivate | SecondToLastPrivate | LastPrivate | DynamicPrivate
| Flow | Anti | Output.

Definition index (x : t) : nat :=
  match x with
  | AddressAccess => 0 | ExplicitAccess => 1 | NoAccess => 2 | Readonly => 3
  | Shared => 4 | Private => 5 | FirstPrivate => 6
  | SecondToLastPrivate => 7 | LastPrivate => 8 | DynamicPrivate => 9
  | Flow => 10 | Anti => 11 | Output => 12
  end%nat.

Definition of_index (n : nat) : t :=
  match n with
  | 0 => AddressAccess | 1 => ExplicitAccess | 2 => NoAccess | 3 => Readonly
  | 4 => Shared | 5 => Private | 6 => FirstPrivate
  | 7 => SecondToLastPrivate | 8 => LastPrivate | 9 => DynamicPrivate
  | 10 => Flow | 11 => Anti | _ => Output
  end%nat.
End trait.

#[global] Instance trait_eq_dec : EqDecision trait.t.
Proof. solve_decision. Defined.

#[global] Instance trait_countable : Countable trait.t.
Proof.
  refine (inj_countable' trait.index trait.of_index _).
  by intros [].
Defined.

(** Modelled from the spec: [bcl::TraitDescriptor] and the
    [DependencyDescriptor] built from it are declared outside the sources at
    hand.  A descriptor is the set of labels it carries; [set<T>()] adds the
    label [T] and [is<T>()] tests it. *)
Abbreviation Descriptor := (gset trait.t) (only parsing).

Definition set (T : trait.t) (Dptr : Descriptor) : Descriptor := {[T]} ∪ Dptr.

Definition is_ (T : trait.t) (Dptr : Descriptor) : bool := bool_decide (T ∈ Dptr).

(** ** Statistics ([STATISTIC] counters) *)

Inductive Statistic : Type :=
| NumPrivate | NumLPrivate | NumSToLPrivate | NumDPrivate | NumFPrivate
| NumDeps | NumReadonly | NumShared | NumAddressAccess.

#[global] Instance Statistic_eq_dec : EqDecision Statistic.
Proof. solve_decision. Defined.

Definition Statistics : Type := Statistic -> nat.

Definition no_statistics : Statistics := fun _ => 0%nat.

(** [Counter += n] *)
Definition add (Counter : Statistic) (n : nat) (St : Statistics) : Statistics :=
  fun c => if decide (c = Counter) then (St c + n)%nat else St c.

(** ** Decoding of a trait ([PrivateRecognitionPass::toDescriptor])

    The result is [None] where the [switch] reaches [llvm_unreachable]. *)
Definition toDescriptor (T : TraitImp) (TraitNumber : nat) (St : Statistics)
  : option (Descriptor * Statistics) :=
  let Dptr : Descriptor := ∅ in
  let '(Dptr, St) :=
    if tand (get T) (tnot AddressAccess) =? 0
    then (set trait.AddressAccess Dptr, add NumAddressAccess TraitNumber St)
    else (Dptr, St) in
  if tor (get T) (tnot AddressAccess) =? Dependency then
    Some (set trait.Output (set trait.Anti (set trait.Flow Dptr)),
          add NumDeps TraitNumber St)
  else
    let sw := tor (tor (get T) (tnot (tor (tnot Readonly) Shared)))
                  (tnot AddressAccess) in
    let shared '(Dptr, St) :=
      (* If shared is one of traits it has been set as read-only in switch. *)
      if tand (get T) (tnot (tor (tnot Readonly) Shared)) =? 0
      then (set trait.Shared Dptr, add NumShared TraitNumber St)
      else (Dptr, St) in
    let first '(Dptr, St) :=
      (set trait.FirstPrivate Dptr, add NumFPrivate TraitNumber St) in
    let last '(Dptr, St) :=
      (set trait.LastPrivate Dptr, add NumLPrivate TraitNumber St) in
    let second '(Dptr, St) :=
      (set trait.SecondToLastPrivate Dptr, add NumSToLPrivate TraitNumber St) in
    let dynamic '(Dptr, St) :=
      (set trait.DynamicPrivate Dptr, add NumDPrivate TraitNumber St) in
    if sw =? NoAccess then Some (shared (set trait.NoAccess Dptr, St))
    else if sw =? Readonly then
      Some (shared (set trait.Readonly Dptr, add NumReadonly TraitNumber St))
    else if sw =? Private then
      Some (shared (set trait.Private Dptr, add NumPrivate TraitNumber St))
    else if sw =? FirstPrivate then Some (shared (first (Dptr, St)))
    else if sw =? tand FirstPrivate LastPrivate then
      Some (shared (last (first (Dptr, St))))
    else if sw =? LastPrivate then Some (shared (last (Dptr, St)))
    else if sw =? tand FirstPrivate SecondToLastPrivate then
      Some (shared (second (first (Dptr, St))))
    else if sw =? SecondToLastPrivate then Some (shared (second (Dptr, St)))
    else if sw =? tand FirstPrivate DynamicPrivate then
      Some (shared (dynamic (first (Dptr, St))))
    else if sw =? DynamicPrivate then Some (shared (dynamic (Dptr, St)))
    else None.

(** ** Dependence descriptors ([DependenceImp]) *)

(** The traits of [DependenceImp::Descriptor], which is
    [bcl::TraitDescriptor<trait::Flow, trait::Anti, trait::Output>]. *)
Module dtrait.
Inductive t : Type := Flow | Anti | Output.

Definition index (x : t) : nat :=
  match x with Flow => 0 | Anti => 1 | Output => 2 end%nat.

Definition of_index (n : nat) : t :=
  match n with 0 => Flow | 1 => Anti | _ => Output end%nat.

(** The order in which [for_each] visits the traits. *)
Definition all : list t := [Flow; Anti; Output].
End dtrait.

#[global] Instance dtrait_eq_dec : EqDecision dtrait.t.
Proof. solve_decision. Defined.

#[global] Instance dtrait_countable : Countable dtrait.t.
Proof.
  refine (inj_countable' dtrait.index dtrait.of_index _).
  by intros [].
Defined.

(** The enumerators of [trait::Dependence::Flag] are declared outside the
    sources at hand: their values are taken as parameters. *)
Record FlagEnum : Type := mkFlagEnum {
  No : Z;
  May : Z;
  LoadStoreCause : Z;
  CallCause : Z;
  UnknownCause : Z;
  HeaderAccess : Z;
  UnknownDistance : Z
}.

(** A [const SCEV *]; [None] is the null pointer. *)
Definition SCEV : Type := option positive.

(** [SmallPtrSet<const SCEV *, 4>] *)
Abbreviation Distances := (gset SCEV) (only parsing).

(** [bcl::tagged_tuple] with the tags [Flow], [Anti], [Output]. *)
Record tagged_tuple (A : Type) : Type := mkTagged {
  atFlow : A;
  atAnti : A;
  atOutput : A
}.
Arguments mkTagged {A} _ _ _.
Arguments atFlow {A} _.
Arguments atAnti {A} _.
Arguments atOutput {A} _.

Definition tget {A : Type} (Trait : dtrait.t) (t : tagged_tuple A) : A :=
  match Trait with
  | dtrait.Flow => atFlow t
  | dtrait.Anti => atAnti t
  | dtrait.Output => atOutput t
  end.

Definition tset {A : Type} (Trait : dtrait.t) (x : A) (t : tagged_tuple A)
  : tagged_tuple A :=
  match Trait with
  | dtrait.Flow => mkTagged x (atAnti t) (atOutput t)
  | dtrait.Anti => mkTagged (atFlow t) x (atOutput t)
  | dtrait.Output => mkTagged (atFlow t) (atAnti t) x
  end.

Record DependenceImp : Type := mkDependenceImp {
  mDptr : gset dtrait.t;
  mDists : tagged_tuple Distances;
  mFlags : tagged_tuple Z
}.

(** A default constructed [DependenceImp]: no trait, no distance, zero
    flags. *)
Definition DependenceImp_default : DependenceImp :=
  mkDependenceImp ∅ (mkTagged ∅ ∅ ∅) (mkTagged 0 0 0).

Section DependenceUpdate.
Variable F : FlagEnum.

(** [UpdateFunctor::operator()<Trait>()]: the functor holds the pointer
    [mDep], the flag [mFlag], which it may change, and the distance
    [mDist]. *)
Definition UpdateFunctor (mDist : SCEV) (Trait : dtrait.t)
    (s : DependenceImp * Z) : DependenceImp * Z :=
  let '(mDep, mFlag) := s in
  let Dptr := {[Trait]} ∪ mDptr mDep in
  let mFlag := if mDist is None then Z.lor mFlag (UnknownDistance F)
               else mFlag in
  let Flags := tset Trait (Z.lor (tget Trait (mFlags mDep)) mFlag)
                 (mFlags mDep) in
  let Dists :=
    if negb (Z.land (tget Trait Flags) (UnknownDistance F) =? 0)
    then tset Trait ∅ (mDists mDep)
    else tset Trait ({[mDist]} ∪ tget Trait (mDists mDep)) (mDists mDep) in
  (mkDependenceImp Dptr Dists Flags, mFlag).

(** [Dptr.for_each(functor)]: the traits are visited in order and the
    functor is called for every trait set in [Dptr]. *)
Definition visit (Dptr : gset dtrait.t)
    (f : dtrait.t -> DependenceImp * Z -> DependenceImp * Z)
    (s : DependenceImp * Z) (Trait : dtrait.t) : DependenceImp * Z :=
  if bool_decide (Trait ∈ Dptr) then f Trait s else s.

Definition for_each (Dptr : gset dtrait.t)
    (f : dtrait.t -> DependenceImp * Z -> DependenceImp * Z)
    (s : DependenceImp * Z) : DependenceImp * Z :=
  fold_left (visit Dptr f) dtrait.all s.

(** [DependenceImp::update] *)
Definition update (Dptr : gset dtrait.t) (Flag : Z) (Dist : SCEV)
    (self : DependenceImp) : DependenceImp :=
  fst (for_each Dptr (UpdateFunctor Dist) (self, Flag)).
End DependenceUpdate.

(** ** The program under analysis, as the pass sees it *)

(** [llvm::MemoryLocation]; [Ptr] is [None] for a null pointer. *)
Record MemoryLocation : Type := mkMemoryLocation {
  Ptr : option positive;
  Size : Z;
  AATags : positive
}.

#[global] Instance MemoryLocation_eq_dec : EqDecision MemoryLocation.
Proof. solve_decision. Defined.

(** [MemoryLocation()] *)
Definition MemoryLocation_default : MemoryLocation :=
  mkMemoryLocation None 0 1.

Inductive Opcode : Type := LoadInst | StoreInst | CallInst | OtherInst.

Record Instruction : Type := mkInstruction {
  inst_id : positive;
  opcode : Opcode;
  mayReadOrWriteMemory : bool;
  isUnordered : bool;
  MemoryLocation_get : MemoryLocation;
  getParent : positive
}.

(** [ImmutableCallSite CS(I)] converted to [bool]. *)
Definition ImmutableCallSite (I : Instruction) : bool :=
  match opcode I with CallInst => true | _ => false end.

Module DVEntry.
Inductive t : Type := NONE | LT | EQ | LE | GT | NE | GE | ALL.
End DVEntry.

#[global] Instance DVEntry_eq_dec : EqDecision DVEntry.t.
Proof. solve_decision. Defined.

(** [llvm::Dependence], the answer of the dependence oracle. *)
Record Dependence : Type := mkDependence {
  isOutput : bool;
  isFlow : bool;
  isAnti : bool;
  getDirection : nat -> DVEntry.t;
  getDistance : nat -> SCEV
}.

Record Loop : Type := mkLoop {
  getBlocks : list (list Instruction);
  getHeader : positive;
  getLoopDepth : nat
}.

Inductive ModRefInfo : Type := MRI_NoModRef | MRI_Ref | MRI_Mod | MRI_ModRef.

#[global] Instance ModRefInfo_eq_dec : EqDecision ModRefInfo.
Proof. solve_decision. Defined.

(** [tsar::EstimateMemory]: a node of the estimate memory tree with the
    pointers it joins ([for (auto *Ptr : EM)]), its size, its alias
    information, the alias node it belongs to and its children. *)
Inductive EstimateMemory : Type :=
  mkEstimateMemory (id : positive) (pointers : list positive) (size : Z)
    (aainfo : positive) (node : positive) (children : list EstimateMemory).

Definition em_id (EM : EstimateMemory) : positive :=
  match EM with mkEstimateMemory i _ _ _ _ _ => i end.
Definition em_pointers (EM : EstimateMemory) : list positive :=
  match EM with mkEstimateMemory _ p _ _ _ _ => p end.
Definition getSize (EM : EstimateMemory) : Z :=
  match EM with mkEstimateMemory _ _ s _ _ _ => s end.
Definition getAAInfo (EM : EstimateMemory) : positive :=
  match EM with mkEstimateMemory _ _ _ a _ _ => a end.
Definition getAliasNode (EM : EstimateMemory) : positive :=
  match EM with mkEstimateMemory _ _ _ _ n _ => n end.
Definition em_children (EM : EstimateMemory) : list EstimateMemory :=
  match EM with mkEstimateMemory _ _ _ _ _ c => c end.

Definition isLeaf (EM : EstimateMemory) : bool :=
  match em_children EM with [] => true | _ => false end.

(** [make_range(df_begin(EM), df_end(EM))]: the depth-first walk, which
    starts with [EM] itself. *)
Fixpoint df (EM : EstimateMemory) : list EstimateMemory :=
  match EM with
  | mkEstimateMemory _ _ _ _ _ cs => EM :: flat_map df cs
  end.

(** [tsar::AliasNode]: a node of the alias tree. *)
Inductive AliasNode : Type :=
  mkAliasNode (id : positive) (children : list AliasNode).

Definition an_id (N : AliasNode) : positive :=
  match N with mkAliasNode i _ => i end.
Definition an_children (N : AliasNode) : list AliasNode :=
  match N with mkAliasNode _ c => c end.

(** [make_range(df_begin(&Child), df_end(&Child))] *)
Fixpoint an_df (N : AliasNode) : list AliasNode :=
  match N with
  | mkAliasNode _ cs => N :: flat_map an_df cs
  end.

(** [LocationDFValue]: the two queries the pass makes. *)
Record LocationDFValue : Type := mkLocationDFValue {
  contain : MemoryLocation -> bool;
  overlap : MemoryLocation -> bool
}.

Record DefinitionInfo : Type := mkDefinitionInfo {
  MustReach : LocationDFValue;
  MayReach : LocationDFValue
}.

Record DefUseSet : Type := mkDefUseSet {
  getExplicitAccesses : list MemoryLocation;
  getExplicitUnknowns : list Instruction;
  hasUse : MemoryLocation -> bool;
  hasDef : MemoryLocation -> bool;
  hasMayDef : MemoryLocation -> bool
}.

(** [LiveSet]: [getOut] gives the locations live after the region. *)
Record LiveSet : Type := mkLiveSet { getOut : LocationDFValue }.

Record DFRegion : Type := mkDFRegion {
  getLatchNode : option positive;
  getExitNode : option positive
}.

(** Modelled from the spec: [GraphNumbering] is declared outside the
    sources at hand; it is a stable numbering of the alias nodes. *)
Definition GraphNumbering : Type := positive -> nat.

(** The analyses the pass object holds and the helpers it calls, all
    declared outside the sources at hand and taken as parameters:
    [mAliasTree->find], [mAliasTree->findUnknown], the alias analysis
    queries, [for_each_memory], [mDepInfo->depends], [mDefInfo->find]
    followed by [get<ReachSet>()->getOut()], and [cover]. *)
Record PrivateRecognitionPass : Type := mkPrivateRecognitionPass {
  find : MemoryLocation -> option EstimateMemory;
  findUnknown : Instruction -> option positive;
  getModRefInfo : Instruction -> MemoryLocation -> ModRefInfo;
  onlyReadsMemory : Instruction -> bool;
  for_each_memory : Instruction -> list MemoryLocation;
  depends : Instruction -> Instruction -> option Dependence;
  mDefInfo : positive -> option DefinitionInfo;
  cover : GraphNumbering -> EstimateMemory -> list EstimateMemory -> bool
}.

(** ** Dependence collector *)

(** [DependenceMap]: from an estimate memory location, by its identifier,
    to its [DependenceImp]. *)
Abbreviation DependenceMap := (gmap positive DependenceImp) (only parsing).

(** [Deps.try_emplace(EM, nullptr)], [reset(new DependenceImp)] where the
    pointer is null, and [update] of the pointee. *)
Definition updateAt (F : FlagEnum) (EM : EstimateMemory)
    (Dptr : gset dtrait.t) (Flag : Z) (Dist : SCEV) (Deps : DependenceMap)
  : DependenceMap :=
  <[em_id EM := update F Dptr Flag Dist
                  (default DependenceImp_default (Deps !! em_id EM))]> Deps.

Section Collector.
Variable F : FlagEnum.
Variable P : PrivateRecognitionPass.

(** [PrivateRecognitionPass::insertDependence].  The result is [None]
    where an assertion fails. *)
Definition insertDependence (Dep : Dependence) (Src Dst : MemoryLocation)
    (Flag : Z) (L : Loop) (Deps : DependenceMap) : option DependenceMap :=
  let Dir := getDirection Dep (getLoopDepth L) in
  if bool_decide (Dir = DVEntry.EQ) then Some Deps
  else if negb (isOutput Dep || isAnti Dep || isFlow Dep) then None
  else
    let Dptr : gset dtrait.t :=
      if isOutput Dep then {[dtrait.Output]}
      else if bool_decide (Dir = DVEntry.ALL)
      then {[dtrait.Flow; dtrait.Anti]}
      else if isFlow Dep then
        if bool_decide (Dir = DVEntry.LT) || bool_decide (Dir = DVEntry.LE)
        then {[dtrait.Flow]}
        else {[dtrait.Anti]}
      else if isAnti Dep then
        if bool_decide (Dir = DVEntry.LT) || bool_decide (Dir = DVEntry.LE)
        then {[dtrait.Anti]}
        else {[dtrait.Flow]}
      else {[dtrait.Flow; dtrait.Anti]} in
    let Dist := getDistance Dep (getLoopDepth L) in
    let insert (Loc : MemoryLocation) (Deps : DependenceMap) :=
      EM ← find P Loc;
      Some (updateAt F EM Dptr (Z.lor (LoadStoreCause F) Flag) Dist Deps) in
    Deps ← insert Src Deps;
    insert Dst Deps.

(** [getLoadOrStoreLocation] *)
Definition getLoadOrStoreLocation (I : Instruction) : MemoryLocation :=
  match opcode I with
  | LoadInst =>
      if isUnordered I then MemoryLocation_get I else MemoryLocation_default
  | StoreInst =>
      if isUnordered I then MemoryLocation_get I else MemoryLocation_default
  | _ => MemoryLocation_default
  end.

(** The lambda [insertUnknownDep] of [collectDependencies], called by
    [for_each_memory] on each location [Loc]. *)
Definition insertUnknownDep (Src Dst : Instruction) (Dptr : gset dtrait.t)
    (Flag : Z) (Deps : option DependenceMap) (Loc : MemoryLocation)
  : option DependenceMap :=
  Deps ← Deps;
  if bool_decide (getModRefInfo P Src Loc = MRI_NoModRef) then Some Deps
  else if bool_decide (getModRefInfo P Dst Loc = MRI_NoModRef) then Some Deps
  else
    EM ← find P Loc;
    Some (updateAt F EM Dptr Flag None Deps).

(** The body of the inner loop of [collectDependencies] where the source
    instruction is not a load or a store ([!Src.Ptr]). *)
Definition collectUnknown (Src : Instruction) (HeaderAccess' : Z)
    (Deps : option DependenceMap) (Dst : Instruction)
  : option DependenceMap :=
  if negb (mayReadOrWriteMemory Dst) then Deps
  else
    let SrcCS := ImmutableCallSite Src in
    let DstCS := ImmutableCallSite Dst in
    let Flag :=
      Z.lor (Z.lor (Z.lor HeaderAccess' (May F)) (UnknownDistance F))
        (if negb SrcCS && negb DstCS then CallCause F else UnknownCause F) in
    let Dptr : gset dtrait.t := {[dtrait.Flow; dtrait.Anti; dtrait.Output]} in
    let Deps :=
      fold_left (insertUnknownDep Src Dst Dptr Flag) (for_each_memory P Src)
        Deps in
    fold_left (insertUnknownDep Src Dst Dptr Flag) (for_each_memory P Dst)
      Deps.

(** The body of the inner loop of [collectDependencies] where the source
    instruction is a load or a store with the location [Src]. *)
Definition collectKnown (L : Loop) (SrcI : Instruction)
    (Src : MemoryLocation) (HeaderAccess' : Z)
    (Deps : option DependenceMap) (DstI : Instruction)
  : option DependenceMap :=
  Deps ← Deps;
  let Dst := getLoadOrStoreLocation DstI in
  if negb (bool_decide (is_Some (Ptr Dst))) then Some Deps
  else
    match depends P SrcI DstI with
    | Some D =>
        if negb (isAnti D) && negb (isFlow D) && negb (isOutput D)
        then Some Deps
        else insertDependence D Src Dst HeaderAccess' L Deps
    | None => Some Deps
    end.

(** The outer loop of [collectDependencies]: [SrcItr] runs over
    [LoopInsts] and [DstItr] from [SrcItr] to the end. *)
Fixpoint collectFrom (L : Loop) (LoopInsts : list Instruction)
    (Deps : option DependenceMap) : option DependenceMap :=
  match LoopInsts with
  | [] => Deps
  | SrcI :: Rest =>
      let Deps :=
        if negb (mayReadOrWriteMemory SrcI) then Deps
        else
          let Src := getLoadOrStoreLocation SrcI in
          let HeaderAccess' :=
            if bool_decide (getParent SrcI = getHeader L)
            then HeaderAccess F else No F in
          if negb (bool_decide (is_Some (Ptr Src)))
          then fold_left (collectUnknown SrcI HeaderAccess') (SrcI :: Rest)
                 Deps
          else fold_left (collectKnown L SrcI Src HeaderAccess')
                 (SrcI :: Rest) Deps in
      collectFrom L Rest Deps
  end.

(** [PrivateRecognitionPass::collectDependencies] *)
Definition collectDependencies (L : Loop) (Deps : DependenceMap)
  : option DependenceMap :=
  let LoopInsts := concat (getBlocks L) in
  collectFrom L LoopInsts (Some Deps).
End Collector.

(** ** Working state of the analysis of one loop

    A [TraitImp] lives in an entry of a [TraitList] or of an [UnknownList];
    [ExplicitAccesses] and [ExplicitUnknowns] keep pointers to it.  The
    entries are therefore cells of a store, and the lists and the maps hold
    their addresses. *)

Abbreviation Store := (gmap positive TraitImp) (only parsing).

(** [TraitList]: pairs of an estimate memory location and its trait. *)
Definition TraitList : Type := list (EstimateMemory * positive).

(** [UnknownList]: pairs of an instruction and its trait. *)
Definition UnknownList : Type := list (Instruction * positive).

Record Working : Type := mkWorking {
  store : Store;
  ExplicitAccesses : gmap positive positive;
  ExplicitUnknowns : gmap positive (positive * positive);
  NodeTraits : gmap positive (TraitList * UnknownList)
}.

(** Modelled from the spec: [AliasTrait] and [DependencySet] are declared
    outside the sources at hand.  The result for an alias node is a
    descriptor together with the contributing memory locations and unknown
    accesses, each with a descriptor of its own; [count] is the number of
    contributions. *)
Record AliasTrait : Type := mkAliasTrait {
  dptr : Descriptor;
  memories : list (positive * Descriptor);
  unknowns : list (positive * Descriptor)
}.

Definition count (T : AliasTrait) : nat :=
  (length (memories T) + length (unknowns T))%nat.

Abbreviation DependencySet := (gmap positive AliasTrait) (only parsing).

(** ** Explicit access classifier *)

Section Classifier.
Variable P : PrivateRecognitionPass.

(** The body of the first loop of [resolveAccesses], for one explicitly
    accessed location [Loc]. *)
Definition resolveAccess (LatchDefs ExitingDefs : DefinitionInfo)
    (DefUse : DefUseSet) (LS : LiveSet) (Deps : DependenceMap)
    (W : option Working) (Loc : MemoryLocation) : option Working :=
  W ← W;
  Base ← find P Loc;
  W ← match ExplicitAccesses W !! em_id Base with
      | Some _ => Some W
      | None =>
          Itr ← NodeTraits W !! getAliasNode Base;
          let a := fresh (dom (store W)) in
          Some (mkWorking (<[a := TraitImp_default]> (store W))
                  (<[em_id Base := a]> (ExplicitAccesses W))
                  (ExplicitUnknowns W)
                  (<[getAliasNode Base := ((Base, a) :: Itr.1, Itr.2)]>
                     (NodeTraits W)))
      end;
  a ← ExplicitAccesses W !! em_id Base;
  CurrTraits ← store W !! a;
  let SharedTrait :=
    mkTraitImp (if negb (bool_decide (is_Some (Deps !! em_id Base)))
                then Shared else NoAccess) in
  let CurrTraits :=
    if negb (hasUse DefUse Loc) then
      if negb (overlap (getOut LS) Loc) then
        and_assign CurrTraits (mkTraitImp (tand Private (get SharedTrait)))
      else if hasDef DefUse Loc then
        and_assign CurrTraits
          (mkTraitImp (tand LastPrivate (get SharedTrait)))
      else if contain (MustReach LatchDefs) Loc &&
              negb (overlap (MayReach ExitingDefs) Loc) then
        and_assign CurrTraits
          (mkTraitImp (tand (tand SecondToLastPrivate FirstPrivate)
                         (get SharedTrait)))
      else
        and_assign CurrTraits
          (mkTraitImp (tand (tand DynamicPrivate FirstPrivate)
                         (get SharedTrait)))
    else if (hasMayDef DefUse Loc || hasDef DefUse Loc) &&
            (get SharedTrait =? NoAccess) then
      and_assign CurrTraits (mkTraitImp Dependency)
    else and_assign CurrTraits (mkTraitImp Readonly) in
  Some (mkWorking (<[a := CurrTraits]> (store W)) (ExplicitAccesses W)
          (ExplicitUnknowns W) (NodeTraits W)).

(** The body of the second loop of [resolveAccesses], for one unknown
    access. *)
Definition resolveUnknown (W : option Working) (Unknown : Instruction)
  : option Working :=
  W ← W;
  N ← findUnknown P Unknown;
  Itr ← NodeTraits W !! N;
  let TID :=
    if ImmutableCallSite Unknown && onlyReadsMemory P Unknown
    then Readonly else Dependency in
  let a := fresh (dom (store W)) in
  Some (mkWorking (<[a := mkTraitImp TID]> (store W)) (ExplicitAccesses W)
          (match ExplicitUnknowns W !! inst_id Unknown with
           | Some _ => ExplicitUnknowns W
           | None => <[inst_id Unknown := (N, a)]> (ExplicitUnknowns W)
           end)
          (<[N := (Itr.1, (Unknown, a) :: Itr.2)]> (NodeTraits W))).

(** [PrivateRecognitionPass::resolveAccesses].  The result is [None]
    where an assertion fails. *)
Definition resolveAccesses (LatchNode ExitNode : option positive)
    (DefUse : DefUseSet) (LS : LiveSet) (Deps : DependenceMap)
    (W : Working) : option Working :=
  LatchNode ← LatchNode;
  ExitNode ← ExitNode;
  LatchDefs ← mDefInfo P LatchNode;
  ExitingDefs ← mDefInfo P ExitNode;
  let W := fold_left (resolveAccess LatchDefs ExitingDefs DefUse LS Deps)
             (getExplicitAccesses DefUse) (Some W) in
  fold_left resolveUnknown (getExplicitUnknowns DefUse) W.
End Classifier.

(** ** First-private check, result store and coverage *)

Section Propagator.
Variable P : PrivateRecognitionPass.

(** The lambda [isAmbiguousCover] of [checkFirstPrivate]. *)
Definition isAmbiguousCover (Reach : LocationDFValue) (EM : EstimateMemory)
  : bool :=
  forallb (fun Ptr' => contain Reach
             (mkMemoryLocation (Some Ptr') (getSize EM) (getAAInfo EM)))
    (em_pointers EM).

(** The leaves which [checkFirstPrivate] collects in [DefLeafs]. *)
Definition DefLeafs (LatchDefs ExitingDefs : DefinitionInfo)
    (Dptr : Descriptor) (EM : EstimateMemory) : list EstimateMemory :=
  List.filter
    (fun Descendant =>
       if negb (isLeaf Descendant) then false
       else if is_ trait.LastPrivate Dptr then
         isAmbiguousCover (MustReach ExitingDefs) Descendant
       else if is_ trait.SecondToLastPrivate Dptr then
         isAmbiguousCover (MustReach LatchDefs) Descendant ||
         isAmbiguousCover (MustReach ExitingDefs) Descendant
       else true)
    (df EM).

(** [PrivateRecognitionPass::checkFirstPrivate]; [TraitItr] points to an
    entry of a trait list, [Dptr] is updated in place. *)
Definition checkFirstPrivate (Numbers : GraphNumbering) (R : DFRegion)
    (TraitItr : EstimateMemory * positive) (s : Store * Descriptor)
  : option (Store * Descriptor) :=
  let '(H, Dptr) := s in
  if is_ trait.FirstPrivate Dptr ||
     (negb (is_ trait.LastPrivate Dptr) &&
      negb (is_ trait.SecondToLastPrivate Dptr))
  then Some (H, Dptr)
  else
    LatchNode ← getLatchNode R;
    ExitNode ← getExitNode R;
    LatchDefs ← mDefInfo P LatchNode;
    ExitingDefs ← mDefInfo P ExitNode;
    let EM := TraitItr.1 in
    if cover P Numbers EM (DefLeafs LatchDefs ExitingDefs Dptr EM)
    then Some (H, Dptr)
    else
      T ← H !! TraitItr.2;
      Some (<[TraitItr.2 := and_assign T (mkTraitImp FirstPrivate)]> H,
            set trait.FirstPrivate Dptr).

(** The test that the pointee of an entry of [ExplicitAccesses] or of
    [ExplicitUnknowns], joined with [~AddressAccess], differs from
    [NoAccess]. *)
Definition isAccessed (H : Store) (a : positive) : option bool :=
  T ← H !! a;
  Some (negb (tor (get T) (tnot AddressAccess) =? NoAccess)).

(** State of the loops of [storeResults]: the store, the statistics, the
    combined trait and the result of the node. *)
Definition Combined : Type := Store * Statistics * TraitImp * AliasTrait.

(** The body of the loop of [storeResults] over the trait list. *)
Definition storeMemory (Numbers : GraphNumbering) (R : DFRegion)
    (N : positive) (EA : gmap positive positive) (s : option Combined)
    (EMI : EstimateMemory * positive) : option Combined :=
  '(H, St, CombinedTrait, NodeTrait) ← s;
  T ← H !! EMI.2;
  let CombinedTrait := and_assign CombinedTrait T in
  '(Dptr, St) ← toDescriptor T 0 St;
  '(H, Dptr) ← checkFirstPrivate Numbers R EMI (H, Dptr);
  explicit ← match EA !! em_id EMI.1 with
             | Some a =>
                 b ← isAccessed H a;
                 Some (b && bool_decide (getAliasNode EMI.1 = N))
             | None => Some false
             end;
  let '(NodeDptr, Dptr) :=
    if explicit : bool
    then (set trait.ExplicitAccess (dptr NodeTrait),
          set trait.ExplicitAccess Dptr)
    else (dptr NodeTrait, Dptr) in
  Some (H, St, CombinedTrait,
        mkAliasTrait NodeDptr (memories NodeTrait ++ [(em_id EMI.1, Dptr)])
          (unknowns NodeTrait)).

(** The body of the loop of [storeResults] over the unknown list. *)
Definition storeUnknown (N : positive)
    (EU : gmap positive (positive * positive)) (s : option Combined)
    (U : Instruction * positive) : option Combined :=
  '(H, St, CombinedTrait, NodeTrait) ← s;
  T ← H !! U.2;
  let CombinedTrait := and_assign CombinedTrait T in
  '(Dptr, St) ← toDescriptor T 0 St;
  explicit ← match EU !! inst_id U.1 with
             | Some (N', a) =>
                 b ← isAccessed H a;
                 Some (b && bool_decide (N' = N))
             | None => Some false
             end;
  let '(NodeDptr, Dptr) :=
    if explicit : bool
    then (set trait.ExplicitAccess (dptr NodeTrait),
          set trait.ExplicitAccess Dptr)
    else (dptr NodeTrait, Dptr) in
  Some (H, St, CombinedTrait,
        mkAliasTrait NodeDptr (memories NodeTrait)
          (unknowns NodeTrait ++ [(inst_id U.1, Dptr)])).

(** The last statements of [storeResults]: the combined trait is narrowed
    to read-only, shared or dependency and decoded. *)
Definition combine (CombinedTrait : TraitImp) : TraitImp :=
  and_assign CombinedTrait
    (mkTraitImp
       (if tor (get CombinedTrait) (tnot AddressAccess) =? Readonly
        then Readonly
        else if tor (get CombinedTrait) (tnot AddressAccess) =? Shared
        then Shared else Dependency)).

(** [PrivateRecognitionPass::storeResults] for the alias node [N] with
    the lists [Traits].  The result is [None] where an assertion fails or
    a trait cannot be decoded. *)
Definition storeResults (Numbers : GraphNumbering) (R : DFRegion)
    (N : positive) (EA : gmap positive positive)
    (EU : gmap positive (positive * positive))
    (Traits : TraitList * UnknownList)
    (s : Store * DependencySet * Statistics)
  : option (Store * DependencySet * Statistics) :=
  let '(H, DS, St) := s in
  if bool_decide (is_Some (DS !! N)) then None
  else
    let combined :=
      let NodeTrait := mkAliasTrait ∅ [] [] in
      s ← fold_left (storeMemory Numbers R N EA) Traits.1
            (Some (H, St, TraitImp_default, NodeTrait));
      '(H, St, CombinedTrait, NodeTrait) ←
        fold_left (storeUnknown N EU) Traits.2 (Some s);
      let CombinedTrait := combine CombinedTrait in
      '(Dptr, St) ← toDescriptor CombinedTrait (count NodeTrait) St;
      let Dptr :=
        if is_ trait.ExplicitAccess (dptr NodeTrait)
        then set trait.ExplicitAccess Dptr else Dptr in
      Some (H, <[N := mkAliasTrait Dptr (memories NodeTrait)
                        (unknowns NodeTrait)]> DS, St) in
    match Traits.1 with
    | EMI :: SecondEM =>
        if bool_decide (Traits.2 = []) && bool_decide (SecondEM = [])
        then
          T ← H !! EMI.2;
          '(Dptr, St) ← toDescriptor T 1 St;
          '(H, Dptr) ← checkFirstPrivate Numbers R EMI (H, Dptr);
          explicit ← match EA !! em_id EMI.1 with
                     | Some a =>
                         b ← isAccessed H a;
                         Some (b && bool_decide (getAliasNode EMI.1 = N))
                     | None => Some false
                     end;
          let Dptr := if explicit : bool
                      then set trait.ExplicitAccess Dptr else Dptr in
          Some (H, <[N := mkAliasTrait Dptr [(em_id EMI.1, Dptr)] []]> DS,
                St)
        else combined
    | [] => if bool_decide (Traits.2 = []) then Some (H, DS, St)
            else combined
    end.

(** The last loop of [propagateTraits]: the results of all descendants of
    the nodes of [Coverage], which [explicitAccessCoverage] computes
    outside the sources at hand, get the dependence traits. *)
Definition markDescendant (DS : DependencySet) (Descendant : AliasNode)
  : DependencySet :=
  match DS !! an_id Descendant with
  | Some Itr =>
      if negb (is_ trait.NoAccess (dptr Itr))
      then <[an_id Descendant :=
               mkAliasTrait
                 (set trait.Output (set trait.Anti
                    (set trait.Flow (dptr Itr))))
                 (memories Itr) (unknowns Itr)]> DS
      else DS
  | None => DS
  end.

Definition markCoverage (Coverage : list AliasNode) (DS : DependencySet)
  : DependencySet :=
  fold_left
    (fun DS N =>
       fold_left
         (fun DS Child => fold_left markDescendant (an_df Child) DS)
         (an_children N) DS)
    Coverage DS.
End Propagator.

(** ** Sequences of updates and of narrowings *)

(** The calls [update(Dptr, Flag, Dist)] of a list, in order. *)
Definition updates (F : FlagEnum) (us : list (gset dtrait.t * Z * SCEV))
    (D : DependenceImp) : DependenceImp :=
  fold_left (fun D u => update F u.1.1 u.1.2 u.2 D) us D.

(** The flag a call of [update] records: the functor adds
    [UnknownDistance] to it where the distance is null. *)
Definition recorded_flag (F : FlagEnum) (Flag : Z) (Dist : SCEV) : Z :=
  if Dist is None then Z.lor Flag (UnknownDistance F) else Flag.

(** The invariant of a [DependenceImp]: a kind whose flags include
    [UnknownDistance] has no recorded distance. *)
Definition unknown_has_no_distance (F : FlagEnum) (D : DependenceImp) : Prop :=
  forall Trait : dtrait.t,
    Z.land (tget Trait (mFlags D)) (UnknownDistance F) <> 0 ->
    tget Trait (mDists D) = ∅.

(** The narrowings [T &= With] of a list, in order. *)
Definition narrows (Withs : list TraitImp) (T : TraitImp) : TraitImp :=
  fold_left and_assign Withs T.

(** The codes which the conjunction of two enumerators of [TraitId] yields
    besides the enumerators themselves. *)
Definition TraitId_joins : list Z :=
  [_b "0000000"; _b "0001001"; _b "0001011"; _b "0001110"; _b "0011001";
   _b "0011011"; _b "0011110"; _b "0101001"; _b "0101011"; _b "0101110";
   _b "0111001"; _b "0111010"; _b "0111110"; _b "1111000"; _b "1111010"].

(** The leaves of the subtree of an estimate memory location. *)
Definition leaves (EM : EstimateMemory) : list EstimateMemory :=
  List.filter isLeaf (df EM).

(** The strict descendants of an alias node. *)
Definition descendants (N : AliasNode) : list AliasNode :=
  flat_map an_df (an_children N).

(** The result stored for the node [i], unless it is [NoAccess], carries
    the three dependence traits. *)
Definition escalated (DS : gmap positive AliasTrait) (i : positive) : Prop :=
  forall Itr, DS !! i = Some Itr -> is_ trait.NoAccess (dptr Itr) = false ->
    is_ trait.Flow (dptr Itr) = true /\ is_ trait.Anti (dptr Itr) = true /\
    is_ trait.Output (dptr Itr) = true.

(** The traits of a private location, in all their variants. *)
Definition private_traits : list trait.t :=
  [trait.Private; trait.FirstPrivate; trait.LastPrivate;
   trait.SecondToLastPrivate; trait.DynamicPrivate].

(** ** A small loop, used to run the definitions

    One scalar [x], the pointer 1 of size 4, stored in the estimate memory
    location 1 of the alias node 2 under the root 1; the loop defines it,
    does not use it, and it is not live after the loop. *)
Module Sample.
Definition flags : FlagEnum := mkFlagEnum 0 1 2 4 8 16 32.

Definition x : MemoryLocation := mkMemoryLocation (Some 1%positive) 4 1.

Definition EM_x : EstimateMemory := mkEstimateMemory 1 [1%positive] 4 1 2 [].

Definition nothing : LocationDFValue :=
  mkLocationDFValue (fun _ => false) (fun _ => false).

Definition everything : LocationDFValue :=
  mkLocationDFValue (fun _ => true) (fun _ => true).

(** A coverage test for the runs below: the given leaves cover a location
    when they include all its leaves. *)
Definition cover_all (_ : GraphNumbering) (EM : EstimateMemory)
    (Leafs : list EstimateMemory) : bool :=
  forallb (fun l => existsb (fun l' => Pos.eqb (em_id l) (em_id l')) Leafs)
    (leaves EM).

Definition pass_with (oracle : option Dependence) (Defs : DefinitionInfo)
  : PrivateRecognitionPass :=
  mkPrivateRecognitionPass
    (fun Loc => if bool_decide (Ptr Loc = Some 1%positive)
                then Some EM_x else None)
    (fun _ => None)
    (fun _ _ => MRI_ModRef)
    (fun _ => false)
    (fun I => [MemoryLocation_get I])
    (fun _ _ => oracle)
    (fun _ => Some Defs)
    cover_all.

Definition pass (Defs : DefinitionInfo) : PrivateRecognitionPass :=
  pass_with None Defs.

(** The store [x = ...] in the block 1. *)
Definition store_x : Instruction := mkInstruction 1 StoreInst true true x 1.

(** The loop made of the block 1, which is its header, at depth 1. *)
Definition loop : Loop := mkLoop [[store_x]] 1 1.

(** A chain of three alias nodes, the root 1 over 2 over 3. *)
Definition node3 : AliasNode := mkAliasNode 3 [].
Definition node2 : AliasNode := mkAliasNode 2 [node3].
Definition node1 : AliasNode := mkAliasNode 1 [node2].

Definition DefUse : DefUseSet :=
  mkDefUseSet [x] [] (fun _ => false) (fun _ => true) (fun _ => false).

Definition region : DFRegion := mkDFRegion (Some 1%positive) (Some 2%positive).

Definition numbers : GraphNumbering := Pos.to_nat.

Definition start : Working :=
  mkWorking ∅ ∅ ∅ {[1%positive := ([], []); 2%positive := ([], [])]}.

(** The analysis of the loop for the alias node 2: the explicit accesses
    are resolved and the result of the node is stored.  The passes in
    between leave the trait of [x] alone: [x] is not reached through a
    loaded pointer, its address is not taken, and the node 2 has a single
    entry and receives nothing from a child. *)
Definition run (Defs : DefinitionInfo) (LS : LiveSet) (Deps : DependenceMap)
  : option AliasTrait :=
  W ← resolveAccesses (pass Defs) (getLatchNode region) (getExitNode region)
        DefUse LS Deps start;
  Traits ← NodeTraits W !! 2%positive;
  s ← storeResults (pass Defs) numbers region 2 (ExplicitAccesses W)
        (ExplicitUnknowns W) Traits (store W, ∅, no_statistics);
  s.1.2 !! 2%positive.
End Sample.

(** ** Further notions used in the statements *)

(** The codes of seven bits which [toDescriptor] decodes. *)
Definition decoded_codes : list Z :=
  List.filter
    (fun c => bool_decide (is_Some (toDescriptor (mkTraitImp c) 0 no_statistics)))
    (map Z.of_nat (seq 0 128)).

(** The cases of the [switch] of [toDescriptor]: the traits set and the
    statistics counted, the last ones first. *)
Definition decode_table : list (list trait.t * list Statistic) :=
  [([trait.NoAccess], []);
   ([trait.Readonly], [NumReadonly]);
   ([trait.Private], [NumPrivate]);
   ([trait.FirstPrivate], [NumFPrivate]);
   ([trait.LastPrivate; trait.FirstPrivate], [NumLPrivate; NumFPrivate]);
   ([trait.LastPrivate], [NumLPrivate]);
   ([trait.SecondToLastPrivate; trait.FirstPrivate],
    [NumSToLPrivate; NumFPrivate]);
   ([trait.SecondToLastPrivate], [NumSToLPrivate]);
   ([trait.DynamicPrivate; trait.FirstPrivate], [NumDPrivate; NumFPrivate]);
   ([trait.DynamicPrivate], [NumDPrivate])].





(** Every descriptor of a dependence map keeps the invariant of
    [unknown_has_no_distance]. *)
Definition well_formed_deps (F : FlagEnum)
    (Deps : gmap positive DependenceImp) : Prop :=
  forall i D, Deps !! i = Some D -> unknown_has_no_distance F D.

(** A dependence map grows: every location stays, with at least the traits
    it had and with [UnknownDistance] where it had it. *)
Definition deps_grow (F : FlagEnum) (Deps Deps' : gmap positive DependenceImp)
  : Prop :=
  forall i D, Deps !! i = Some D ->
    exists D', Deps' !! i = Some D' /\ mDptr D ⊆ mDptr D' /\
      forall k, Z.land (tget k (mFlags D)) (UnknownDistance F) <> 0 ->
                Z.land (tget k (mFlags D')) (UnknownDistance F) <> 0.

(** A step of the collector: it fails on a failed map, and where it
    succeeds the map stays well formed and grows. *)
Definition collector_step {X : Type} (F : FlagEnum)
    (f : option (gmap positive DependenceImp) -> X ->
         option (gmap positive DependenceImp)) : Prop :=
  forall x,
    f None x = None /\
    forall Deps Deps', f (Some Deps) x = Some Deps' ->
      (well_formed_deps F Deps -> well_formed_deps F Deps') /\
      deps_grow F Deps Deps'.

(** ** Well-formed working states *)

(** Every pointer of the working state points to a cell of the store, and
    every explicit access is listed, with the cell it points to, in the
    trait list of the alias node of its estimate memory location. *)
Definition well_formed_working (W : Working) : Prop :=
  (forall em a, ExplicitAccesses W !! em = Some a ->
     is_Some (store W !! a) /\
     exists EM Traits, NodeTraits W !! getAliasNode EM = Some Traits /\
       In (EM, a) Traits.1 /\ em_id EM = em) /\
  (forall i N a, ExplicitUnknowns W !! i = Some (N, a) ->
     is_Some (store W !! a)) /\
  (forall n Traits, NodeTraits W !! n = Some Traits ->
     (forall e, In e Traits.1 -> is_Some (store W !! e.2)) /\
     (forall u, In u Traits.2 -> is_Some (store W !! u.2))).

(** A store is narrowed: every cell is still there and holds a conjunction
    of what it held with something. *)
Definition narrowed_store (H H' : gmap positive TraitImp) : Prop :=
  forall a T, H !! a = Some T ->
    exists T', H' !! a = Some T' /\ Z.land (mId T') (mId T) = mId T'.

(** A working state is extended: the store is narrowed, the explicit
    accesses keep their cells, and the alias nodes keep their lists,
    possibly with new entries in front. *)
Definition extended_working (W W' : Working) : Prop :=
  narrowed_store (store W) (store W') /\
  (forall em a, ExplicitAccesses W !! em = Some a ->
     ExplicitAccesses W' !! em = Some a) /\
  (forall n Traits, NodeTraits W !! n = Some Traits ->
     exists Traits', NodeTraits W' !! n = Some Traits' /\
       (forall e, In e Traits.1 -> In e Traits'.1) /\
       (forall u, In u Traits.2 -> In u Traits'.2)).

(** A trait lacks one of the bits 1 to 6: joined with [~AddressAccess] it
    differs from [NoAccess]. *)
Definition has_clear_bit (T : TraitImp) : Prop :=
  exists n, 1 <= n < 7 /\ Z.testbit (mId T) n = false.

(** A store changes by first-private narrowing only: every cell is as it
    was or holds its trait narrowed with [FirstPrivate]. *)
Definition first_private_narrowed (H H' : gmap positive TraitImp) : Prop :=
  forall a, H' !! a = H !! a \/
    exists T, H !! a = Some T /\
      H' !! a = Some (and_assign T (mkTraitImp FirstPrivate)).

(** What the last loop of [propagateTraits] does to the result of a
    descendant. *)
Definition markEntry (Itr : AliasTrait) : AliasTrait :=
  if negb (is_ trait.NoAccess (dptr Itr))
  then mkAliasTrait
         (set trait.Output (set trait.Anti (set trait.Flow (dptr Itr))))
         (memories Itr) (unknowns Itr)
  else Itr.

(** ** Pointer refinement ([PrivateRecognitionPass::resolvePointers]) *)

Section Pointers.
Variable P : PrivateRecognitionPass.

(** [dyn_cast<LoadInst>(Loc.Ptr)]: the load instruction which yields the
    pointer of a location, if the pointer is loaded; it belongs to the
    program under analysis and is taken as a parameter. *)
Variable dyn_cast_LoadInst : positive -> option Instruction.

(** The body of the loop of [resolvePointers], for one explicitly accessed
    location.  The result is [None] where an assertion fails. *)
Definition resolvePointer (EA : gmap positive positive)
    (H : option (gmap positive TraitImp)) (Loc : MemoryLocation)
  : option (gmap positive TraitImp) :=
  H ← H;
  Ptr' ← Ptr Loc;
  match dyn_cast_LoadInst Ptr' with
  | Some LI =>
      EM ← find P Loc;
      LocTraits ← EA !! em_id EM;
      T ← H !! LocTraits;
      if (tor (get T) (tnot AddressAccess) =? Private) ||
         (tor (get T) (tnot AddressAccess) =? Readonly) ||
         (tor (get T) (tnot AddressAccess) =? Shared)
      then Some H
      else
        Pointer ← find P (MemoryLocation_get LI);
        PtrTraits ← EA !! em_id Pointer;
        PT ← H !! PtrTraits;
        if tor (get PT) (tnot AddressAccess) =? Readonly then Some H
        else Some (<[LocTraits := and_assign T (mkTraitImp Dependency)]> H)
  | None => Some H
  end.

(** [PrivateRecognitionPass::resolvePointers] *)
Definition resolvePointers (DefUse : DefUseSet) (EA : gmap positive positive)
    (H : gmap positive TraitImp) : option (gmap positive TraitImp) :=
  fold_left (resolvePointer EA) (getExplicitAccesses DefUse) (Some H).
End Pointers.

(** A trait which, joined with [~AddressAccess], is [Private], [Readonly]
    or [Shared]: the pointer refinement keeps it. *)
Definition kept_trait (T : TraitImp) : Prop :=
  tor (get T) (tnot AddressAccess) = Private \/
  tor (get T) (tnot AddressAccess) = Readonly \/
  tor (get T) (tnot AddressAccess) = Shared.

(** A store changes by the pointer refinement only: every cell is as it
    was, or its trait was not kept and is narrowed with [Dependency]. *)
Definition dependency_narrowed (H H' : gmap positive TraitImp) : Prop :=
  forall a, H' !! a = H !! a \/
    exists T, H !! a = Some T /\ ~ kept_trait T /\
      H' !! a = Some (and_assign T (mkTraitImp Dependency)).

(** The outcome of the pointer refinement for a location whose pointer is
    loaded by [LI]: its trait is kept, or is decoded as a dependence, or
    the trait of the location which holds the pointer is [Readonly]. *)
Definition pointer_resolved (P : PrivateRecognitionPass)
    (EA : gmap positive positive) (H : gmap positive TraitImp)
    (Loc : MemoryLocation) (LI : Instruction) : Prop :=
  exists EM a T, find P Loc = Some EM /\ EA !! em_id EM = Some a /\
    H !! a = Some T /\
    (kept_trait T \/ mId T = 0 \/ mId T = Dependency \/
     exists Pointer b PT, find P (MemoryLocation_get LI) = Some Pointer /\
       EA !! em_id Pointer = Some b /\ H !! b = Some PT /\
       tor (get PT) (tnot AddressAccess) = Readonly).

(** A pointer [p] and the location [q] it points to: the address of [q]
    is loaded from [p] by [load_p]. *)
Module PointerSample.
Definition p : MemoryLocation := mkMemoryLocation (Some 2%positive) 8 1.
Definition q : MemoryLocation := mkMemoryLocation (Some 3%positive) 4 1.
Definition EM_p : EstimateMemory := mkEstimateMemory 2 [2%positive] 8 1 2 [].
Definition EM_q : EstimateMemory := mkEstimateMemory 3 [3%positive] 4 1 3 [].
Definition load_p : Instruction := mkInstruction 2 LoadInst true true p 1.

Definition pass : PrivateRecognitionPass :=
  mkPrivateRecognitionPass
    (fun Loc => if bool_decide (Ptr Loc = Some 2%positive) then Some EM_p
                else if bool_decide (Ptr Loc = Some 3%positive) then Some EM_q
                else None)
    (fun _ => None)
    (fun _ _ => MRI_ModRef)
    (fun _ => false)
    (fun I => [MemoryLocation_get I])
    (fun _ _ => None)
    (fun _ => None)
    Sample.cover_all.

Definition dyn_cast_LoadInst (v : positive) : option Instruction :=
  if bool_decide (v = 3%positive) then Some load_p else None.

Definition DefUse : DefUseSet :=
  mkDefUseSet [p; q] [] (fun _ => true) (fun _ => true) (fun _ => false).

(** The traits of [p] and [q] are kept in the cells 1 and 2. *)
Definition ExplicitAccesses : gmap positive positive :=
  {[2%positive := 1%positive; 3%positive := 2%positive]}.

Definition traits (Tp Tq : Z) : gmap positive TraitImp :=
  {[1%positive := mkTraitImp Tp; 2%positive := mkTraitImp Tq]}.
End PointerSample.

(** ** Redundant entries of a trait list
    ([PrivateRecognitionPass::removeRedundant]) *)

Section Redundant.
(** [ancestor(LHS, RHS)]: whichever of two estimate locations is an
    ancestor of the other in the estimate tree, if any; it belongs to the
    alias tree and is taken as a parameter. *)
Variable ancestor : EstimateMemory -> EstimateMemory -> option EstimateMemory.

(** The chain [getParent()], [getParent()->getParent()], ... of an estimate
    location, up to the root of its tree. *)
Variable parents : EstimateMemory -> list EstimateMemory.

(** [Ancestor == EM] on pointers: locations are identified by [em_id]. *)
Definition same_memory (Ancestor : option EstimateMemory)
    (EM : EstimateMemory) : bool :=
  match Ancestor with
  | Some A => bool_decide (em_id A = em_id EM)
  | None => false
  end.

(** The [for] loop of [removeRedundant] over the entries [Rest] which follow
    the current one, [(Current, c)].  The result gives the heap, whether the
    current entry has been absorbed by a following one (the function returns
    early then), and the entries which remain after the current one.  The
    trait of an erased entry is destroyed with the entry. *)
Fixpoint absorb (H : gmap positive TraitImp) (Current : EstimateMemory)
    (c : positive) (Rest : TraitList)
  : option (gmap positive TraitImp * bool * TraitList) :=
  match Rest with
  | [] => Some (H, false, [])
  | Itr :: Rest' =>
      TC ← H !! c;
      TI ← H !! Itr.2;
      if bool_decide (em_id Current = em_id Itr.1) then
        Some (delete c (<[Itr.2 := and_assign TI TC]> H), true, Itr :: Rest')
      else if same_memory (ancestor Current Itr.1) Itr.1 then
        Some (delete c (<[Itr.2 := and_assign TI TC]> H), true, Itr :: Rest')
      else if same_memory (ancestor Current Itr.1) Current then
        absorb (delete Itr.2 (<[c := and_assign TC TI]> H)) Current c Rest'
      else
        r ← absorb H Current c Rest';
        Some (r.1.1, r.1.2, Itr :: r.2)
  end.

(** The [while] loop at the end of [removeRedundant]: the farthest parent of
    [Current] reached through locations of the alias node [N]. *)
Fixpoint largest (N : positive) (Current : EstimateMemory)
    (Parents : list EstimateMemory) : EstimateMemory :=
  match Parents with
  | [] => Current
  | Parent :: Parents' =>
      if bool_decide (getAliasNode Parent = N)
      then largest N Parent Parents'
      else Current
  end.

(** [PrivateRecognitionPass::removeRedundant].  The list [Traits] is given
    by the entries up to [BeforeCurrItr] and the entries from [CurrItr] on;
    the result is [None] where an assertion fails. *)
Definition removeRedundant (N : positive)
    (s : gmap positive TraitImp * TraitList * TraitList)
  : option (gmap positive TraitImp * TraitList * TraitList) :=
  match s.2 with
  | [] => None
  | Curr :: Rest =>
      match absorb s.1.1 Curr.1 Curr.2 Rest with
      | Some (H', true, Rest') => Some (H', s.1.2, Rest')
      | Some (H', false, Rest') =>
          let Current :=
            if bool_decide (getAliasNode Curr.1 = N)
            then largest N Curr.1 (parents Curr.1) else Curr.1 in
          Some (H', s.1.2 ++ [(Current, Curr.2)], Rest')
      | None => None
      end
  end.

(** The loop of [propagateTraits] which calls [removeRedundant] until
    [CurrItr] reaches the end of the list; [fuel] bounds the number of
    calls. *)
Fixpoint removeAllRedundant (fuel : nat) (N : positive)
    (s : gmap positive TraitImp * TraitList * TraitList)
  : option (gmap positive TraitImp * TraitList) :=
  match s.2 with
  | [] => Some (s.1.1, s.1.2)
  | _ :: _ =>
      match fuel with
      | O => None
      | S fuel' => s' ← removeRedundant N s; removeAllRedundant fuel' N s'
      end
  end.
End Redundant.

(** The traits of the entries of a list are alive in the heap, each in a
    cell of its own. *)
Definition owns_traits (H : gmap positive TraitImp) (l : TraitList) : Prop :=
  NoDup l.*2 /\ forall a, a ∈ l.*2 -> is_Some (H !! a).

(** The bit [n] is set in the trait of every entry of a list. *)
Definition bit_in_all (H : gmap positive TraitImp) (l : TraitList) (n : Z)
  : Prop :=
  forall a T, a ∈ l.*2 -> H !! a = Some T -> Z.testbit (mId T) n = true.

(** Two estimate locations one of which makes the other redundant in a
    trait list: they are the same location, or one of them is their
    [ancestor]. *)
Definition redundant
    (ancestor : EstimateMemory -> EstimateMemory -> option EstimateMemory)
    (Current EM : EstimateMemory) : Prop :=
  em_id Current = em_id EM \/
  same_memory (ancestor Current EM) EM = true \/
  same_memory (ancestor Current EM) Current = true.

(** Three locations of one estimate tree, laid out in the alias nodes 2
    and 3: [whole] is the parent of [part], which is the parent of
    [piece]. *)
Module RedundantSample.
Definition piece : EstimateMemory := mkEstimateMemory 3 [1%positive] 1 1 3 [].
Definition part : EstimateMemory :=
  mkEstimateMemory 2 [1%positive] 2 1 2 [piece].
Definition whole : EstimateMemory :=
  mkEstimateMemory 1 [1%positive] 4 1 2 [part].

Definition parents (EM : EstimateMemory) : list EstimateMemory :=
  if bool_decide (em_id EM = 3%positive) then [part; whole]
  else if bool_decide (em_id EM = 2%positive) then [whole]
  else [].

Definition ancestor (LHS RHS : EstimateMemory) : option EstimateMemory :=
  if bool_decide (em_id LHS = em_id RHS) then Some LHS
  else if bool_decide (em_id LHS ∈ map em_id (parents RHS)) then Some LHS
  else if bool_decide (em_id RHS ∈ map em_id (parents LHS)) then Some RHS
  else None.

Definition Traits : TraitList :=
  [(part, 1%positive); (piece, 2%positive); (whole, 3%positive)].

Definition traits : gmap positive TraitImp :=
  {[1%positive := mkTraitImp Shared; 2%positive := mkTraitImp Readonly;
    3%positive := mkTraitImp LastPrivate]}.
End RedundantSample.

(** ** Traits of the children of an alias node
    (the first part of the loop of [PrivateRecognitionPass::propagateTraits]) *)

Section Propagation.
(** [EstimateMemory::getParent]: the parent of an estimate location in its
    estimate tree; it belongs to the alias tree and is taken as a
    parameter. *)
Variable getParent : EstimateMemory -> option EstimateMemory.

(** The body of the loop over the trait list of a child of the node [N].
    The state is the heap and the trait list of [N]; a trait moved into a
    new entry of the list lives in a new cell. *)
Definition propagateEntry (N : positive) (EA : gmap positive positive)
    (s : option (gmap positive TraitImp * TraitList))
    (EMToT : EstimateMemory * positive)
  : option (gmap positive TraitImp * TraitList) :=
  match s with
  | None => None
  | Some (H, Traits) =>
      T ← H !! EMToT.2;
      let push_front (EM : EstimateMemory) :=
        let b := fresh (dom H) in
        Some (<[b := T]> H, (EM, b) :: Traits) in
      match getParent EMToT.1 with
      | None => push_front EMToT.1
      | Some Parent =>
          if negb (bool_decide (getAliasNode Parent = N))
          then push_front EMToT.1
          else
            match EA !! em_id Parent with
            | Some a =>
                Cell ← H !! a;
                Some (<[a := and_assign Cell T]> H, Traits)
            | None => push_front Parent
            end
      end
  end.

(** The body of the loop over the unknown list of a child of [N]. *)
Definition propagateUnknown
    (s : option (gmap positive TraitImp * UnknownList))
    (UToT : Instruction * positive)
  : option (gmap positive TraitImp * UnknownList) :=
  match s with
  | None => None
  | Some (H, Unknowns) =>
      T ← H !! UToT.2;
      let b := fresh (dom H) in
      Some (<[b := T]> H, (UToT.1, b) :: Unknowns)
  end.

(** The traits [CT] of one child are moved to the traits [NT] of the node
    [N] or joined to the traits of the explicit accesses of [N]. *)
Definition propagateChild (N : positive) (EA : gmap positive positive)
    (H : gmap positive TraitImp) (NT CT : TraitList * UnknownList)
  : option (gmap positive TraitImp * (TraitList * UnknownList)) :=
  match fold_left (propagateEntry N EA) CT.1 (Some (H, NT.1)) with
  | None => None
  | Some (H1, Traits) =>
      match fold_left propagateUnknown CT.2 (Some (H1, NT.2)) with
      | None => None
      | Some (H2, Unknowns) => Some (H2, (Traits, Unknowns))
      end
  end.
End Propagation.

(** The trait [T] of an entry of a child is accounted for at the node [N]:
    a trait which is [T] or narrower is held by an entry of the list of
    [N], or by the explicit access to the parent of the entry's location
    when the parent belongs to [N]. *)
Definition accounted (getParent : EstimateMemory -> option EstimateMemory)
    (N : positive) (EA : gmap positive positive)
    (H : gmap positive TraitImp) (Traits : TraitList)
    (EM : EstimateMemory) (T : TraitImp) : Prop :=
  exists x T', H !! x = Some T' /\ Z.land (mId T') (mId T) = mId T' /\
    (x ∈ Traits.*2 \/
     exists Parent, getParent EM = Some Parent /\
       getAliasNode Parent = N /\ EA !! em_id Parent = Some x).

(** The locations of [RedundantSample] seen from the alias node 2: [piece]
    comes from the child node 3, [part] and [whole] are accessed explicitly
    in the node 2. *)
Module PropagationSample.
Definition getParent (EM : EstimateMemory) : option EstimateMemory :=
  head (RedundantSample.parents EM).

Definition ExplicitAccesses : gmap positive positive :=
  {[2%positive := 1%positive; 1%positive := 3%positive]}.

Definition NT : TraitList * UnknownList :=
  ([(RedundantSample.part, 1%positive); (RedundantSample.whole, 3%positive)],
   []).

Definition CT : TraitList * UnknownList :=
  ([(RedundantSample.piece, 2%positive)], []).
End PropagationSample.

(** * Properties *)

(** ** Bitwise arithmetic *)

Lemma lor_1_cases (c k : Z) :
  Z.lor c 1 = k -> c = k \/ c = k - 1.
Proof.
  intros <-.
  assert (Hc : Z.lor c 1 = 2 * (c / 2) + 1).
  { apply Z.bits_inj'. intros n Hn.
    rewrite Z.lor_spec.
    destruct (Z.eq_dec n 0) as [->|Hne].
    - rewrite Z.testbit_odd_0. simpl. by rewrite orb_true_r.
    - replace n with (Z.succ (n - 1)) by lia.
      rewrite Z.testbit_odd_succ by lia.
      rewrite <- Z.div2_div, Z.div2_spec, Z.shiftr_spec by lia.
      replace (n - 1 + 1) with (Z.succ (n - 1)) by lia.
      assert (H1 : Z.testbit 1 (Z.succ (n - 1)) = false).
      { apply (Z.bits_above_log2 1); simpl; lia. }
      by rewrite H1, orb_false_r. }
  rewrite Hc.
  pose proof (Z.div_mod c 2 ltac:(lia)) as Hd.
  pose proof (Z.mod_pos_bound c 2 ltac:(lia)) as Hm.
  lia.
Qed.

Lemma land_1_cases (c : Z) : Z.land c 1 = 0 \/ Z.land c 1 = 1.
Proof.
  change 1 with (Z.ones 1) at 1 2.
  rewrite Z.land_ones by lia.
  change (2 ^ 1) with 2.
  pose proof (Z.mod_pos_bound c 2 ltac:(lia)). lia.
Qed.

Lemma land_lor_absorb (a u : Z) : Z.land (Z.lor a u) u = u.
Proof.
  apply Z.bits_inj'. intros n _.
  rewrite Z.land_spec, Z.lor_spec.
  destruct (Z.testbit a n), (Z.testbit u n); reflexivity.
Qed.

Lemma land_lor_nonzero_l (f g u : Z) :
  Z.land f u <> 0 -> Z.land (Z.lor f g) u <> 0.
Proof.
  rewrite Z.land_lor_distr_l, Z.lor_eq_0_iff. tauto.
Qed.

Lemma land_lor_nonzero_r (f g u : Z) :
  Z.land g u <> 0 -> Z.land (Z.lor f g) u <> 0.
Proof.
  rewrite Z.land_lor_distr_l, Z.lor_eq_0_iff. tauto.
Qed.

(** ** Trait lattice *)

Lemma or_assign_self (a y : TraitImp) : or_assign a y = a.
Proof. reflexivity. Qed.

(** C1 (defect of the code): the widening [a |= y] must leave [a] with the
    code [x | y], where [x] is the code [a] held.  The operator compares the
    two codes and drops the result, so [a] keeps [x]: for [a] holding
    [Dependency] and [y] being [Readonly], [a] still holds [Dependency]
    although [Dependency | Readonly] is [Readonly], a different code with
    bits which [Dependency] lacks. *)
Theorem C1_widen_keeps_old_code :
  (forall a y : TraitImp, mId (or_assign a y) = mId a) /\
  mId (or_assign (mkTraitImp Dependency) (mkTraitImp Readonly)) = Dependency /\
  tor Dependency Readonly = Readonly /\
  tor Dependency Readonly <> Dependency.
Proof.
  split; [intros a y; by rewrite or_assign_self|].
  by vm_compute.
Qed.

(** The enumerators and the joined codes are all decoded. *)
Lemma toDescriptor_enumerators_joins (c : Z) (n : nat) (St : Statistics) :
  In c (TraitId_enumerators ++ TraitId_joins) ->
  is_Some (toDescriptor (mkTraitImp c) n St).
Proof.
  intros Hc. vm_compute in Hc.
  repeat (destruct Hc as [<-|Hc]; [by eexists|]). destruct Hc.
Qed.

(** C3 (as amended): the conjunction of two enumerators of [TraitId] is an
    enumerator or one of the fifteen joined codes of [TraitId_joins], and
    [toDescriptor] decodes it. *)
Theorem C3_conjunction_of_enumerators (a b : Z) (n : nat) (St : Statistics) :
  In a TraitId_enumerators -> In b TraitId_enumerators ->
  In (tand a b) (TraitId_enumerators ++ TraitId_joins) /\
  is_Some (toDescriptor (mkTraitImp (tand a b)) n St).
Proof.
  intros Ha Hb.
  assert (H : In (tand a b) (TraitId_enumerators ++ TraitId_joins)).
  { vm_compute in Ha, Hb.
    repeat (destruct Ha as [<-|Ha]; [|]); try (destruct Ha);
      (repeat (destruct Hb as [<-|Hb]; [vm_compute; tauto|]); destruct Hb). }
  split; [exact H|]. by apply toDescriptor_enumerators_joins.
Qed.

Lemma C3_conjunction_of_enumerators_witness :
  In Readonly TraitId_enumerators /\ In LastPrivate TraitId_enumerators /\
  In (tand Readonly LastPrivate) (TraitId_enumerators ++ TraitId_joins) /\
  is_Some (toDescriptor (mkTraitImp (tand Readonly LastPrivate)) 1
             no_statistics).
Proof.
  assert (Ha : In Readonly TraitId_enumerators) by (vm_compute; tauto).
  assert (Hb : In LastPrivate TraitId_enumerators) by (vm_compute; tauto).
  split; [exact Ha|]. split; [exact Hb|].
  exact (C3_conjunction_of_enumerators Readonly LastPrivate 1 no_statistics
           Ha Hb).
Defined.

(** C3 (as stated, refuted): the enumerators are not closed under
    conjunction, since [Readonly & LastPrivate] is [0011011], which is none
    of them. *)
Lemma C3_enumerators_not_closed :
  ~ (forall a b : Z, In a TraitId_enumerators -> In b TraitId_enumerators ->
       In (tand a b) TraitId_enumerators).
Proof.
  intros H.
  specialize (H Readonly LastPrivate).
  vm_compute in H.
  destruct H as [H|H]; [tauto | tauto | ..]; try discriminate.
  repeat (destruct H as [H|H]; [discriminate|]). destruct H.
Qed.

(** [Dependency] and the zero code are decoded as a dependence. *)
Lemma toDescriptor_Dependency (T : TraitImp) (n : nat) (St : Statistics) :
  mId T = 0 \/ mId T = Dependency ->
  exists Dptr St', toDescriptor T n St = Some (Dptr, St') /\
    {[trait.Flow; trait.Anti; trait.Output]} ⊆ Dptr /\
    Dptr ⊆ {[trait.Flow; trait.Anti; trait.Output; trait.AddressAccess]}.
Proof.
  destruct T as [m]. simpl.
  intros [->| ->]; (eexists _, _; split; [reflexivity|]);
    unfold set; split; set_solver.
Qed.

Lemma narrows_Dependency (Withs : list TraitImp) (T : TraitImp) :
  mId T = 0 \/ mId T = Dependency ->
  mId (narrows Withs T) = 0 \/ mId (narrows Withs T) = Dependency.
Proof.
  revert T. induction Withs as [|W Withs IH]; intros T HT; [exact HT|].
  apply IH. unfold and_assign. simpl.
  destruct HT as [-> | ->].
  - left. apply Z.land_0_l.
  - change Dependency with 1. rewrite Z.land_comm. apply land_1_cases.
Qed.

(** C9: the conjunction of [Dependency] with an enumerator of [TraitId] is
    [Dependency] or the zero code; hence a trait narrowed to [Dependency]
    is, after any further narrowings, still decoded as a dependence (flow,
    anti and output), with no read-only, shared or private trait and no
    [NoAccess]. *)
Theorem C9_Dependency_absorbs (x : Z) (Withs : list TraitImp) (n : nat)
    (St : Statistics) :
  In x TraitId_enumerators ->
  (tand Dependency x = Dependency \/ tand Dependency x = 0) /\
  exists Dptr St',
    toDescriptor (narrows Withs (mkTraitImp Dependency)) n St
      = Some (Dptr, St') /\
    is_ trait.Flow Dptr = true /\ is_ trait.Anti Dptr = true /\
    is_ trait.Output Dptr = true /\
    is_ trait.Readonly Dptr = false /\ is_ trait.Shared Dptr = false /\
    is_ trait.NoAccess Dptr = false /\
    forall t, In t private_traits -> is_ t Dptr = false.
Proof.
  intros Hx. split.
  - vm_compute in Hx.
    repeat (destruct Hx as [<-|Hx]; [vm_compute; tauto|]). destruct Hx.
  - destruct (toDescriptor_Dependency
                (narrows Withs (mkTraitImp Dependency)) n St)
      as (Dptr & St' & Heq & Hsub & Hsup).
    { apply narrows_Dependency. by right. }
    exists Dptr, St'. split; [exact Heq|].
    unfold is_.
    repeat split; try (apply bool_decide_eq_true; set_solver);
      try (apply bool_decide_eq_false; set_solver).
    intros t Ht. apply bool_decide_eq_false.
    vm_compute in Ht.
    repeat (destruct Ht as [<-|Ht]; [set_solver|]). destruct Ht.
Qed.

Lemma C9_Dependency_absorbs_witness :
  In AddressAccess TraitId_enumerators /\
  (tand Dependency AddressAccess = Dependency \/
   tand Dependency AddressAccess = 0) /\
  exists Dptr St',
    toDescriptor
      (narrows [mkTraitImp Private; mkTraitImp Shared]
         (mkTraitImp Dependency)) 1 no_statistics = Some (Dptr, St') /\
    is_ trait.Flow Dptr = true /\ is_ trait.Anti Dptr = true /\
    is_ trait.Output Dptr = true /\
    is_ trait.Readonly Dptr = false /\ is_ trait.Shared Dptr = false /\
    is_ trait.NoAccess Dptr = false /\
    forall t, In t private_traits -> is_ t Dptr = false.
Proof.
  assert (Hx : In AddressAccess TraitId_enumerators) by (vm_compute; tauto).
  split; [exact Hx|].
  exact (C9_Dependency_absorbs AddressAccess
           [mkTraitImp Private; mkTraitImp Shared] 1 no_statistics Hx).
Defined.

(** ** Dependence descriptors *)

Lemma tget_tset_eq {A : Type} (k : dtrait.t) (x : A) (t : tagged_tuple A) :
  tget k (tset k x t) = x.
Proof. by destruct k. Qed.

Lemma tget_tset_ne {A : Type} (j k : dtrait.t) (x : A) (t : tagged_tuple A) :
  j <> k -> tget j (tset k x t) = tget j t.
Proof. by destruct j, k. Qed.


Section UpdateFacts.
Variable F : FlagEnum.

Lemma recorded_flag_idem (Flag : Z) (Dist : SCEV) :
  recorded_flag F (recorded_flag F Flag Dist) Dist = recorded_flag F Flag Dist.
Proof.
  unfold recorded_flag. destruct Dist; [reflexivity|].
  by rewrite <- Z.lor_assoc, Z.lor_diag.
Qed.

(** One visit of a trait, component by component. *)
Lemma visit_flag (Dptr : gset dtrait.t) (Dist : SCEV) (k : dtrait.t)
    (s : DependenceImp * Z) :
  recorded_flag F (visit Dptr (UpdateFunctor F Dist) s k).2 Dist =
  recorded_flag F s.2 Dist.
Proof.
  unfold visit. destruct s as [D Flag]. case_bool_decide; [|reflexivity].
  apply recorded_flag_idem.
Qed.

Lemma visit_mDptr (Dptr : gset dtrait.t) (Dist : SCEV) (k : dtrait.t)
    (s : DependenceImp * Z) :
  mDptr (visit Dptr (UpdateFunctor F Dist) s k).1 =
  (if bool_decide (k ∈ Dptr) then {[k]} else ∅) ∪ mDptr s.1.
Proof.
  unfold visit. destruct s as [D Flag]. case_bool_decide; [reflexivity|].
  cbn [fst]. set_solver.
Qed.

Lemma visit_mFlags (Dptr : gset dtrait.t) (Dist : SCEV) (k j : dtrait.t)
    (s : DependenceImp * Z) :
  tget j (mFlags (visit Dptr (UpdateFunctor F Dist) s k).1) =
  if bool_decide (j = k /\ k ∈ Dptr)
  then Z.lor (tget j (mFlags s.1)) (recorded_flag F s.2 Dist)
  else tget j (mFlags s.1).
Proof.
  unfold visit. destruct s as [D Flag].
  case_bool_decide as Hk; cbn [fst snd mFlags UpdateFunctor].
  - fold (recorded_flag F Flag Dist).
    case_bool_decide as Hj.
    + destruct Hj as [-> _]. by rewrite tget_tset_eq.
    + rewrite tget_tset_ne; [reflexivity|tauto].
  - rewrite bool_decide_eq_false_2; [reflexivity|tauto].
Qed.

Lemma visit_mDists (Dptr : gset dtrait.t) (Dist : SCEV) (k j : dtrait.t)
    (s : DependenceImp * Z) :
  tget j (mDists (visit Dptr (UpdateFunctor F Dist) s k).1) =
  if bool_decide (j = k /\ k ∈ Dptr)
  then if Z.land (Z.lor (tget j (mFlags s.1)) (recorded_flag F s.2 Dist))
                 (UnknownDistance F) =? 0
       then {[Dist]} ∪ tget j (mDists s.1)
       else ∅
  else tget j (mDists s.1).
Proof.
  unfold visit. destruct s as [D Flag].
  case_bool_decide as Hk; cbn [fst snd mDists UpdateFunctor].
  - fold (recorded_flag F Flag Dist).
    case_bool_decide as Hj.
    + destruct Hj as [-> _]. rewrite tget_tset_eq.
      destruct (_ =? 0); cbn [negb]; by rewrite tget_tset_eq.
    + destruct (negb _); (rewrite tget_tset_ne; [reflexivity|tauto]).
  - rewrite bool_decide_eq_false_2; [reflexivity|tauto].
Qed.

Lemma update_unfold (Dptr : gset dtrait.t) (Flag : Z) (Dist : SCEV)
    (D : DependenceImp) :
  update F Dptr Flag Dist D =
  (visit Dptr (UpdateFunctor F Dist)
     (visit Dptr (UpdateFunctor F Dist)
        (visit Dptr (UpdateFunctor F Dist) (D, Flag) dtrait.Flow)
        dtrait.Anti)
     dtrait.Output).1.
Proof. reflexivity. Qed.

(** [update], component by component. *)
Lemma update_mDptr (Dptr : gset dtrait.t) (Flag : Z) (Dist : SCEV)
    (D : DependenceImp) :
  mDptr (update F Dptr Flag Dist D) = Dptr ∪ mDptr D.
Proof.
  rewrite update_unfold, !visit_mDptr. cbn [fst].
  apply set_eq. intros k.
  repeat case_bool_decide; destruct k; set_solver.
Qed.

Lemma update_mFlags (Dptr : gset dtrait.t) (Flag : Z) (Dist : SCEV)
    (D : DependenceImp) (j : dtrait.t) :
  tget j (mFlags (update F Dptr Flag Dist D)) =
  if bool_decide (j ∈ Dptr)
  then Z.lor (tget j (mFlags D)) (recorded_flag F Flag Dist)
  else tget j (mFlags D).
Proof.
  rewrite update_unfold, !visit_mFlags, !visit_flag. cbn [fst snd].
  destruct j; repeat case_bool_decide; naive_solver.
Qed.

Lemma update_mDists (Dptr : gset dtrait.t) (Flag : Z) (Dist : SCEV)
    (D : DependenceImp) (j : dtrait.t) :
  tget j (mDists (update F Dptr Flag Dist D)) =
  if bool_decide (j ∈ Dptr)
  then if Z.land (Z.lor (tget j (mFlags D)) (recorded_flag F Flag Dist))
                 (UnknownDistance F) =? 0
       then {[Dist]} ∪ tget j (mDists D)
       else ∅
  else tget j (mDists D).
Proof.
  rewrite update_unfold, !visit_mDists, !visit_mFlags, !visit_flag.
  cbn [fst snd].
  destruct j; repeat case_bool_decide; naive_solver.
Qed.

Lemma update_invariant (Dptr : gset dtrait.t) (Flag : Z) (Dist : SCEV)
    (D : DependenceImp) :
  unknown_has_no_distance F D ->
  unknown_has_no_distance F (update F Dptr Flag Dist D).
Proof.
  intros HD j. rewrite update_mFlags, update_mDists.
  case_bool_decide; [|apply HD].
  intros Hu. destruct (Z.eqb_spec (Z.land
    (Z.lor (tget j (mFlags D)) (recorded_flag F Flag Dist))
    (UnknownDistance F)) 0); [contradiction|reflexivity].
Qed.

Lemma updates_invariant (us : list (gset dtrait.t * Z * SCEV))
    (D : DependenceImp) :
  unknown_has_no_distance F D ->
  unknown_has_no_distance F (updates F us D).
Proof.
  revert D. induction us as [|u us IH]; intros D HD; [exact HD|].
  apply IH. by apply update_invariant.
Qed.

(** The flags of a kind only grow. *)
Lemma updates_keep_unknown (us : list (gset dtrait.t * Z * SCEV))
    (D : DependenceImp) (j : dtrait.t) :
  Z.land (tget j (mFlags D)) (UnknownDistance F) <> 0 ->
  Z.land (tget j (mFlags (updates F us D))) (UnknownDistance F) <> 0.
Proof.
  revert D. induction us as [|u us IH]; intros D HD; [exact HD|].
  apply IH. rewrite update_mFlags.
  case_bool_decide; [|exact HD]. by apply land_lor_nonzero_l.
Qed.

Lemma update_null_distance (Dptr : gset dtrait.t) (Flag : Z)
    (D : DependenceImp) (j : dtrait.t) :
  UnknownDistance F <> 0 -> j ∈ Dptr ->
  Z.land (tget j (mFlags (update F Dptr Flag None D))) (UnknownDistance F)
    <> 0.
Proof.
  intros HU Hj. rewrite update_mFlags, bool_decide_eq_true_2 by exact Hj.
  apply land_lor_nonzero_r. unfold recorded_flag.
  by rewrite land_lor_absorb.
Qed.
End UpdateFacts.

(** C8: a [DependenceImp] keeps the invariant that a kind whose flags
    include [UnknownDistance] has an empty set of distances: it holds for a
    new descriptor and after any sequence of updates of a descriptor which
    has it.  An update with a null distance sets [UnknownDistance] for the
    kinds it names (the enumerator being a non-zero mask), and whatever
    updates follow, with known distances or not, the flag stays and the set
    of distances of such a kind stays empty. *)
Theorem C8_unknown_distance_invariant (F : FlagEnum)
    (us : list (gset dtrait.t * Z * SCEV)) :
  unknown_has_no_distance F DependenceImp_default /\
  (forall D, unknown_has_no_distance F D ->
             unknown_has_no_distance F (updates F us D)) /\
  (UnknownDistance F <> 0 ->
   forall (D : DependenceImp) (Dptr : gset dtrait.t) (Flag : Z)
          (Trait : dtrait.t),
     unknown_has_no_distance F D -> Trait ∈ Dptr ->
     let D' := updates F us (update F Dptr Flag None D) in
     Z.land (tget Trait (mFlags D')) (UnknownDistance F) <> 0 /\
     tget Trait (mDists D') = ∅).
Proof.
  split; [|split].
  - intros j Hj. by destruct j.
  - intros D HD. by apply updates_invariant.
  - intros HU D Dptr Flag Trait HD HT D'.
    assert (Hflag : Z.land (tget Trait (mFlags D')) (UnknownDistance F) <> 0).
    { apply updates_keep_unknown. by apply update_null_distance. }
    split; [exact Hflag|].
    apply (updates_invariant F us (update F Dptr Flag None D)); [|exact Hflag].
    by apply update_invariant.
Qed.

Lemma C8_unknown_distance_invariant_witness :
  UnknownDistance Sample.flags <> 0 /\
  unknown_has_no_distance Sample.flags DependenceImp_default /\
  dtrait.Flow ∈ ({[dtrait.Flow]} : gset dtrait.t) /\
  let D' := updates Sample.flags [({[dtrait.Flow]}, 2, Some 5%positive)]
              (update Sample.flags {[dtrait.Flow]} 2 None
                 DependenceImp_default) in
  Z.land (tget dtrait.Flow (mFlags D')) (UnknownDistance Sample.flags) <> 0 /\
  tget dtrait.Flow (mDists D') = ∅.
Proof.
  pose proof (C8_unknown_distance_invariant Sample.flags
                [({[dtrait.Flow]}, 2, Some 5%positive)]) as (H0 & _ & H).
  assert (HU : UnknownDistance Sample.flags <> 0) by (vm_compute; discriminate).
  assert (Hin : dtrait.Flow ∈ ({[dtrait.Flow]} : gset dtrait.t))
    by (apply elem_of_singleton; reflexivity).
  split; [exact HU|]. split; [exact H0|]. split; [exact Hin|].
  exact (H HU DependenceImp_default {[dtrait.Flow]} 2 dtrait.Flow H0 Hin).
Defined.

(** ** Dependence collector *)

Lemma updateAt_lookup (F : FlagEnum) (EM : EstimateMemory)
    (Dptr : gset dtrait.t) (Flag : Z) (Dist : SCEV) (Deps : DependenceMap)
    (i : positive) :
  updateAt F EM Dptr Flag Dist Deps !! i =
  if decide (em_id EM = i)
  then Some (update F Dptr Flag Dist
               (default DependenceImp_default (Deps !! i)))
  else Deps !! i.
Proof.
  unfold updateAt. rewrite lookup_insert.
  destruct (decide (em_id EM = i)) as [->|]; reflexivity.
Qed.

(** After the two insertions of [insertDependence] both endpoints carry the
    traits [K] on top of those they had. *)
Lemma updateAt_twice_mDptr (F : FlagEnum) (EMs EMd EM : EstimateMemory)
    (K : gset dtrait.t) (Flag : Z) (Dist : SCEV) (Deps : DependenceMap) :
  EM = EMs \/ EM = EMd ->
  exists D',
    updateAt F EMd K Flag Dist (updateAt F EMs K Flag Dist Deps) !! em_id EM
      = Some D' /\
    mDptr D' = K ∪ mDptr (default DependenceImp_default (Deps !! em_id EM)).
Proof.
  intros HEM. rewrite !updateAt_lookup.
  destruct (decide (em_id EMd = em_id EM)) as [Hd|Hd].
  - eexists; split; [reflexivity|].
    rewrite update_mDptr.
    destruct (decide (em_id EMs = em_id EM)) as [Hs|Hs]; simpl.
    + rewrite update_mDptr. set_solver.
    + reflexivity.
  - destruct HEM as [->| ->]; [|contradiction].
    rewrite decide_True by reflexivity.
    eexists; split; [reflexivity|]. by rewrite update_mDptr.
Qed.

(** C4 (as amended): for a dependence whose direction at the depth of the
    loop is not [EQ], [insertDependence] adds to the descriptors of both
    endpoints exactly [Output] where the oracle reports an output
    dependence, whatever the direction; otherwise [Flow] and [Anti] where
    the direction is [ALL]; otherwise, for a flow dependence, [Flow] where
    the direction is [LT] or [LE] and [Anti] where it is not, and for an
    anti dependence [Anti] where the direction is [LT] or [LE] and [Flow]
    where it is not. *)
Theorem C4_classification (F : FlagEnum) (P : PrivateRecognitionPass)
    (Dep : Dependence) (Src Dst : MemoryLocation) (Flag : Z) (L : Loop)
    (Deps : DependenceMap) (EMs EMd : EstimateMemory) :
  let Dir := getDirection Dep (getLoopDepth L) in
  Dir <> DVEntry.EQ ->
  isOutput Dep || isAnti Dep || isFlow Dep = true ->
  find P Src = Some EMs -> find P Dst = Some EMd ->
  exists (Deps' : DependenceMap) (K : gset dtrait.t),
    insertDependence F P Dep Src Dst Flag L Deps = Some Deps' /\
    (forall EM, EM = EMs \/ EM = EMd ->
       exists D', Deps' !! em_id EM = Some D' /\
         mDptr D' =
         K ∪ mDptr (default DependenceImp_default (Deps !! em_id EM))) /\
    (isOutput Dep = true -> K = {[dtrait.Output]}) /\
    (isOutput Dep = false -> Dir = DVEntry.ALL ->
     K = {[dtrait.Flow; dtrait.Anti]}) /\
    (isOutput Dep = false -> Dir <> DVEntry.ALL -> isFlow Dep = true ->
     (Dir = DVEntry.LT \/ Dir = DVEntry.LE -> K = {[dtrait.Flow]}) /\
     (Dir <> DVEntry.LT -> Dir <> DVEntry.LE -> K = {[dtrait.Anti]})) /\
    (isOutput Dep = false -> Dir <> DVEntry.ALL -> isFlow Dep = false ->
     (Dir = DVEntry.LT \/ Dir = DVEntry.LE -> K = {[dtrait.Anti]}) /\
     (Dir <> DVEntry.LT -> Dir <> DVEntry.LE -> K = {[dtrait.Flow]})).
Proof.
  intros Dir HEQ Hkind Hs Hd.
  unfold insertDependence. fold Dir.
  rewrite bool_decide_eq_false_2 by exact HEQ.
  rewrite Hkind. cbn [negb].
  rewrite Hs. cbn [mbind option_bind]. rewrite Hd. cbn [mbind option_bind].
  eexists _, _. split; [reflexivity|].
  split; [intros EM HEM; by apply updateAt_twice_mDptr|].
  destruct (isOutput Dep) eqn:HO, (isFlow Dep) eqn:HF, (isAnti Dep) eqn:HA;
    try discriminate Hkind;
    repeat split; intros; try discriminate; try reflexivity;
    repeat case_bool_decide; cbn [orb]; naive_solver.
Qed.

Lemma C4_classification_witness :
  let Dep := mkDependence false true false (fun _ => DVEntry.LT)
               (fun _ => Some 3%positive) in
  let P := Sample.pass (mkDefinitionInfo Sample.nothing Sample.nothing) in
  let L := mkLoop [] 1 1 in
  getDirection Dep (getLoopDepth L) <> DVEntry.EQ /\
  isOutput Dep || isAnti Dep || isFlow Dep = true /\
  find P Sample.x = Some Sample.EM_x /\
  exists (Deps' : DependenceMap) (K : gset dtrait.t),
    insertDependence Sample.flags P Dep Sample.x Sample.x 0 L ∅ = Some Deps' /\
    (forall EM, EM = Sample.EM_x \/ EM = Sample.EM_x ->
       exists D', Deps' !! em_id EM = Some D' /\
         mDptr D' =
         K ∪ mDptr (default DependenceImp_default
                      ((∅ : DependenceMap) !! em_id EM))) /\
    (isOutput Dep = true -> K = {[dtrait.Output]}) /\
    (isOutput Dep = false ->
     getDirection Dep (getLoopDepth L) = DVEntry.ALL ->
     K = {[dtrait.Flow; dtrait.Anti]}) /\
    (isOutput Dep = false ->
     getDirection Dep (getLoopDepth L) <> DVEntry.ALL -> isFlow Dep = true ->
     (getDirection Dep (getLoopDepth L) = DVEntry.LT \/
      getDirection Dep (getLoopDepth L) = DVEntry.LE -> K = {[dtrait.Flow]}) /\
     (getDirection Dep (getLoopDepth L) <> DVEntry.LT ->
      getDirection Dep (getLoopDepth L) <> DVEntry.LE ->
      K = {[dtrait.Anti]})) /\
    (isOutput Dep = false ->
     getDirection Dep (getLoopDepth L) <> DVEntry.ALL -> isFlow Dep = false ->
     (getDirection Dep (getLoopDepth L) = DVEntry.LT \/
      getDirection Dep (getLoopDepth L) = DVEntry.LE -> K = {[dtrait.Anti]}) /\
     (getDirection Dep (getLoopDepth L) <> DVEntry.LT ->
      getDirection Dep (getLoopDepth L) <> DVEntry.LE ->
      K = {[dtrait.Flow]})).
Proof.
  intros Dep P L.
  assert (H1 : getDirection Dep (getLoopDepth L) <> DVEntry.EQ)
    by (simpl; discriminate).
  assert (H2 : isOutput Dep || isAnti Dep || isFlow Dep = true)
    by reflexivity.
  assert (H3 : find P Sample.x = Some Sample.EM_x) by reflexivity.
  split; [exact H1|]. split; [exact H2|]. split; [exact H3|].
  exact (C4_classification Sample.flags P Dep Sample.x Sample.x 0 L ∅
           Sample.EM_x Sample.EM_x H1 H2 H3 H3).
Defined.

(** C4 (as stated, refuted): for an output dependence whose direction is
    [ALL], hence not [EQ], the update sets [Output] alone: neither [Flow]
    nor [Anti] is set although the direction spans [ALL]. *)
Lemma C4_output_ALL_sets_no_Flow_Anti :
  let Dep := mkDependence true false false (fun _ => DVEntry.ALL)
               (fun _ => None) in
  let P := Sample.pass (mkDefinitionInfo Sample.nothing Sample.nothing) in
  let L := mkLoop [] 1 1 in
  getDirection Dep (getLoopDepth L) = DVEntry.ALL /\
  exists Deps' D',
    insertDependence Sample.flags P Dep Sample.x Sample.x 0 L ∅ = Some Deps' /\
    Deps' !! em_id Sample.EM_x = Some D' /\
    mDptr D' = {[dtrait.Output]} /\
    ~ (dtrait.Flow ∈ mDptr D' /\ dtrait.Anti ∈ mDptr D').
Proof.
  intros Dep P L. split; [reflexivity|].
  eexists _, _. split; [reflexivity|]. split; [by vm_compute|].
  split; [by vm_compute|].
  intros [HF _]. revert HF. by vm_compute.
Qed.

(** A dependence which the collector discards: its direction at the depth
    of the loop is [EQ], or it is an input dependence. *)
Lemma collectKnown_discards (F : FlagEnum) (P : PrivateRecognitionPass)
    (L : Loop) (SrcI DstI : Instruction) (Src : MemoryLocation)
    (HeaderAccess' : Z) (Deps : gmap positive DependenceImp) :
  (forall D, depends P SrcI DstI = Some D ->
     getDirection D (getLoopDepth L) = DVEntry.EQ \/
     (isFlow D = false /\ isAnti D = false /\ isOutput D = false)) ->
  collectKnown F P L SrcI Src HeaderAccess' (Some Deps) DstI = Some Deps.
Proof.
  intros Hcase. unfold collectKnown. cbn [mbind option_bind].
  destruct (negb _); [reflexivity|].
  destruct (depends P SrcI DstI) as [D|]; [|reflexivity].
  destruct (Hcase D eq_refl) as [HEQ|(-> & -> & ->)]; [|reflexivity].
  destruct (negb (isAnti D) && negb (isFlow D) && negb (isOutput D));
    [reflexivity|].
  unfold insertDependence. by rewrite HEQ.
Qed.

(** A loop whose memory instructions are all unordered loads and stores,
    and for which the oracle reports only dependences that are discarded,
    leaves the dependence map as it was. *)
Lemma collectDependencies_discards (F : FlagEnum) (P : PrivateRecognitionPass)
    (L : Loop) (Deps : gmap positive DependenceImp) :
  (forall I, In I (concat (getBlocks L)) -> mayReadOrWriteMemory I = true ->
     is_Some (Ptr (getLoadOrStoreLocation I))) ->
  (forall SrcI DstI D, depends P SrcI DstI = Some D ->
     getDirection D (getLoopDepth L) = DVEntry.EQ \/
     (isFlow D = false /\ isAnti D = false /\ isOutput D = false)) ->
  collectDependencies F P L Deps = Some Deps.
Proof.
  intros Hmem Horacle. unfold collectDependencies.
  induction (concat (getBlocks L)) as [|SrcI Rest IH]; [reflexivity|].
  cbn [collectFrom].
  assert (Hstep :
    (if negb (mayReadOrWriteMemory SrcI) then Some Deps
     else if negb (bool_decide (is_Some (Ptr (getLoadOrStoreLocation SrcI))))
          then fold_left
                 (collectUnknown F P SrcI
                    (if bool_decide (getParent SrcI = getHeader L)
                     then HeaderAccess F else No F))
                 (SrcI :: Rest) (Some Deps)
          else fold_left
                 (collectKnown F P L SrcI (getLoadOrStoreLocation SrcI)
                    (if bool_decide (getParent SrcI = getHeader L)
                     then HeaderAccess F else No F))
                 (SrcI :: Rest) (Some Deps)) = Some Deps).
  { destruct (mayReadOrWriteMemory SrcI) eqn:Hrw; [|reflexivity].
    cbn [negb].
    rewrite bool_decide_eq_true_2 by (apply Hmem; [by left|exact Hrw]).
    cbn [negb].
    generalize (SrcI :: Rest). intros l.
    induction l as [|DstI l IHl]; [reflexivity|].
    cbn [fold_left]. rewrite collectKnown_discards; [exact IHl|].
    intros D. apply Horacle. }
  rewrite Hstep. apply IH.
  intros I HI. apply Hmem. by right.
Qed.

(** C7: where the oracle answers, for a pair of load or store instructions,
    with a dependence whose direction at the depth of the loop is [EQ], or
    with an input dependence (neither flow, nor anti, nor output), the step
    of the collector for the pair returns the dependence map as it was: no
    descriptor is created or updated. *)
Theorem C7_discarded_dependence (F : FlagEnum) (P : PrivateRecognitionPass)
    (L : Loop) (SrcI DstI : Instruction) (Src : MemoryLocation)
    (HeaderAccess' : Z) (Deps : gmap positive DependenceImp) (D : Dependence) :
  depends P SrcI DstI = Some D ->
  getDirection D (getLoopDepth L) = DVEntry.EQ \/
  (isFlow D = false /\ isAnti D = false /\ isOutput D = false) ->
  collectKnown F P L SrcI Src HeaderAccess' (Some Deps) DstI = Some Deps.
Proof.
  intros HD Hcase. apply collectKnown_discards.
  intros D' HD'. rewrite HD in HD'. by injection HD' as <-.
Qed.

Lemma C7_discarded_dependence_witness :
  let D := mkDependence false true false (fun _ => DVEntry.EQ)
             (fun _ => None) in
  let P := Sample.pass_with (Some D)
             (mkDefinitionInfo Sample.nothing Sample.nothing) in
  depends P Sample.store_x Sample.store_x = Some D /\
  (getDirection D (getLoopDepth Sample.loop) = DVEntry.EQ \/
   (isFlow D = false /\ isAnti D = false /\ isOutput D = false)) /\
  collectKnown Sample.flags P Sample.loop Sample.store_x Sample.x 16
    (Some ∅) Sample.store_x = Some ∅.
Proof.
  intros D P.
  assert (H1 : depends P Sample.store_x Sample.store_x = Some D)
    by reflexivity.
  assert (H2 : getDirection D (getLoopDepth Sample.loop) = DVEntry.EQ \/
               (isFlow D = false /\ isAnti D = false /\ isOutput D = false))
    by (left; reflexivity).
  split; [exact H1|]. split; [exact H2|].
  exact (C7_discarded_dependence Sample.flags P Sample.loop Sample.store_x
           Sample.store_x Sample.x 16 ∅ D H1 H2).
Defined.

(** ** First-private check *)

Lemma DefLeafs_all (LatchDefs ExitingDefs : DefinitionInfo)
    (Dptr : gset trait.t) (EM : EstimateMemory) :
  is_ trait.LastPrivate Dptr = true \/
  is_ trait.SecondToLastPrivate Dptr = true ->
  (forall leaf, In leaf (leaves EM) ->
     (if is_ trait.LastPrivate Dptr
      then isAmbiguousCover (MustReach ExitingDefs) leaf
      else isAmbiguousCover (MustReach LatchDefs) leaf ||
           isAmbiguousCover (MustReach ExitingDefs) leaf) = true) ->
  DefLeafs LatchDefs ExitingDefs Dptr EM = leaves EM.
Proof.
  intros Hkind Hall. unfold DefLeafs, leaves.
  apply List.filter_ext_in. intros x Hx.
  destruct (isLeaf x) eqn:Hleaf; [|reflexivity]. cbn [negb].
  assert (Hin : In x (leaves EM)).
  { unfold leaves. apply List.filter_In. by split. }
  specialize (Hall x Hin).
  destruct (is_ trait.LastPrivate Dptr); [exact Hall|].
  destruct Hkind as [? | ->]; [discriminate|exact Hall].
Qed.

(** C5: for an entry whose descriptor carries [LastPrivate] (or
    [SecondToLastPrivate]) and not [FirstPrivate], with the definitions
    reaching the latch and the exit at hand: where every leaf of the
    estimate memory location is contained in the set of definitions which
    must reach the exit (respectively the latch or the exit) and these
    leaves cover the location, the check leaves the trait and the
    descriptor as they are, without [FirstPrivate]; where the collected
    leaves do not cover the location, the trait is narrowed with
    [FirstPrivate] and the descriptor gets [FirstPrivate]. *)
Theorem C5_first_private_check (P : PrivateRecognitionPass)
    (Numbers : GraphNumbering) (R : DFRegion) (EM : EstimateMemory)
    (a : positive) (H : gmap positive TraitImp) (Dptr : gset trait.t)
    (T : TraitImp) (LatchNode ExitNode : positive)
    (LatchDefs ExitingDefs : DefinitionInfo) :
  is_ trait.FirstPrivate Dptr = false ->
  is_ trait.LastPrivate Dptr = true \/
  is_ trait.SecondToLastPrivate Dptr = true ->
  getLatchNode R = Some LatchNode -> getExitNode R = Some ExitNode ->
  mDefInfo P LatchNode = Some LatchDefs ->
  mDefInfo P ExitNode = Some ExitingDefs ->
  H !! a = Some T ->
  ((forall leaf, In leaf (leaves EM) ->
      (if is_ trait.LastPrivate Dptr
       then isAmbiguousCover (MustReach ExitingDefs) leaf
       else isAmbiguousCover (MustReach LatchDefs) leaf ||
            isAmbiguousCover (MustReach ExitingDefs) leaf) = true) ->
   cover P Numbers EM (leaves EM) = true ->
   checkFirstPrivate P Numbers R (EM, a) (H, Dptr) = Some (H, Dptr)) /\
  (cover P Numbers EM (DefLeafs LatchDefs ExitingDefs Dptr EM) = false ->
   checkFirstPrivate P Numbers R (EM, a) (H, Dptr) =
     Some (<[a := and_assign T (mkTraitImp FirstPrivate)]> H,
           set trait.FirstPrivate Dptr) /\
   is_ trait.FirstPrivate (set trait.FirstPrivate Dptr) = true).
Proof.
  intros HFP Hkind HL HE HLD HED Ha.
  assert (Hgo : is_ trait.FirstPrivate Dptr ||
                negb (is_ trait.LastPrivate Dptr) &&
                negb (is_ trait.SecondToLastPrivate Dptr) = false).
  { rewrite HFP. destruct Hkind as [-> | ->]; [reflexivity|].
    by rewrite andb_false_r. }
  unfold checkFirstPrivate. rewrite Hgo, HL, HE.
  cbn [mbind option_bind]. rewrite HLD, HED. cbn [mbind option_bind fst snd].
  split.
  - intros Hall Hcover. rewrite DefLeafs_all by assumption.
    by rewrite Hcover.
  - intros Hcover. rewrite Hcover, Ha. cbn [mbind option_bind].
    split; [reflexivity|].
    unfold is_, set. apply bool_decide_eq_true. set_solver.
Qed.

Lemma C5_first_private_check_witness :
  let Dptr : gset trait.t := {[trait.LastPrivate]} in
  let H : gmap positive TraitImp := {[1%positive := mkTraitImp LastPrivate]} in
  let must := mkDefinitionInfo Sample.everything Sample.everything in
  let may := mkDefinitionInfo Sample.nothing Sample.nothing in
  checkFirstPrivate (Sample.pass must) Sample.numbers Sample.region
    (Sample.EM_x, 1%positive) (H, Dptr) = Some (H, Dptr) /\
  checkFirstPrivate (Sample.pass may) Sample.numbers Sample.region
    (Sample.EM_x, 1%positive) (H, Dptr) =
    Some (<[1%positive := and_assign (mkTraitImp LastPrivate)
                            (mkTraitImp FirstPrivate)]> H,
          set trait.FirstPrivate Dptr) /\
  is_ trait.FirstPrivate (set trait.FirstPrivate Dptr) = true.
Proof.
  intros Dptr H must may.
  assert (HFP : is_ trait.FirstPrivate Dptr = false) by (by vm_compute).
  assert (HLP : is_ trait.LastPrivate Dptr = true \/
                is_ trait.SecondToLastPrivate Dptr = true)
    by (left; by vm_compute).
  assert (Ha : H !! 1%positive = Some (mkTraitImp LastPrivate))
    by (by vm_compute).
  split.
  - apply (proj1 (C5_first_private_check (Sample.pass must) Sample.numbers
                    Sample.region Sample.EM_x 1 H Dptr
                    (mkTraitImp LastPrivate) 1 2 must must HFP HLP
                    eq_refl eq_refl eq_refl eq_refl Ha)).
    + intros leaf Hleaf. vm_compute in Hleaf.
      destruct Hleaf as [<-|[]]. by vm_compute.
    + by vm_compute.
  - apply (proj2 (C5_first_private_check (Sample.pass may) Sample.numbers
                    Sample.region Sample.EM_x 1 H Dptr
                    (mkTraitImp LastPrivate) 1 2 may may HFP HLP
                    eq_refl eq_refl eq_refl eq_refl Ha)).
    by vm_compute.
Defined.

(** ** Coverage *)

Lemma fold_left_flat_map {A B C : Type} (f : A -> B -> A) (g : C -> list B)
    (l : list C) (a : A) :
  fold_left f (flat_map g l) a = fold_left (fun a x => fold_left f (g x) a) l a.
Proof.
  revert a. induction l as [|x l IH]; intros a; [reflexivity|].
  cbn [flat_map fold_left]. by rewrite fold_left_app, IH.
Qed.

Lemma markCoverage_flat (Coverage : list AliasNode)
    (DS : gmap positive AliasTrait) :
  markCoverage Coverage DS =
  fold_left markDescendant (flat_map descendants Coverage) DS.
Proof.
  unfold markCoverage, descendants.
  rewrite fold_left_flat_map.
  revert DS. induction Coverage as [|N Coverage IH]; intros DS; [reflexivity|].
  cbn [fold_left]. rewrite fold_left_flat_map. apply IH.
Qed.

Lemma markDescendant_preserves (DS : gmap positive AliasTrait)
    (D : AliasNode) (i : positive) :
  escalated DS i -> escalated (markDescendant DS D) i.
Proof.
  intros HDS. unfold markDescendant.
  destruct (DS !! an_id D) as [Old|] eqn:Hold; [|exact HDS].
  destruct (negb (is_ trait.NoAccess (dptr Old))) eqn:Hno; [|exact HDS].
  intros Itr. rewrite lookup_insert.
  destruct (decide (an_id D = i)) as [_|_]; [|apply HDS].
  intros [= <-] _. cbn [dptr]. unfold is_, set.
  repeat split; apply bool_decide_eq_true; set_solver.
Qed.

Lemma markDescendant_establishes (DS : gmap positive AliasTrait)
    (D : AliasNode) :
  escalated (markDescendant DS D) (an_id D).
Proof.
  unfold markDescendant.
  destruct (DS !! an_id D) as [Old|] eqn:Hold.
  - destruct (negb (is_ trait.NoAccess (dptr Old))) eqn:Hno.
    + intros Itr. rewrite lookup_insert_eq. intros [= <-] _.
      cbn [dptr]. unfold is_, set.
      repeat split; apply bool_decide_eq_true; set_solver.
    + intros Itr HItr Hfalse. rewrite Hold in HItr.
      injection HItr as <-. rewrite Hfalse in Hno. discriminate.
  - intros Itr HItr. rewrite Hold in HItr. discriminate.
Qed.

Lemma fold_markDescendant (l : list AliasNode)
    (DS : gmap positive AliasTrait) (D : AliasNode) :
  In D l -> escalated (fold_left markDescendant l DS) (an_id D).
Proof.
  induction l as [|x l IH] using rev_ind; [intros []|].
  rewrite fold_left_app. cbn [fold_left].
  intros [Hin|[<-|[]]]%in_app_or.
  - apply markDescendant_preserves. by apply IH.
  - apply markDescendant_establishes.
Qed.

(** C6: after the last loop of [propagateTraits], for every alias node of
    the coverage and every strict descendant of it, the result stored for
    the descendant, unless it is [NoAccess], carries [Flow], [Anti] and
    [Output]. *)
Theorem C6_coverage_escalation (Coverage : list AliasNode)
    (DS : gmap positive AliasTrait) (N Descendant : AliasNode)
    (Itr : AliasTrait) :
  In N Coverage -> In Descendant (descendants N) ->
  markCoverage Coverage DS !! an_id Descendant = Some Itr ->
  is_ trait.NoAccess (dptr Itr) = false ->
  is_ trait.Flow (dptr Itr) = true /\ is_ trait.Anti (dptr Itr) = true /\
  is_ trait.Output (dptr Itr) = true.
Proof.
  intros HN HD. rewrite markCoverage_flat.
  apply fold_markDescendant.
  apply in_flat_map. by exists N.
Qed.

Lemma C6_coverage_escalation_witness :
  let DS : gmap positive AliasTrait :=
    {[2%positive := mkAliasTrait {[trait.Readonly]} [] [];
      3%positive := mkAliasTrait {[trait.NoAccess]} [] []]} in
  let Itr := mkAliasTrait
               {[trait.Output; trait.Anti; trait.Flow; trait.Readonly]}
               [] [] in
  In Sample.node1 [Sample.node1] /\
  In Sample.node2 (descendants Sample.node1) /\
  markCoverage [Sample.node1] DS !! an_id Sample.node2 = Some Itr /\
  is_ trait.NoAccess (dptr Itr) = false /\
  is_ trait.Flow (dptr Itr) = true /\ is_ trait.Anti (dptr Itr) = true /\
  is_ trait.Output (dptr Itr) = true.
Proof.
  intros DS Itr.
  assert (H1 : In Sample.node1 [Sample.node1]) by (left; reflexivity).
  assert (H2 : In Sample.node2 (descendants Sample.node1))
    by (left; reflexivity).
  assert (H3 : markCoverage [Sample.node1] DS !! an_id Sample.node2 = Some Itr)
    by (by vm_compute).
  assert (H4 : is_ trait.NoAccess (dptr Itr) = false) by (by vm_compute).
  split; [exact H1|]. split; [exact H2|]. split; [exact H3|].
  split; [exact H4|].
  exact (C6_coverage_escalation [Sample.node1] DS Sample.node1 Sample.node2
           Itr H1 H2 H3 H4).
Defined.

(** ** Result store *)

(** The narrowed combined trait is one of six codes. *)
Lemma combine_codes (C : TraitImp) :
  In (mId (combine C))
    [Readonly; tand Readonly AddressAccess; Shared; tand Shared AddressAccess;
     Dependency; tand Dependency AddressAccess].
Proof.
  destruct C as [c]. unfold combine, and_assign, get. cbn [mId].
  change (tnot AddressAccess) with 1. unfold tor.
  destruct (Z.eqb_spec (Z.lor c 1) Readonly) as [HR|_].
  { apply lor_1_cases in HR. destruct HR as [-> | ->]; vm_compute; tauto. }
  destruct (Z.eqb_spec (Z.lor c 1) Shared) as [HS|_].
  { apply lor_1_cases in HS. destruct HS as [-> | ->]; vm_compute; tauto. }
  change Dependency with 1.
  destruct (land_1_cases c) as [-> | ->]; vm_compute; tauto.
Qed.

(** The trait with which the combined trait is narrowed. *)
Lemma combine_narrows (C : TraitImp) :
  exists X, In X [Readonly; Shared; Dependency] /\
            combine C = and_assign C (mkTraitImp X).
Proof.
  unfold combine.
  destruct (_ =? Readonly); [exists Readonly; simpl; tauto|].
  destruct (_ =? Shared); [exists Shared|exists Dependency]; simpl; tauto.
Qed.

(** The narrowed combined trait is always decoded, as read-only, as
    read-only and shared, or as a dependence. *)
Lemma combine_decoded (C : TraitImp) (n : nat) (St : Statistics) :
  exists Dptr St',
    toDescriptor (combine C) n St = Some (Dptr, St') /\
    Dptr ⊆ {[trait.Readonly; trait.Shared; trait.Flow; trait.Anti;
             trait.Output; trait.AddressAccess]} /\
    (trait.Readonly ∈ Dptr \/
     (trait.Flow ∈ Dptr /\ trait.Anti ∈ Dptr /\ trait.Output ∈ Dptr)).
Proof.
  pose proof (combine_codes C) as HC.
  destruct (combine C) as [c]. cbn [mId] in HC. vm_compute in HC.
  repeat (destruct HC as [<-|HC];
          [eexists _, _; split; [reflexivity|]; unfold set;
           split; set_solver|]).
  destruct HC.
Qed.

Lemma is_set_ExplicitAccess (t : trait.t) (Dptr : gset trait.t) :
  t <> trait.ExplicitAccess ->
  is_ t (set trait.ExplicitAccess Dptr) = is_ t Dptr.
Proof.
  intros Hne. unfold is_, set. apply bool_decide_ext. set_solver.
Qed.

(** C10: where [storeResults] handles an alias node whose lists hold more
    than one memory location or some unknown access, the descriptor it
    stores for the node is the decoding of the combined trait of the loops
    narrowed with [Readonly], [Shared] or [Dependency], with
    [ExplicitAccess] added where the loops found an explicit access; it is
    read-only (possibly shared) or a dependence, and carries none of the
    private traits. *)
Theorem C10_combined_result (P : PrivateRecognitionPass)
    (Numbers : GraphNumbering) (R : DFRegion) (N : positive)
    (EA : gmap positive positive) (EU : gmap positive (positive * positive))
    (TL : TraitList) (UL : UnknownList)
    (H H' : gmap positive TraitImp) (DS DS' : gmap positive AliasTrait)
    (St St' : Statistics) :
  (1 < length TL)%nat \/ UL <> [] ->
  storeResults P Numbers R N EA EU (TL, UL) (H, DS, St) = Some (H', DS', St') ->
  exists (NodeTrait Loops : AliasTrait) (C : TraitImp) (X : Z)
         (St1 : Statistics) (Dptr : gset trait.t),
    fold_left (storeUnknown N EU) UL
      (fold_left (storeMemory P Numbers R N EA) TL
         (Some (H, St, TraitImp_default, mkAliasTrait ∅ [] [])))
      = Some (H', St1, C, Loops) /\
    In X [Readonly; Shared; Dependency] /\
    toDescriptor (and_assign C (mkTraitImp X)) (count Loops) St1
      = Some (Dptr, St') /\
    DS' !! N = Some NodeTrait /\
    dptr NodeTrait = (if is_ trait.ExplicitAccess (dptr Loops)
                      then set trait.ExplicitAccess Dptr else Dptr) /\
    (forall t, In t private_traits -> is_ t (dptr NodeTrait) = false) /\
    (is_ trait.Readonly (dptr NodeTrait) = true \/
     (is_ trait.Flow (dptr NodeTrait) = true /\
      is_ trait.Anti (dptr NodeTrait) = true /\
      is_ trait.Output (dptr NodeTrait) = true)).
Proof.
  intros Hmany Hrun. unfold storeResults in Hrun.
  destruct (bool_decide (is_Some (DS !! N))); [discriminate|].
  cbn [fst snd] in Hrun.
  assert (Hcombined :
    (s ← fold_left (storeMemory P Numbers R N EA) TL
           (Some (H, St, TraitImp_default, mkAliasTrait ∅ [] []));
     '(H, St, CombinedTrait, NodeTrait) ←
       fold_left (storeUnknown N EU) UL (Some s);
     '(Dptr, St) ← toDescriptor (combine CombinedTrait) (count NodeTrait) St;
     Some (H, <[N := mkAliasTrait
                       (if is_ trait.ExplicitAccess (dptr NodeTrait)
                        then set trait.ExplicitAccess Dptr else Dptr)
                       (memories NodeTrait) (unknowns NodeTrait)]> DS, St))
    = Some (H', DS', St')).
  { destruct TL as [|EMI [|EMI' TL]].
    - destruct Hmany as [Hlen|HUL]; [simpl in Hlen; lia|].
      by rewrite bool_decide_eq_false_2 in Hrun by exact HUL.
    - destruct Hmany as [Hlen|HUL]; [simpl in Hlen; lia|].
      by rewrite (bool_decide_eq_false_2 (UL = [])) in Hrun by exact HUL.
    - rewrite (bool_decide_eq_false_2 (EMI' :: TL = [])) in Hrun
        by discriminate.
      by rewrite andb_false_r in Hrun. }
  clear Hrun.
  destruct (fold_left (storeMemory P Numbers R N EA) TL _) as [s|] eqn:Hmem;
    [|discriminate].
  cbn [mbind option_bind] in Hcombined.
  destruct (fold_left (storeUnknown N EU) UL (Some s))
    as [[[[H1 St1] C] Loops]|] eqn:Hunk; [|discriminate].
  cbn [mbind option_bind] in Hcombined.
  destruct (combine_decoded C (count Loops) St1)
    as (Dptr & St2 & Hdec & Hsub & Hkind).
  rewrite Hdec in Hcombined. cbn [mbind option_bind] in Hcombined.
  injection Hcombined as <- <- <-.
  destruct (combine_narrows C) as (X & HX & HCX).
  eexists _, Loops, C, X, St1, Dptr.
  split; [reflexivity|]. split; [exact HX|].
  split; [by rewrite <- HCX|].
  split; [apply lookup_insert_eq|]. cbn [dptr].
  split; [reflexivity|].
  assert (Hview : forall t, t <> trait.ExplicitAccess ->
            is_ t (if is_ trait.ExplicitAccess (dptr Loops)
                   then set trait.ExplicitAccess Dptr else Dptr) = is_ t Dptr).
  { intros t Ht. destruct (is_ trait.ExplicitAccess (dptr Loops));
      [by apply is_set_ExplicitAccess|reflexivity]. }
  split.
  - intros t Ht. vm_compute in Ht.
    repeat (destruct Ht as [<-|Ht];
            [rewrite Hview by discriminate;
             apply bool_decide_eq_false; set_solver|]).
    destruct Ht.
  - rewrite !Hview by discriminate. unfold is_.
    destruct Hkind as [HR|(HF & HA & HO)]; [left|right; repeat split];
      by apply bool_decide_eq_true.
Qed.

Lemma C10_combined_result_witness :
  let P := Sample.pass (mkDefinitionInfo Sample.everything Sample.everything) in
  let TL : TraitList := [(Sample.EM_x, 1%positive)] in
  let UL : UnknownList := [(Sample.store_x, 2%positive)] in
  let H : gmap positive TraitImp :=
    {[1%positive := mkTraitImp Private; 2%positive := mkTraitImp Readonly]} in
  let EA : gmap positive positive := {[1%positive := 1%positive]} in
  exists (H' : gmap positive TraitImp) (DS' : gmap positive AliasTrait)
         (St' : Statistics) (NodeTrait : AliasTrait),
    ((1 < length TL)%nat \/ UL <> []) /\
    storeResults P Sample.numbers Sample.region 2 EA ∅ (TL, UL)
      (H, ∅, no_statistics) = Some (H', DS', St') /\
    DS' !! 2%positive = Some NodeTrait /\
    (forall t, In t private_traits -> is_ t (dptr NodeTrait) = false) /\
    (is_ trait.Readonly (dptr NodeTrait) = true \/
     (is_ trait.Flow (dptr NodeTrait) = true /\
      is_ trait.Anti (dptr NodeTrait) = true /\
      is_ trait.Output (dptr NodeTrait) = true)).
Proof.
  intros P TL UL H EA.
  assert (Hmany : (1 < length TL)%nat \/ UL <> []) by (right; discriminate).
  destruct (storeResults P Sample.numbers Sample.region 2 EA ∅ (TL, UL)
              (H, ∅, no_statistics)) as [[[H' DS'] St']|] eqn:Hrun;
    [|vm_compute in Hrun; discriminate].
  destruct (C10_combined_result P Sample.numbers Sample.region 2 EA ∅ TL UL
              H H' ∅ DS' no_statistics St' Hmany Hrun)
    as (NodeTrait & _ & _ & _ & _ & _ & _ & _ & _ & HN & _ & Hpriv & Hkind).
  exists H', DS', St', NodeTrait.
  split; [exact Hmany|]. split; [reflexivity|]. split; [exact HN|].
  split; [exact Hpriv|exact Hkind].
Defined.

(** ** Explicit access classifier *)

(** C2 (defect of the code): a location defined in the loop, never used in
    it, not live after it and with no recorded dependence must get the
    label [Private].  [resolveAccesses] narrows its trait with
    [Private & Shared], the code [0111001]; [toDescriptor] adds the two low
    bits and switches on [0111011], which is [FirstPrivate], then adds
    [Shared]: the label [Private] is never set.  On the sample loop the
    result of the node is first private, shared and explicitly accessed,
    whereas the same location with a recorded dependence gets [Private]. *)
Theorem C2_private_shared_decoded_first_private :
  let Defs := mkDefinitionInfo Sample.nothing Sample.nothing in
  let Dead := mkLiveSet Sample.nothing in
  and_assign TraitImp_default (mkTraitImp (tand Private Shared))
    = mkTraitImp (_b "0111001") /\
  (fst <$> toDescriptor (mkTraitImp (_b "0111001")) 1 no_statistics)
    = Some {[trait.FirstPrivate; trait.Shared]} /\
  (dptr <$> Sample.run Defs Dead ∅)
    = Some {[trait.FirstPrivate; trait.Shared; trait.ExplicitAccess]} /\
  (is_ trait.Private <$> (dptr <$> Sample.run Defs Dead ∅)) = Some false /\
  (dptr <$> Sample.run Defs Dead {[1%positive := DependenceImp_default]})
    = Some {[trait.Private; trait.ExplicitAccess]}.
Proof. by vm_compute. Qed.

(** * Further properties of the code *)

(** ** Complement and narrowing *)

Lemma tnot_spec (x n : Z) :
  0 <= n -> Z.testbit (tnot x) n = negb (Z.testbit x n) && (n <? 7).
Proof.
  intros Hn. unfold tnot.
  change NoAccess with (Z.ones 7).
  rewrite Z.land_spec.
  destruct (Z.ltb_spec n 7) as [Hlt|Hge].
  - rewrite Z.ones_spec_low, !andb_true_r by lia.
    rewrite Z.mod_pow2_bits_low by (unfold ULLONG_WIDTH; lia).
    apply Z.lnot_spec. exact Hn.
  - rewrite Z.ones_spec_high by lia. by rewrite !andb_false_r.
Qed.

(** X1: the complement [operator~] of any code stays within the seven bits
    of [NoAccess]; complementing twice gives the code masked with
    [NoAccess]; a code and its complement have no common bit, and together
    with the masked code the complement gives [NoAccess]. *)
Theorem X1_tnot_complement (x : Z) :
  0 <= tnot x <= NoAccess /\
  tnot (tnot x) = tand x NoAccess /\
  tand x (tnot x) = 0 /\
  tor (tand x NoAccess) (tnot x) = NoAccess.
Proof.
  split; [|split; [|split]].
  - unfold tnot. change NoAccess with (Z.ones 7) at 1 2.
    rewrite Z.land_ones by lia. change NoAccess with 127.
    pose proof (Z.mod_pos_bound (Z.lnot x mod 2 ^ ULLONG_WIDTH) (2 ^ 7)
                  ltac:(lia)). lia.
  - apply Z.bits_inj'. intros n Hn. unfold tand.
    rewrite !tnot_spec, Z.land_spec by exact Hn.
    change NoAccess with (Z.ones 7).
    destruct (Z.ltb_spec n 7).
    + rewrite Z.ones_spec_low by lia. by destruct (Z.testbit x n).
    + rewrite Z.ones_spec_high by lia. by rewrite !andb_false_r.
  - apply Z.bits_inj'. intros n Hn. unfold tand.
    rewrite Z.land_spec, tnot_spec, Z.bits_0 by exact Hn.
    by destruct (Z.testbit x n), (n <? 7).
  - apply Z.bits_inj'. intros n Hn. unfold tand, tor.
    rewrite Z.lor_spec, Z.land_spec, tnot_spec by exact Hn.
    change NoAccess with (Z.ones 7).
    destruct (Z.ltb_spec n 7).
    + rewrite Z.ones_spec_low by lia. by destruct (Z.testbit x n).
    + rewrite Z.ones_spec_high by lia. by rewrite !andb_false_r.
Qed.

Lemma and_assign_comm_r (T W1 W2 : TraitImp) :
  and_assign (and_assign T W1) W2 = and_assign (and_assign T W2) W1.
Proof.
  unfold and_assign. cbn [mId]. f_equal.
  by rewrite <- !Z.land_assoc, (Z.land_comm (mId W1)).
Qed.

Lemma narrows_cons_out (Withs : list TraitImp) (T W : TraitImp) :
  narrows Withs (and_assign T W) = and_assign (narrows Withs T) W.
Proof.
  revert T. induction Withs as [|W' Withs IH]; intros T; [reflexivity|].
  cbn [narrows fold_left]. fold (narrows Withs).
  by rewrite and_assign_comm_r, IH.
Qed.

(** X2: the order of a sequence of narrowings [operator&=] of a trait is
    irrelevant, and narrowing once more with a trait of the sequence changes
    nothing. *)
Theorem X2_narrows_order_irrelevant (Withs Withs' : list TraitImp)
    (T W : TraitImp) :
  Permutation Withs Withs' ->
  narrows Withs T = narrows Withs' T /\
  (In W Withs -> and_assign (narrows Withs T) W = narrows Withs T).
Proof.
  intros Hperm. split.
  - revert T. induction Hperm as [|x l l' _ IH|x y l|l l' l'' _ IH1 _ IH2];
      intros T.
    + reflexivity.
    + cbn [narrows fold_left]. apply IH.
    + cbn [narrows fold_left]. by rewrite and_assign_comm_r.
    + by rewrite IH1, IH2.
  - clear Hperm. revert T.
    induction Withs as [|W' Withs IH]; intros T; [intros []|].
    intros [->|Hin].
    + cbn [narrows fold_left]. fold (narrows Withs).
      rewrite narrows_cons_out.
      unfold and_assign. cbn [mId]. f_equal.
      by rewrite <- Z.land_assoc, Z.land_diag.
    + cbn [narrows fold_left]. fold (narrows Withs). by apply IH.
Qed.

Lemma narrows_order_irrelevant_witness :
  Permutation [mkTraitImp Readonly; mkTraitImp LastPrivate]
    [mkTraitImp LastPrivate; mkTraitImp Readonly] /\
  In (mkTraitImp Readonly) [mkTraitImp Readonly; mkTraitImp LastPrivate] /\
  narrows [mkTraitImp Readonly; mkTraitImp LastPrivate] TraitImp_default =
  narrows [mkTraitImp LastPrivate; mkTraitImp Readonly] TraitImp_default /\
  and_assign
    (narrows [mkTraitImp Readonly; mkTraitImp LastPrivate] TraitImp_default)
    (mkTraitImp Readonly) =
  narrows [mkTraitImp Readonly; mkTraitImp LastPrivate] TraitImp_default.
Proof.
  assert (Hp : Permutation [mkTraitImp Readonly; mkTraitImp LastPrivate]
                 [mkTraitImp LastPrivate; mkTraitImp Readonly])
    by apply perm_swap.
  assert (Hin : In (mkTraitImp Readonly)
                  [mkTraitImp Readonly; mkTraitImp LastPrivate])
    by (left; reflexivity).
  split; [exact Hp|]. split; [exact Hin|].
  destruct (X2_narrows_order_irrelevant _ _ TraitImp_default
              (mkTraitImp Readonly) Hp) as [H1 H2].
  split; [exact H1|exact (H2 Hin)].
Defined.

(** ** Decoding *)

Lemma decoded_codes_decoded (c : Z) (n : nat) (St : Statistics) :
  In c decoded_codes -> is_Some (toDescriptor (mkTraitImp c) n St).
Proof.
  intros Hc. vm_compute in Hc.
  repeat (destruct Hc as [<-|Hc]; [by eexists|]). destruct Hc.
Qed.

Lemma decoded_codes_narrowed (c w : Z) :
  In c decoded_codes -> In w TraitId_enumerators ->
  In (Z.land c w) decoded_codes.
Proof.
  intros Hc Hw. vm_compute in Hc, Hw.
  repeat (destruct Hc as [<-|Hc]; [|]); try (destruct Hc);
    (repeat (destruct Hw as [<-|Hw]; [vm_compute; tauto|]); destruct Hw).
Qed.

Lemma narrows_decoded_codes (Withs : list TraitImp) (T : TraitImp) :
  Forall (fun W => In (mId W) TraitId_enumerators) Withs ->
  In (mId T) decoded_codes ->
  In (mId (narrows Withs T)) decoded_codes.
Proof.
  intros HW. revert T.
  induction HW as [|W Withs HWe _ IH]; intros T HT; [exact HT|].
  cbn [narrows fold_left]. apply IH.
  unfold and_assign. cbn [mId]. by apply decoded_codes_narrowed.
Qed.

(** X3: a trait which starts as the default trait or as an enumerator of
    [TraitId] and is narrowed any number of times with enumerators is
    decoded by [toDescriptor]: the [switch] never reaches
    [llvm_unreachable]. *)
Theorem X3_narrowed_trait_is_decoded (Withs : list TraitImp) (T : TraitImp)
    (n : nat) (St : Statistics) :
  Forall (fun W => In (mId W) TraitId_enumerators) Withs ->
  T = TraitImp_default \/ In (mId T) TraitId_enumerators ->
  is_Some (toDescriptor (narrows Withs T) n St).
Proof.
  intros HW HT.
  assert (HT' : In (mId T) decoded_codes).
  { destruct HT as [->|HT]; [vm_compute; tauto|].
    destruct T as [t]. cbn [mId] in *. vm_compute in HT.
    repeat (destruct HT as [<-|HT]; [vm_compute; tauto|]). destruct HT. }
  pose proof (narrows_decoded_codes Withs T HW HT') as Hin.
  destruct (narrows Withs T) as [c]. by apply decoded_codes_decoded.
Qed.

Lemma narrowed_trait_is_decoded_witness :
  Forall (fun W => In (mId W) TraitId_enumerators)
    [mkTraitImp LastPrivate; mkTraitImp Shared; mkTraitImp AddressAccess] /\
  is_Some (toDescriptor
             (narrows [mkTraitImp LastPrivate; mkTraitImp Shared;
                       mkTraitImp AddressAccess] TraitImp_default)
             1 no_statistics).
Proof.
  assert (H : Forall (fun W => In (mId W) TraitId_enumerators)
                [mkTraitImp LastPrivate; mkTraitImp Shared;
                 mkTraitImp AddressAccess]).
  { repeat constructor; vm_compute; tauto. }
  split; [exact H|].
  exact (X3_narrowed_trait_is_decoded _ TraitImp_default 1 no_statistics H
           (or_introl eq_refl)).
Defined.

Ltac try_entry base counters :=
  exists base, counters;
  split; [vm_compute; tauto|split; [vm_compute; reflexivity|reflexivity]].

Ltac walk_switch H tbl :=
  lazymatch type of H with
  | (if ?b then _ else _) = _ =>
      lazymatch tbl with
      | (?bs, ?cs) :: ?rest =>
          destruct b;
          [injection H as <- <-; unfold set; try_entry bs cs
          |walk_switch H rest]
      end
  | None = _ => discriminate H
  end.

Lemma toDescriptor_inv (T : TraitImp) (n : nat) (St St' : Statistics)
    (D : gset trait.t) :
  toDescriptor T n St = Some (D, St') ->
  let aa := Z.land (mId T) 1 =? 0 in
  let sh := Z.land (mId T) 2 =? 0 in
  let D0 : gset trait.t := if aa then {[trait.AddressAccess]} else ∅ in
  let S0 := if aa then add NumAddressAccess n St else St in
  (Z.lor (mId T) 1 = 1 /\
   D = {[trait.Flow; trait.Anti; trait.Output]} ∪ D0 /\
   St' = add NumDeps n S0) \/
  (Z.lor (mId T) 1 <> 1 /\
   exists base counters,
     In (base, counters) decode_table /\
     D = list_to_set base ∪ D0 ∪ (if sh then {[trait.Shared]} else ∅) /\
     St' = (if sh then add NumShared n else id)
             (fold_right (fun c => add c n) S0 counters)).
Proof.
  destruct T as [t]. unfold toDescriptor.
  change (tnot AddressAccess) with 1.
  change (tnot (tor (tnot Readonly) Shared)) with 2.
  unfold tand, tor, get. cbn [mId].
  intros H. cbv zeta.
  destruct (Z.land t 1 =? 0) eqn:Haa;
  (destruct (Z.eqb_spec (Z.lor t 1) Dependency) as [Hdep|Hdep];
   [ left; injection H as <- <-; split; [exact Hdep|];
     split; [unfold set; by vm_compute|reflexivity]
   | right; split; [exact Hdep|];
     destruct (Z.land t 2 =? 0) eqn:Hsh;
     let tbl := eval cbv [decode_table] in decode_table in
     walk_switch H tbl ]).
Qed.

Ltac table_cases H :=
  vm_compute in H;
  repeat (destruct H as [H|H]; [injection H as <- <-|]); [..|destruct H].

(** X4: a decoded descriptor holds [AddressAccess] exactly where the code
    has no bit outside [AddressAccess], and holds [Shared] exactly where the
    code has no bit of [~(~Readonly | Shared)] and is not decoded as a
    dependence. *)
Theorem X4_decoded_access_flags (T : TraitImp) (n : nat) (St St' : Statistics)
    (D : gset trait.t) :
  toDescriptor T n St = Some (D, St') ->
  (is_ trait.AddressAccess D = true <->
   tand (mId T) (tnot AddressAccess) = 0) /\
  (is_ trait.Shared D = true <->
   tand (mId T) (tnot (tor (tnot Readonly) Shared)) = 0 /\
   tor (mId T) (tnot AddressAccess) <> Dependency).
Proof.
  intros H. apply toDescriptor_inv in H.
  change (tnot AddressAccess) with 1.
  change (tnot (tor (tnot Readonly) Shared)) with 2.
  change Dependency with 1. unfold tand, tor. cbv zeta in H.
  destruct (Z.eqb_spec (Z.land (mId T) 1) 0) as [Haa|Haa];
    destruct (Z.eqb_spec (Z.land (mId T) 2) 0) as [Hsh|Hsh];
    (destruct H as [(Hdep & -> & _)|(Hdep & base & counters & Htab & -> & _)];
     [|table_cases Htab]);
    (split; (split; [intros Hin; try done; exfalso; revert Hin; by vm_compute
                    |intros Hc; try (by vm_compute); tauto])).
Qed.

Lemma decoded_access_flags_witness :
  exists (D : gset trait.t) (St' : Statistics),
    toDescriptor (mkTraitImp (tand Shared AddressAccess)) 1 no_statistics
      = Some (D, St') /\
    (is_ trait.AddressAccess D = true <->
     tand (tand Shared AddressAccess) (tnot AddressAccess) = 0) /\
    (is_ trait.Shared D = true <->
     tand (tand Shared AddressAccess) (tnot (tor (tnot Readonly) Shared)) = 0 /\
     tor (tand Shared AddressAccess) (tnot AddressAccess) <> Dependency).
Proof.
  destruct (toDescriptor (mkTraitImp (tand Shared AddressAccess)) 1
              no_statistics) as [[D St']|] eqn:H;
    [|vm_compute in H; discriminate].
  exists D, St'. split; [reflexivity|].
  exact (X4_decoded_access_flags _ _ _ _ _ H).
Defined.





(** ** Dependence descriptors, continued *)

Lemma DependenceImp_ext (D D' : DependenceImp) :
  mDptr D = mDptr D' ->
  (forall k, tget k (mDists D) = tget k (mDists D')) ->
  (forall k, tget k (mFlags D) = tget k (mFlags D')) ->
  D = D'.
Proof.
  destruct D as [p [d1 d2 d3] [f1 f2 f3]], D' as [p' [e1 e2 e3] [g1 g2 g3]].
  cbn [mDptr mDists mFlags]. intros -> Hd Hf.
  pose proof (Hd dtrait.Flow) as H1. pose proof (Hd dtrait.Anti) as H2.
  pose proof (Hd dtrait.Output) as H3. pose proof (Hf dtrait.Flow) as H4.
  pose proof (Hf dtrait.Anti) as H5. pose proof (Hf dtrait.Output) as H6.
  cbn in H1, H2, H3, H4, H5, H6. by subst.
Qed.

Lemma land_lor_zero (x y u : Z) :
  Z.land (Z.lor x y) u = 0 <-> Z.land x u = 0 /\ Z.land y u = 0.
Proof. by rewrite Z.land_lor_distr_l, Z.lor_eq_0_iff. Qed.

(** X7: [update] adds the named traits to the descriptor and removes none;
    for a kind which is not named it keeps the flags and the distances, and
    for a named kind it joins the flags with the given flag, to which
    [UnknownDistance] is added where the distance is null. *)
Theorem X7_update_frame (F : FlagEnum) (Dptr : gset dtrait.t) (Flag : Z)
    (Dist : SCEV) (D : DependenceImp) (k : dtrait.t) :
  mDptr (update F Dptr Flag Dist D) = Dptr ∪ mDptr D /\
  (k ∉ Dptr ->
   tget k (mFlags (update F Dptr Flag Dist D)) = tget k (mFlags D) /\
   tget k (mDists (update F Dptr Flag Dist D)) = tget k (mDists D)) /\
  (k ∈ Dptr ->
   tget k (mFlags (update F Dptr Flag Dist D)) =
   Z.lor (tget k (mFlags D))
     (if Dist is None then Z.lor Flag (UnknownDistance F) else Flag)).
Proof.
  split; [apply update_mDptr|]. split.
  - intros Hk. rewrite update_mFlags, update_mDists.
    by rewrite !bool_decide_eq_false_2 by exact Hk.
  - intros Hk. rewrite update_mFlags.
    by rewrite bool_decide_eq_true_2 by exact Hk.
Qed.

Lemma X7_update_frame_witness :
  let D := update Sample.flags {[dtrait.Anti]} 2 (Some 7%positive)
             DependenceImp_default in
  (dtrait.Anti ∉ ({[dtrait.Flow]} : gset dtrait.t)) /\
  (dtrait.Flow ∈ ({[dtrait.Flow]} : gset dtrait.t)) /\
  mDptr (update Sample.flags {[dtrait.Flow]} 1 None D)
    = {[dtrait.Flow]} ∪ mDptr D /\
  tget dtrait.Anti (mFlags (update Sample.flags {[dtrait.Flow]} 1 None D))
    = tget dtrait.Anti (mFlags D) /\
  tget dtrait.Anti (mDists (update Sample.flags {[dtrait.Flow]} 1 None D))
    = tget dtrait.Anti (mDists D) /\
  tget dtrait.Flow (mFlags (update Sample.flags {[dtrait.Flow]} 1 None D))
    = Z.lor (tget dtrait.Flow (mFlags D))
        (Z.lor 1 (UnknownDistance Sample.flags)).
Proof.
  intros D.
  assert (H1 : dtrait.Anti ∉ ({[dtrait.Flow]} : gset dtrait.t))
    by (by apply not_elem_of_singleton).
  assert (H2 : dtrait.Flow ∈ ({[dtrait.Flow]} : gset dtrait.t))
    by (by apply elem_of_singleton).
  split; [exact H1|]. split; [exact H2|].
  destruct (X7_update_frame Sample.flags {[dtrait.Flow]} 1 None D dtrait.Anti)
    as (Ha & Hb & _).
  destruct (X7_update_frame Sample.flags {[dtrait.Flow]} 1 None D dtrait.Flow)
    as (_ & _ & Hc).
  split; [exact Ha|]. split; [exact (proj1 (Hb H1))|].
  split; [exact (proj2 (Hb H1))|exact (Hc H2)].
Defined.

(** X8: two updates of a dependence descriptor commute: the order in which
    the dependences of a location are recorded does not change its
    descriptor. *)
Theorem X8_update_commutes (F : FlagEnum) (A B : gset dtrait.t)
    (FlagA FlagB : Z) (DistA DistB : SCEV) (D : DependenceImp) :
  update F A FlagA DistA (update F B FlagB DistB D) =
  update F B FlagB DistB (update F A FlagA DistA D).
Proof.
  apply DependenceImp_ext.
  - rewrite !update_mDptr. set_solver.
  - intros k. rewrite !update_mDists, !update_mFlags.
    repeat case_bool_decide; try reflexivity.
    repeat match goal with
           | |- context [?x =? 0] => destruct (Z.eqb_spec x 0)
           end;
      repeat match goal with
             | H : Z.land (Z.lor _ _) _ = 0 |- _ =>
                 apply land_lor_zero in H; destruct H
             | H : Z.land (Z.lor _ _) _ <> 0 |- _ =>
                 rewrite !land_lor_zero in H
             end;
      try tauto; try reflexivity; set_solver.
  - intros k. rewrite !update_mFlags.
    repeat case_bool_decide; try reflexivity.
    by rewrite <- !Z.lor_assoc, (Z.lor_comm (recorded_flag F FlagB DistB)).
Qed.

(** X9: recording the same dependence twice is the same as recording it
    once. *)
Theorem X9_update_idempotent (F : FlagEnum) (A : gset dtrait.t) (Flag : Z)
    (Dist : SCEV) (D : DependenceImp) :
  update F A Flag Dist (update F A Flag Dist D) = update F A Flag Dist D.
Proof.
  apply DependenceImp_ext.
  - rewrite !update_mDptr. set_solver.
  - intros k. rewrite !update_mDists, !update_mFlags.
    case_bool_decide; [|reflexivity].
    rewrite <- Z.lor_assoc, Z.lor_diag.
    destruct (_ =? 0); [set_solver|reflexivity].
  - intros k. rewrite !update_mFlags.
    case_bool_decide; [|reflexivity].
    by rewrite <- Z.lor_assoc, Z.lor_diag.
Qed.

(** X10: as long as every update comes with a known distance and with a
    flag without [UnknownDistance], a kind whose flags do not include
    [UnknownDistance] keeps them so and collects the distances of all the
    updates which name it. *)
Theorem X10_known_distances_accumulate (F : FlagEnum)
    (us : list (gset dtrait.t * Z * SCEV)) (D : DependenceImp)
    (k : dtrait.t) :
  Forall (fun u => u.2 <> None /\ Z.land u.1.2 (UnknownDistance F) = 0) us ->
  Z.land (tget k (mFlags D)) (UnknownDistance F) = 0 ->
  Z.land (tget k (mFlags (updates F us D))) (UnknownDistance F) = 0 /\
  tget k (mDists (updates F us D)) =
  list_to_set (map snd (List.filter (fun u => bool_decide (k ∈ u.1.1)) us))
    ∪ tget k (mDists D).
Proof.
  intros Hus. revert D.
  induction Hus as [|[[Dptr Flag] Dist] us [HDist HFlag] _ IH]; intros D HD.
  - split; [exact HD|]. cbn. set_solver.
  - change (updates F ((Dptr, Flag, Dist) :: us) D)
      with (updates F us (update F Dptr Flag Dist D)).
    cbn [fst snd] in HDist, HFlag.
    assert (Hrec : recorded_flag F Flag Dist = Flag)
      by (unfold recorded_flag; by destruct Dist).
    destruct (IH (update F Dptr Flag Dist D)) as [IH1 IH2].
    { rewrite update_mFlags. case_bool_decide; [|exact HD].
      apply land_lor_zero. by rewrite Hrec. }
    split; [exact IH1|]. rewrite IH2, update_mDists, Hrec.
    cbn [List.filter fst snd]. case_bool_decide; [|reflexivity].
    assert (Hz : Z.land (Z.lor (tget k (mFlags D)) Flag) (UnknownDistance F)
                 = 0) by (by apply land_lor_zero).
    rewrite Hz. cbn [Z.eqb map list_to_set snd]. set_solver.
Qed.

Lemma X10_known_distances_accumulate_witness :
  let us : list (gset dtrait.t * Z * SCEV) :=
    [({[dtrait.Flow]}, 2, Some 5%positive);
     ({[dtrait.Anti]}, 2, Some 6%positive);
     ({[dtrait.Flow; dtrait.Anti]}, 3, Some 7%positive)] in
  Forall (fun u => u.2 <> None /\
                   Z.land u.1.2 (UnknownDistance Sample.flags) = 0) us /\
  Z.land (tget dtrait.Flow (mFlags DependenceImp_default))
    (UnknownDistance Sample.flags) = 0 /\
  Z.land (tget dtrait.Flow
            (mFlags (updates Sample.flags us DependenceImp_default)))
    (UnknownDistance Sample.flags) = 0 /\
  tget dtrait.Flow (mDists (updates Sample.flags us DependenceImp_default)) =
  list_to_set
    (map snd (List.filter (fun u => bool_decide (dtrait.Flow ∈ u.1.1)) us))
    ∪ tget dtrait.Flow (mDists DependenceImp_default).
Proof.
  intros us.
  assert (H1 : Forall (fun u => u.2 <> None /\
                 Z.land u.1.2 (UnknownDistance Sample.flags) = 0) us).
  { repeat constructor; discriminate. }
  assert (H2 : Z.land (tget dtrait.Flow (mFlags DependenceImp_default))
                 (UnknownDistance Sample.flags) = 0) by reflexivity.
  split; [exact H1|]. split; [exact H2|].
  exact (X10_known_distances_accumulate Sample.flags us DependenceImp_default
           dtrait.Flow H1 H2).
Defined.

(** ** Dependence collector, continued *)

Lemma deps_grow_refl (F : FlagEnum) (Deps : gmap positive DependenceImp) :
  deps_grow F Deps Deps.
Proof. intros i D HD. exists D. by repeat split. Qed.

Lemma deps_grow_trans (F : FlagEnum)
    (Deps1 Deps2 Deps3 : gmap positive DependenceImp) :
  deps_grow F Deps1 Deps2 -> deps_grow F Deps2 Deps3 -> deps_grow F Deps1 Deps3.
Proof.
  intros H12 H23 i D HD.
  destruct (H12 i D HD) as (D2 & HD2 & Hsub2 & Hfl2).
  destruct (H23 i D2 HD2) as (D3 & HD3 & Hsub3 & Hfl3).
  exists D3. split; [exact HD3|]. split; [set_solver|].
  intros k Hk. by apply Hfl3, Hfl2.
Qed.

Lemma updateAt_well_formed (F : FlagEnum) (EM : EstimateMemory)
    (Dptr : gset dtrait.t) (Flag : Z) (Dist : SCEV)
    (Deps : gmap positive DependenceImp) :
  well_formed_deps F Deps ->
  well_formed_deps F (updateAt F EM Dptr Flag Dist Deps).
Proof.
  intros HDeps i D. rewrite updateAt_lookup.
  destruct (decide (em_id EM = i)) as [_|_]; [|apply HDeps].
  intros [= <-]. apply update_invariant.
  destruct (Deps !! i) as [Old|] eqn:Hold; cbn.
  - by apply (HDeps i).
  - intros k Hk. by destruct k.
Qed.

Lemma updateAt_grows (F : FlagEnum) (EM : EstimateMemory)
    (Dptr : gset dtrait.t) (Flag : Z) (Dist : SCEV)
    (Deps : gmap positive DependenceImp) :
  deps_grow F Deps (updateAt F EM Dptr Flag Dist Deps).
Proof.
  intros i D HD. rewrite updateAt_lookup.
  destruct (decide (em_id EM = i)) as [_|_].
  - eexists. split; [reflexivity|]. rewrite HD. cbn.
    split; [rewrite update_mDptr; set_solver|].
    intros k Hk. rewrite update_mFlags.
    case_bool_decide; [by apply land_lor_nonzero_l|exact Hk].
  - exists D. by repeat split.
Qed.

Lemma fold_collector_step {X : Type} (F : FlagEnum)
    (f : option (gmap positive DependenceImp) -> X ->
         option (gmap positive DependenceImp))
    (l : list X) :
  collector_step F f ->
  fold_left f l None = None /\
  forall Deps Deps', fold_left f l (Some Deps) = Some Deps' ->
    (well_formed_deps F Deps -> well_formed_deps F Deps') /\
    deps_grow F Deps Deps'.
Proof.
  intros Hf.
  assert (Hnone : forall l, fold_left f l None = None).
  { intros l'. induction l' as [|x l' IH]; [reflexivity|].
    cbn [fold_left]. by rewrite (proj1 (Hf x)). }
  split; [apply Hnone|].
  induction l as [|x l IH]; intros Deps Deps' Hrun.
  - injection Hrun as <-. split; [done|apply deps_grow_refl].
  - cbn [fold_left] in Hrun.
    destruct (f (Some Deps) x) as [Deps1|] eqn:Hstep;
      [|by rewrite Hnone in Hrun].
    destruct (proj2 (Hf x) Deps Deps1 Hstep) as [Hwf1 Hgrow1].
    destruct (IH Deps1 Deps' Hrun) as [Hwf2 Hgrow2].
    split; [auto|by eapply deps_grow_trans].
Qed.

Lemma insertDependence_step (F : FlagEnum) (P : PrivateRecognitionPass)
    (Dep : Dependence) (Src Dst : MemoryLocation) (Flag : Z) (L : Loop)
    (Deps Deps' : gmap positive DependenceImp) :
  insertDependence F P Dep Src Dst Flag L Deps = Some Deps' ->
  (well_formed_deps F Deps -> well_formed_deps F Deps') /\
  deps_grow F Deps Deps'.
Proof.
  unfold insertDependence.
  destruct (bool_decide _).
  { intros [= <-]. split; [done|apply deps_grow_refl]. }
  destruct (negb _); [discriminate|].
  destruct (find P Src) as [EMs|]; [|discriminate].
  destruct (find P Dst) as [EMd|]; [|discriminate].
  cbn [mbind option_bind]. intros [= <-]. split.
  - intros Hwf. by do 2 apply updateAt_well_formed.
  - eapply deps_grow_trans; apply updateAt_grows.
Qed.

Lemma insertUnknownDep_step (F : FlagEnum) (P : PrivateRecognitionPass)
    (Src Dst : Instruction) (Dptr : gset dtrait.t) (Flag : Z) :
  collector_step F (insertUnknownDep F P Src Dst Dptr Flag).
Proof.
  intros Loc. split; [reflexivity|].
  intros Deps Deps'. unfold insertUnknownDep. cbn [mbind option_bind].
  repeat (destruct (bool_decide _);
          [intros [= <-]; split; [done|apply deps_grow_refl]|]).
  destruct (find P Loc) as [EM|]; [|discriminate].
  cbn [mbind option_bind]. intros [= <-].
  split; [apply updateAt_well_formed|apply updateAt_grows].
Qed.

Lemma collectUnknown_step (F : FlagEnum) (P : PrivateRecognitionPass)
    (Src : Instruction) (HeaderAccess' : Z) :
  collector_step F (collectUnknown F P Src HeaderAccess').
Proof.
  intros Dst. unfold collectUnknown.
  destruct (negb (mayReadOrWriteMemory Dst)).
  { split; [reflexivity|]. intros Deps Deps' [= <-].
    split; [done|apply deps_grow_refl]. }
  cbv zeta.
  set (ins := insertUnknownDep F P Src Dst _ _).
  pose proof (insertUnknownDep_step F P Src Dst
                {[dtrait.Flow; dtrait.Anti; dtrait.Output]}
                (Z.lor (Z.lor (Z.lor HeaderAccess' (May F)) (UnknownDistance F))
                   (if negb (ImmutableCallSite Src) &&
                       negb (ImmutableCallSite Dst)
                    then CallCause F else UnknownCause F))) as Hins.
  fold ins in Hins.
  destruct (fold_collector_step F ins (for_each_memory P Src) Hins)
    as [Hn1 Hs1].
  destruct (fold_collector_step F ins (for_each_memory P Dst) Hins)
    as [Hn2 Hs2].
  split; [by rewrite Hn1, Hn2|].
  intros Deps Deps' Hrun.
  destruct (fold_left ins (for_each_memory P Src) (Some Deps))
    as [Deps1|] eqn:H1; [|by rewrite Hn2 in Hrun].
  destruct (Hs1 Deps Deps1 H1) as [Hwf1 Hg1].
  destruct (Hs2 Deps1 Deps' Hrun) as [Hwf2 Hg2].
  split; [auto|by eapply deps_grow_trans].
Qed.

Lemma collectKnown_step (F : FlagEnum) (P : PrivateRecognitionPass)
    (L : Loop) (SrcI : Instruction) (Src : MemoryLocation)
    (HeaderAccess' : Z) :
  collector_step F (collectKnown F P L SrcI Src HeaderAccess').
Proof.
  intros DstI. split; [reflexivity|].
  intros Deps Deps'. unfold collectKnown. cbn [mbind option_bind].
  destruct (negb (bool_decide _));
    [intros [= <-]; split; [done|apply deps_grow_refl]|].
  destruct (depends P SrcI DstI) as [D|];
    [|intros [= <-]; split; [done|apply deps_grow_refl]].
  destruct (_ && _);
    [intros [= <-]; split; [done|apply deps_grow_refl]|].
  apply insertDependence_step.
Qed.

Lemma collectFrom_step (F : FlagEnum) (P : PrivateRecognitionPass)
    (L : Loop) (LoopInsts : list Instruction) :
  collectFrom F P L LoopInsts None = None /\
  forall Deps Deps', collectFrom F P L LoopInsts (Some Deps) = Some Deps' ->
    (well_formed_deps F Deps -> well_formed_deps F Deps') /\
    deps_grow F Deps Deps'.
Proof.
  induction LoopInsts as [|SrcI Rest [IHn IHs]].
  { split; [reflexivity|]. intros Deps Deps' [= <-].
    split; [done|apply deps_grow_refl]. }
  cbn [collectFrom].
  set (HA := if bool_decide (getParent SrcI = getHeader L)
             then HeaderAccess F else No F).
  destruct (fold_collector_step F (collectUnknown F P SrcI HA)
              (SrcI :: Rest) (collectUnknown_step F P SrcI HA)) as [Hun Hus].
  destruct (fold_collector_step F
              (collectKnown F P L SrcI (getLoadOrStoreLocation SrcI) HA)
              (SrcI :: Rest)
              (collectKnown_step F P L SrcI (getLoadOrStoreLocation SrcI) HA))
    as [Hkn Hks].
  split.
  - destruct (negb (mayReadOrWriteMemory SrcI)); [exact IHn|].
    destruct (negb (bool_decide _)); [by rewrite Hun|by rewrite Hkn].
  - intros Deps Deps' Hrun.
    destruct (negb (mayReadOrWriteMemory SrcI)); [by apply IHs|].
    destruct (negb (bool_decide _)).
    + destruct (fold_left (collectUnknown F P SrcI HA) (SrcI :: Rest)
                  (Some Deps)) as [Deps1|] eqn:H1;
        [|by rewrite IHn in Hrun].
      destruct (Hus Deps Deps1 H1) as [Hwf1 Hg1].
      destruct (IHs Deps1 Deps' Hrun) as [Hwf2 Hg2].
      split; [auto|by eapply deps_grow_trans].
    + destruct (fold_left
                  (collectKnown F P L SrcI (getLoadOrStoreLocation SrcI) HA)
                  (SrcI :: Rest) (Some Deps)) as [Deps1|] eqn:H1;
        [|by rewrite IHn in Hrun].
      destruct (Hks Deps Deps1 H1) as [Hwf1 Hg1].
      destruct (IHs Deps1 Deps' Hrun) as [Hwf2 Hg2].
      split; [auto|by eapply deps_grow_trans].
Qed.

(** X11: where [insertDependence] records a dependence whose direction is
    not [EQ], both endpoints have an estimate memory location, these two
    locations are in the map afterwards, and no other location of the map
    is added, removed or changed. *)
Theorem X11_insertDependence_frame (F : FlagEnum) (P : PrivateRecognitionPass)
    (Dep : Dependence) (Src Dst : MemoryLocation) (Flag : Z) (L : Loop)
    (Deps Deps' : gmap positive DependenceImp) :
  getDirection Dep (getLoopDepth L) <> DVEntry.EQ ->
  insertDependence F P Dep Src Dst Flag L Deps = Some Deps' ->
  exists EMs EMd,
    find P Src = Some EMs /\ find P Dst = Some EMd /\
    dom Deps' = {[em_id EMs; em_id EMd]} ∪ dom Deps /\
    forall i, i <> em_id EMs -> i <> em_id EMd -> Deps' !! i = Deps !! i.
Proof.
  intros HEQ. unfold insertDependence.
  rewrite bool_decide_eq_false_2 by exact HEQ.
  destruct (negb _); [discriminate|].
  destruct (find P Src) as [EMs|]; [|discriminate].
  destruct (find P Dst) as [EMd|]; [|discriminate].
  cbn [mbind option_bind]. intros [= <-].
  exists EMs, EMd. split; [reflexivity|]. split; [reflexivity|]. split.
  - unfold updateAt. rewrite !dom_insert_L. set_solver.
  - intros i Hs Hd. rewrite !updateAt_lookup.
    by rewrite !decide_False by congruence.
Qed.

Lemma X11_insertDependence_frame_witness :
  let Dep := mkDependence false true false (fun _ => DVEntry.LT)
               (fun _ => Some 3%positive) in
  let P := Sample.pass (mkDefinitionInfo Sample.nothing Sample.nothing) in
  let Deps : gmap positive DependenceImp :=
    {[9%positive := DependenceImp_default]} in
  exists Deps',
    getDirection Dep (getLoopDepth Sample.loop) <> DVEntry.EQ /\
    insertDependence Sample.flags P Dep Sample.x Sample.x 0 Sample.loop Deps
      = Some Deps' /\
    exists EMs EMd,
      find P Sample.x = Some EMs /\ find P Sample.x = Some EMd /\
      dom Deps' = {[em_id EMs; em_id EMd]} ∪ dom Deps /\
      forall i, i <> em_id EMs -> i <> em_id EMd -> Deps' !! i = Deps !! i.
Proof.
  intros Dep P Deps.
  assert (H1 : getDirection Dep (getLoopDepth Sample.loop) <> DVEntry.EQ)
    by (simpl; discriminate).
  destruct (insertDependence Sample.flags P Dep Sample.x Sample.x 0
              Sample.loop Deps) as [Deps'|] eqn:Hrun;
    [|vm_compute in Hrun; discriminate].
  exists Deps'. split; [exact H1|]. split; [reflexivity|].
  exact (X11_insertDependence_frame Sample.flags P Dep Sample.x Sample.x 0
           Sample.loop Deps Deps' H1 Hrun).
Defined.

(** X12: where [collectDependencies] succeeds, every location which had a
    descriptor still has one, with at least the traits it had, and if all
    descriptors kept the invariant that unknown distance means no recorded
    distance, all descriptors of the result keep it. *)
Theorem X12_collectDependencies_grows (F : FlagEnum)
    (P : PrivateRecognitionPass) (L : Loop)
    (Deps Deps' : gmap positive DependenceImp) :
  collectDependencies F P L Deps = Some Deps' ->
  (forall i D, Deps !! i = Some D ->
     exists D', Deps' !! i = Some D' /\ mDptr D ⊆ mDptr D') /\
  ((forall i D, Deps !! i = Some D -> unknown_has_no_distance F D) ->
   forall i D', Deps' !! i = Some D' -> unknown_has_no_distance F D').
Proof.
  intros Hrun.
  destruct (proj2 (collectFrom_step F P L (concat (getBlocks L))) Deps Deps'
              Hrun) as [Hwf Hgrow].
  split; [|exact Hwf].
  intros i D HD. destruct (Hgrow i D HD) as (D' & HD' & Hsub & _). eauto.
Qed.

Lemma X12_collectDependencies_grows_witness :
  let Dep := mkDependence false true false (fun _ => DVEntry.LT)
               (fun _ => Some 3%positive) in
  let P := Sample.pass_with (Some Dep)
             (mkDefinitionInfo Sample.nothing Sample.nothing) in
  let Deps : gmap positive DependenceImp :=
    {[1%positive := update Sample.flags {[dtrait.Output]} 0 None
                      DependenceImp_default]} in
  exists Deps',
    collectDependencies Sample.flags P Sample.loop Deps = Some Deps' /\
    (forall i D, Deps !! i = Some D ->
       exists D', Deps' !! i = Some D' /\ mDptr D ⊆ mDptr D') /\
    ((forall i D, Deps !! i = Some D ->
        unknown_has_no_distance Sample.flags D) ->
     forall i D', Deps' !! i = Some D' ->
       unknown_has_no_distance Sample.flags D').
Proof.
  intros Dep P Deps.
  destruct (collectDependencies Sample.flags P Sample.loop Deps)
    as [Deps'|] eqn:Hrun; [|vm_compute in Hrun; discriminate].
  exists Deps'. split; [reflexivity|].
  exact (X12_collectDependencies_grows Sample.flags P Sample.loop Deps Deps'
           Hrun).
Defined.

(** X13: for a loop all of whose memory instructions are unordered loads
    and stores, and for which every answer of the oracle is a dependence of
    direction [EQ] or an input dependence, [collectDependencies] succeeds
    and returns the dependence map as it was. *)
Theorem X13_collectDependencies_nothing_recorded (F : FlagEnum)
    (P : PrivateRecognitionPass) (L : Loop)
    (Deps : gmap positive DependenceImp) :
  (forall I, In I (concat (getBlocks L)) -> mayReadOrWriteMemory I = true ->
     is_Some (Ptr (getLoadOrStoreLocation I))) ->
  (forall SrcI DstI D, depends P SrcI DstI = Some D ->
     getDirection D (getLoopDepth L) = DVEntry.EQ \/
     (isFlow D = false /\ isAnti D = false /\ isOutput D = false)) ->
  collectDependencies F P L Deps = Some Deps.
Proof. apply collectDependencies_discards. Qed.

Lemma X13_collectDependencies_nothing_recorded_witness :
  let Dep := mkDependence false false false (fun _ => DVEntry.LT)
               (fun _ => None) in
  let P := Sample.pass_with (Some Dep)
             (mkDefinitionInfo Sample.nothing Sample.nothing) in
  (forall I, In I (concat (getBlocks Sample.loop)) ->
     mayReadOrWriteMemory I = true ->
     is_Some (Ptr (getLoadOrStoreLocation I))) /\
  (forall SrcI DstI D, depends P SrcI DstI = Some D ->
     getDirection D (getLoopDepth Sample.loop) = DVEntry.EQ \/
     (isFlow D = false /\ isAnti D = false /\ isOutput D = false)) /\
  collectDependencies Sample.flags P Sample.loop ∅ = Some ∅.
Proof.
  intros Dep P.
  assert (H1 : forall I, In I (concat (getBlocks Sample.loop)) ->
            mayReadOrWriteMemory I = true ->
            is_Some (Ptr (getLoadOrStoreLocation I))).
  { intros I [<-|[]] _. by eexists. }
  assert (H2 : forall SrcI DstI D, depends P SrcI DstI = Some D ->
            getDirection D (getLoopDepth Sample.loop) = DVEntry.EQ \/
            (isFlow D = false /\ isAnti D = false /\ isOutput D = false)).
  { intros SrcI DstI D [= <-]. right. by repeat split. }
  split; [exact H1|]. split; [exact H2|].
  exact (X13_collectDependencies_nothing_recorded Sample.flags P Sample.loop
           ∅ H1 H2).
Defined.

Lemma fold_insertUnknownDep_records (F : FlagEnum)
    (P : PrivateRecognitionPass) (Src Dst : Instruction)
    (Dptr : gset dtrait.t) (Flag : Z) (Loc : MemoryLocation)
    (l : list MemoryLocation) (Deps Deps' : gmap positive DependenceImp) :
  UnknownDistance F <> 0 ->
  getModRefInfo P Src Loc <> MRI_NoModRef ->
  getModRefInfo P Dst Loc <> MRI_NoModRef ->
  In Loc l ->
  fold_left (insertUnknownDep F P Src Dst Dptr Flag) l (Some Deps)
    = Some Deps' ->
  exists EM D', find P Loc = Some EM /\ Deps' !! em_id EM = Some D' /\
    Dptr ⊆ mDptr D' /\
    forall k, k ∈ Dptr ->
      Z.land (tget k (mFlags D')) (UnknownDistance F) <> 0.
Proof.
  intros HU HSrc HDst.
  pose proof (insertUnknownDep_step F P Src Dst Dptr Flag) as Hins.
  revert Deps. induction l as [|x l IH]; intros Deps [] Hrun.
  - subst x. cbn [fold_left] in Hrun.
    destruct (insertUnknownDep F P Src Dst Dptr Flag (Some Deps) Loc)
      as [Deps1|] eqn:Hstep;
      [|by rewrite (proj1 (fold_collector_step F _ l Hins)) in Hrun].
    unfold insertUnknownDep in Hstep. cbn [mbind option_bind] in Hstep.
    rewrite !bool_decide_eq_false_2 in Hstep by assumption.
    destruct (find P Loc) as [EM|]; [|discriminate].
    cbn [mbind option_bind] in Hstep. injection Hstep as <-.
    destruct (proj2 (fold_collector_step F _ l Hins) _ _ Hrun) as [_ Hgrow].
    destruct (Hgrow (em_id EM)
                (update F Dptr Flag None
                   (default DependenceImp_default (Deps !! em_id EM))))
      as (D' & HD' & Hsub & Hfl).
    { rewrite updateAt_lookup. by rewrite decide_True. }
    exists EM, D'. split; [reflexivity|]. split; [exact HD'|].
    split; [rewrite update_mDptr in Hsub; set_solver|].
    intros k Hk. apply Hfl. by apply update_null_distance.
  - cbn [fold_left] in Hrun.
    destruct (insertUnknownDep F P Src Dst Dptr Flag (Some Deps) x)
      as [Deps1|] eqn:Hstep;
      [|by rewrite (proj1 (fold_collector_step F _ l Hins)) in Hrun].
    by apply (IH Deps1).
Qed.

(** X14: for a pair whose source is not a load or a store, every location
    which [for_each_memory] reports for one of the two instructions and
    which both of them may access ends with a descriptor carrying [Flow],
    [Anti] and [Output], each with [UnknownDistance] and no recorded
    distance (the enumerator being a non-zero mask and the map being well
    formed before). *)
Theorem X14_unknown_access_recorded (F : FlagEnum)
    (P : PrivateRecognitionPass) (Src Dst : Instruction) (HeaderAccess' : Z)
    (Loc : MemoryLocation) (Deps Deps' : gmap positive DependenceImp) :
  UnknownDistance F <> 0 ->
  well_formed_deps F Deps ->
  mayReadOrWriteMemory Dst = true ->
  In Loc (for_each_memory P Src ++ for_each_memory P Dst) ->
  getModRefInfo P Src Loc <> MRI_NoModRef ->
  getModRefInfo P Dst Loc <> MRI_NoModRef ->
  collectUnknown F P Src HeaderAccess' (Some Deps) Dst = Some Deps' ->
  exists EM D', find P Loc = Some EM /\ Deps' !! em_id EM = Some D' /\
    mDptr D' = {[dtrait.Flow; dtrait.Anti; dtrait.Output]} /\
    forall k, Z.land (tget k (mFlags D')) (UnknownDistance F) <> 0 /\
              tget k (mDists D') = ∅.
Proof.
  intros HU Hwf HDst Hin HMs HMd Hrun.
  destruct (proj2 (collectUnknown_step F P Src HeaderAccess' Dst)
              Deps Deps' Hrun) as [Hwf' _].
  specialize (Hwf' Hwf).
  unfold collectUnknown in Hrun. rewrite HDst in Hrun.
  cbn [negb] in Hrun. cbv zeta in Hrun.
  set (Dptr := ({[dtrait.Flow; dtrait.Anti; dtrait.Output]} : gset dtrait.t))
    in *.
  set (Flag := Z.lor _ _) in Hrun.
  pose proof (insertUnknownDep_step F P Src Dst Dptr Flag) as Hins.
  destruct (fold_left (insertUnknownDep F P Src Dst Dptr Flag)
              (for_each_memory P Src) (Some Deps)) as [Deps1|] eqn:H1;
    [|by rewrite (proj1 (fold_collector_step F _ _ Hins)) in Hrun].
  assert (Hall : forall k : dtrait.t, k ∈ Dptr)
    by (intros []; unfold Dptr; set_solver).
  assert (Hfound : exists EM D', find P Loc = Some EM /\
            Deps' !! em_id EM = Some D' /\ Dptr ⊆ mDptr D' /\
            forall k, k ∈ Dptr ->
              Z.land (tget k (mFlags D')) (UnknownDistance F) <> 0).
  { apply in_app_or in Hin. destruct Hin as [Hin|Hin].
    - destruct (fold_insertUnknownDep_records F P Src Dst Dptr Flag Loc
                  _ Deps Deps1 HU HMs HMd Hin H1)
        as (EM & D1 & HEM & HD1 & Hsub1 & Hfl1).
      destruct (proj2 (fold_collector_step F _ _ Hins) _ _ Hrun)
        as [_ Hgrow].
      destruct (Hgrow _ _ HD1) as (D' & HD' & Hsub & Hfl).
      exists EM, D'. split; [exact HEM|]. split; [exact HD'|].
      split; [set_solver|]. intros k Hk. by apply Hfl, Hfl1.
    - exact (fold_insertUnknownDep_records F P Src Dst Dptr Flag Loc
               _ Deps1 Deps' HU HMs HMd Hin Hrun). }
  destruct Hfound as (EM & D' & HEM & HD' & Hsub & Hfl).
  exists EM, D'. split; [exact HEM|]. split; [exact HD'|].
  split; [apply set_eq; intros k; specialize (Hall k); set_solver|].
  intros k. split; [by apply Hfl|].
  apply (Hwf' _ _ HD'). by apply Hfl.
Qed.

Lemma X14_unknown_access_recorded_witness :
  let P := Sample.pass (mkDefinitionInfo Sample.nothing Sample.nothing) in
  let call := mkInstruction 2 CallInst true false Sample.x 1 in
  exists Deps',
    UnknownDistance Sample.flags <> 0 /\
    well_formed_deps Sample.flags ∅ /\
    mayReadOrWriteMemory call = true /\
    In Sample.x (for_each_memory P call ++ for_each_memory P call) /\
    getModRefInfo P call Sample.x <> MRI_NoModRef /\
    collectUnknown Sample.flags P call 0 (Some ∅) call = Some Deps' /\
    exists EM D', find P Sample.x = Some EM /\
      Deps' !! em_id EM = Some D' /\
      mDptr D' = {[dtrait.Flow; dtrait.Anti; dtrait.Output]} /\
      forall k, Z.land (tget k (mFlags D')) (UnknownDistance Sample.flags)
                  <> 0 /\
                tget k (mDists D') = ∅.
Proof.
  intros P call.
  assert (H1 : UnknownDistance Sample.flags <> 0) by (vm_compute; discriminate).
  assert (H2 : well_formed_deps Sample.flags ∅)
    by (intros i D HD; by rewrite lookup_empty in HD).
  assert (H3 : mayReadOrWriteMemory call = true) by reflexivity.
  assert (H4 : In Sample.x (for_each_memory P call ++ for_each_memory P call))
    by (left; reflexivity).
  assert (H5 : getModRefInfo P call Sample.x <> MRI_NoModRef)
    by (simpl; discriminate).
  destruct (collectUnknown Sample.flags P call 0 (Some ∅) call)
    as [Deps'|] eqn:Hrun; [|vm_compute in Hrun; discriminate].
  exists Deps'. split; [exact H1|]. split; [exact H2|]. split; [exact H3|].
  split; [exact H4|]. split; [exact H5|]. split; [reflexivity|].
  exact (X14_unknown_access_recorded Sample.flags P call call 0 Sample.x
           ∅ Deps' H1 H2 H3 H4 H5 H5 Hrun).
Defined.

(** ** Explicit access classifier, continued *)

Lemma fold_option_step {S X : Type} (f : option S -> X -> option S)
    (Inv : S -> Prop) (R : S -> S -> Prop) :
  (forall x, f None x = None) ->
  (forall s, R s s) ->
  (forall s1 s2 s3, R s1 s2 -> R s2 s3 -> R s1 s3) ->
  (forall s x s', f (Some s) x = Some s' -> Inv s -> Inv s' /\ R s s') ->
  forall l s s', fold_left f l (Some s) = Some s' -> Inv s ->
    Inv s' /\ R s s'.
Proof.
  intros Hnone Hrefl Htrans Hstep.
  assert (Hn : forall l, fold_left f l None = None).
  { intros l. induction l as [|x l IH]; [reflexivity|].
    cbn [fold_left]. by rewrite Hnone. }
  induction l as [|x l IH]; intros s s' Hrun Hinv.
  - injection Hrun as <-. by split.
  - cbn [fold_left] in Hrun.
    destruct (f (Some s) x) as [s1|] eqn:H1; [|by rewrite Hn in Hrun].
    destruct (Hstep s x s1 H1 Hinv) as [Hinv1 HR1].
    destruct (IH s1 s' Hrun Hinv1) as [Hinv' HR'].
    split; [exact Hinv'|by eapply Htrans].
Qed.

Lemma narrowed_store_refl (H : gmap positive TraitImp) : narrowed_store H H.
Proof. intros a T HT. exists T. split; [exact HT|apply Z.land_diag]. Qed.

Lemma narrowed_store_trans (H1 H2 H3 : gmap positive TraitImp) :
  narrowed_store H1 H2 -> narrowed_store H2 H3 -> narrowed_store H1 H3.
Proof.
  intros H12 H23 a T HT.
  destruct (H12 a T HT) as (T2 & HT2 & Hland2).
  destruct (H23 a T2 HT2) as (T3 & HT3 & Hland3).
  exists T3. split; [exact HT3|].
  by rewrite <- Hland3, <- Z.land_assoc, Hland2.
Qed.

Lemma narrowed_store_alloc (H : gmap positive TraitImp) (a : positive)
    (T : TraitImp) :
  H !! a = None -> narrowed_store H (<[a := T]> H).
Proof.
  intros Ha b Tb Hb. exists Tb.
  rewrite lookup_insert_ne by congruence. split; [exact Hb|apply Z.land_diag].
Qed.

Lemma narrowed_store_narrow (H : gmap positive TraitImp) (a : positive)
    (T With : TraitImp) :
  H !! a = Some T -> narrowed_store H (<[a := and_assign T With]> H).
Proof.
  intros Ha b Tb Hb. destruct (decide (a = b)) as [<-|Hne].
  - rewrite lookup_insert_eq. eexists. split; [reflexivity|].
    rewrite Ha in Hb. injection Hb as <-. unfold and_assign. cbn [mId].
    by rewrite (Z.land_comm (mId T)), <- Z.land_assoc, Z.land_diag.
  - exists Tb. rewrite lookup_insert_ne by exact Hne.
    split; [exact Hb|apply Z.land_diag].
Qed.

Lemma extended_working_refl (W : Working) : extended_working W W.
Proof.
  split; [apply narrowed_store_refl|]. split; [done|].
  intros n Traits HT. exists Traits. by repeat split.
Qed.

Lemma extended_working_trans (W1 W2 W3 : Working) :
  extended_working W1 W2 -> extended_working W2 W3 -> extended_working W1 W3.
Proof.
  intros (Hs12 & He12 & Hn12) (Hs23 & He23 & Hn23).
  split; [by eapply narrowed_store_trans|]. split; [by auto|].
  intros n Traits HT.
  destruct (Hn12 n Traits HT) as (T2 & HT2 & Hm2 & Hu2).
  destruct (Hn23 n T2 HT2) as (T3 & HT3 & Hm3 & Hu3).
  exists T3. split; [exact HT3|]. split; auto.
Qed.

Lemma has_clear_bit_and_l (T With : TraitImp) :
  has_clear_bit T -> has_clear_bit (and_assign T With).
Proof.
  intros (n & Hn & Hbit). exists n. split; [exact Hn|].
  unfold and_assign. cbn [mId]. by rewrite Z.land_spec, Hbit.
Qed.

Lemma has_clear_bit_and_r (T With : TraitImp) :
  has_clear_bit With -> has_clear_bit (and_assign T With).
Proof.
  intros (n & Hn & Hbit). exists n. split; [exact Hn|].
  unfold and_assign. cbn [mId]. by rewrite Z.land_spec, Hbit, andb_false_r.
Qed.

Lemma has_clear_bit_narrowed (T T' : TraitImp) :
  Z.land (mId T') (mId T) = mId T' -> has_clear_bit T -> has_clear_bit T'.
Proof.
  intros Hland (n & Hn & Hbit). exists n. split; [exact Hn|].
  by rewrite <- Hland, Z.land_spec, Hbit, andb_false_r.
Qed.

Lemma has_clear_bit_accessed (H : gmap positive TraitImp) (a : positive)
    (T : TraitImp) :
  H !! a = Some T -> has_clear_bit T -> isAccessed H a = Some true.
Proof.
  intros Ha (n & Hn & Hbit). unfold isAccessed. rewrite Ha.
  cbn [mbind option_bind]. f_equal. apply negb_true_iff, Z.eqb_neq.
  intros Heq. apply (f_equal (fun z => Z.testbit z n)) in Heq.
  unfold tor, get in Heq. change (tnot AddressAccess) with 1 in Heq.
  change NoAccess with (Z.ones 7) in Heq.
  rewrite Z.lor_spec, Hbit, Z.ones_spec_low in Heq by lia.
  rewrite (Z.bits_above_log2 1 n) in Heq by (simpl; lia). discriminate.
Qed.

Lemma working_alloc (W : Working) (Base : EstimateMemory)
    (Itr : TraitList * UnknownList) :
  well_formed_working W ->
  ExplicitAccesses W !! em_id Base = None ->
  NodeTraits W !! getAliasNode Base = Some Itr ->
  let a := fresh (dom (store W)) in
  let W1 := mkWorking (<[a := TraitImp_default]> (store W))
              (<[em_id Base := a]> (ExplicitAccesses W))
              (ExplicitUnknowns W)
              (<[getAliasNode Base := ((Base, a) :: Itr.1, Itr.2)]>
                 (NodeTraits W)) in
  well_formed_working W1 /\ extended_working W W1.
Proof.
  intros (Hea & Heu & Hnt) Hnew Hnode a W1.
  assert (Ha : store W !! a = None).
  { apply not_elem_of_dom. apply is_fresh. }
  assert (Hkeep : forall b, is_Some (store W !! b) ->
            is_Some (<[a := TraitImp_default]> (store W) !! b)).
  { intros b Hb. rewrite lookup_insert. case_decide; [by eexists|exact Hb]. }
  split; [split; [|split]|split; [|split]]; cbn [store ExplicitAccesses
    ExplicitUnknowns NodeTraits W1].
  - intros em b. rewrite lookup_insert.
    destruct (decide (em_id Base = em)) as [<-|Hne].
    + intros [= <-]. split; [rewrite lookup_insert_eq; by eexists|].
      eexists Base, _. rewrite lookup_insert_eq.
      split; [reflexivity|]. split; [by left|reflexivity].
    + intros Hb. destruct (Hea em b Hb) as (Hsome & EM & Traits & HT & Hin & Hid).
      split; [by apply Hkeep|].
      destruct (decide (getAliasNode Base = getAliasNode EM)) as [Heq|Hneq].
      * eexists EM, _. rewrite Heq, lookup_insert_eq.
        split; [reflexivity|]. split; [|exact Hid]. right.
        rewrite Heq in Hnode.
        by injection (eq_trans (eq_sym Hnode) HT) as ->.
      * exists EM, Traits. rewrite lookup_insert_ne by exact Hneq. by repeat split.
  - intros i N b Hb. apply Hkeep. by eapply Heu.
  - intros n Traits. rewrite lookup_insert.
    destruct (decide (getAliasNode Base = n)) as [<-|Hne].
    + intros [= <-]. destruct (Hnt _ _ Hnode) as [Hm Hu]. split.
      * intros e [<-|He]; [rewrite lookup_insert_eq; by eexists|].
        by apply Hkeep, Hm.
      * intros u Hu'. by apply Hkeep, Hu.
    + intros HT. destruct (Hnt _ _ HT) as [Hm Hu].
      split; intros e He; apply Hkeep; auto.
  - by apply narrowed_store_alloc.
  - intros em b Hb. rewrite lookup_insert_ne; [exact Hb|congruence].
  - intros n Traits HT.
    destruct (decide (getAliasNode Base = n)) as [<-|Hne].
    + eexists. rewrite lookup_insert_eq. split; [reflexivity|].
      injection (eq_trans (eq_sym Hnode) HT) as ->.
      split; [intros e He; by right|done].
    + exists Traits. rewrite lookup_insert_ne by exact Hne. by repeat split.
Qed.

Lemma working_narrow (W : Working) (a : positive) (T With : TraitImp) :
  well_formed_working W ->
  store W !! a = Some T ->
  let W' := mkWorking (<[a := and_assign T With]> (store W))
              (ExplicitAccesses W) (ExplicitUnknowns W) (NodeTraits W) in
  well_formed_working W' /\ extended_working W W'.
Proof.
  intros (Hea & Heu & Hnt) Ha W'.
  assert (Hkeep : forall b, is_Some (store W !! b) ->
            is_Some (<[a := and_assign T With]> (store W) !! b)).
  { intros b Hb. rewrite lookup_insert. case_decide; [by eexists|exact Hb]. }
  split; [split; [|split]|split; [|split]]; cbn [store ExplicitAccesses
    ExplicitUnknowns NodeTraits W'].
  - intros em b Hb. destruct (Hea em b Hb) as [Hsome Hlist].
    split; [by apply Hkeep|exact Hlist].
  - intros i N b Hb. apply Hkeep. by eapply Heu.
  - intros n Traits HT. destruct (Hnt _ _ HT) as [Hm Hu].
    split; intros e He; apply Hkeep; auto.
  - by apply narrowed_store_narrow.
  - done.
  - intros n Traits HT. exists Traits. by repeat split.
Qed.

(** The narrowing which ends the body of the loop of [resolveAccesses]. *)
Ltac resolveAccess_narrowing Hrun W1 Base a Curr Hwf1 Hext1 Hea1 HCurr :=
  match type of Hrun with
  | Some (mkWorking (<[a := ?V]> _) _ _ _) = _ =>
      let HV := fresh "HV" in
      assert (HV : exists With, V = and_assign Curr With /\ has_clear_bit With);
      [ repeat match goal with
               | |- context [if ?b then _ else _] => destruct b
               end;
        (eexists; split; [reflexivity|]);
        first [ by (exists 1; split; [lia|reflexivity])
              | by (exists 2; split; [lia|reflexivity])
              | by (exists 6; split; [lia|reflexivity]) ]
      | let With := fresh "With" in
        let Hclear := fresh "Hclear" in
        destruct HV as (With & HV & Hclear); rewrite HV in Hrun;
        injection Hrun as <-;
        destruct (working_narrow W1 a Curr With Hwf1 HCurr) as [Hwf' Hext'];
        split; [split; [exact Hwf'
                       |exact (extended_working_trans _ _ _ Hext1 Hext')]|];
        exists Base, a, (and_assign Curr With); split; [reflexivity|];
        split; [exact Hea1|];
        split; [apply lookup_insert_eq
               |exact (has_clear_bit_and_r Curr With Hclear)] ]
  end.

Lemma resolveAccess_step (P : PrivateRecognitionPass)
    (LatchDefs ExitingDefs : DefinitionInfo) (DefUse : DefUseSet)
    (LS : LiveSet) (Deps : gmap positive DependenceImp) (W W' : Working)
    (Loc : MemoryLocation) :
  resolveAccess P LatchDefs ExitingDefs DefUse LS Deps (Some W) Loc
    = Some W' ->
  well_formed_working W ->
  (well_formed_working W' /\ extended_working W W') /\
  exists Base a T, find P Loc = Some Base /\
    ExplicitAccesses W' !! em_id Base = Some a /\
    store W' !! a = Some T /\ has_clear_bit T.
Proof.
  intros Hrun Hwf. unfold resolveAccess in Hrun.
  cbn [mbind option_bind] in Hrun.
  destruct (find P Loc) as [Base|]; [|discriminate].
  cbn [mbind option_bind] in Hrun.
  destruct (ExplicitAccesses W !! em_id Base) as [a|] eqn:Hea.
  - destruct (proj1 Hwf _ _ Hea) as [[Curr HCurr] _].
    cbn [mbind option_bind] in Hrun. rewrite Hea in Hrun.
    cbn [mbind option_bind] in Hrun. rewrite HCurr in Hrun.
    cbn [mbind option_bind] in Hrun.
    pose proof (extended_working_refl W) as Hext.
    resolveAccess_narrowing Hrun W Base a Curr Hwf Hext Hea HCurr.
  - destruct (NodeTraits W !! getAliasNode Base) as [Itr|] eqn:Hnode;
      [|discriminate].
    destruct (working_alloc W Base Itr Hwf Hea Hnode) as [Hwf1 Hext1].
    cbn [mbind option_bind ExplicitAccesses store ExplicitUnknowns NodeTraits]
      in Hrun.
    rewrite (lookup_insert_eq (ExplicitAccesses W)) in Hrun.
    cbn [mbind option_bind] in Hrun.
    rewrite (lookup_insert_eq (store W)) in Hrun.
    cbn [mbind option_bind] in Hrun.
    set (a := fresh (dom (store W))) in *.
    set (W1 := mkWorking (<[a := TraitImp_default]> (store W))
                 (<[em_id Base := a]> (ExplicitAccesses W))
                 (ExplicitUnknowns W)
                 (<[getAliasNode Base := ((Base, a) :: Itr.1, Itr.2)]>
                    (NodeTraits W))) in *.
    assert (Hea1 : ExplicitAccesses W1 !! em_id Base = Some a)
      by apply lookup_insert_eq.
    assert (HCurr : store W1 !! a = Some TraitImp_default)
      by apply lookup_insert_eq.
    resolveAccess_narrowing Hrun W1 Base a TraitImp_default Hwf1 Hext1 Hea1
      HCurr.
Qed.

Lemma resolveUnknown_step (P : PrivateRecognitionPass) (W W' : Working)
    (Unknown : Instruction) :
  resolveUnknown P (Some W) Unknown = Some W' ->
  well_formed_working W ->
  well_formed_working W' /\ extended_working W W'.
Proof.
  intros Hrun (Hea & Heu & Hnt). unfold resolveUnknown in Hrun.
  cbn [mbind option_bind] in Hrun.
  destruct (findUnknown P Unknown) as [N|]; [|discriminate].
  cbn [mbind option_bind] in Hrun.
  destruct (NodeTraits W !! N) as [Itr|] eqn:Hnode; [|discriminate].
  cbn [mbind option_bind] in Hrun. injection Hrun as <-.
  set (a := fresh (dom (store W))).
  set (T := mkTraitImp _).
  assert (Ha : store W !! a = None).
  { apply not_elem_of_dom. apply is_fresh. }
  assert (Hkeep : forall b, is_Some (store W !! b) ->
            is_Some (<[a := T]> (store W) !! b)).
  { intros b Hb. rewrite lookup_insert. case_decide; [by eexists|exact Hb]. }
  split; [split; [|split]|split; [|split]]; cbn [store ExplicitAccesses
    ExplicitUnknowns NodeTraits].
  - intros em b Hb. destruct (Hea em b Hb) as (Hsome & EM & Traits & HT & Hin & Hid).
    split; [by apply Hkeep|].
    destruct (decide (N = getAliasNode EM)) as [Heq|Hneq].
    + eexists EM, _. rewrite <- Heq, lookup_insert_eq.
      split; [reflexivity|]. split; [|exact Hid].
      rewrite <- Heq in HT.
      by injection (eq_trans (eq_sym Hnode) HT) as ->.
    + exists EM, Traits. rewrite lookup_insert_ne by exact Hneq. by repeat split.
  - intros i N' b.
    destruct (ExplicitUnknowns W !! inst_id Unknown) eqn:Hold.
    + intros Hb. apply Hkeep. by eapply Heu.
    + rewrite lookup_insert. case_decide.
      * intros [= <- <-]. rewrite lookup_insert_eq. by eexists.
      * intros Hb. apply Hkeep. by eapply Heu.
  - intros n Traits. rewrite lookup_insert.
    destruct (decide (N = n)) as [<-|Hne].
    + intros [= <-]. destruct (Hnt _ _ Hnode) as [Hm Hu]. split.
      * intros e He. by apply Hkeep, Hm.
      * intros u [<-|Hu']; [rewrite lookup_insert_eq; by eexists|].
        by apply Hkeep, Hu.
    + intros HT. destruct (Hnt _ _ HT) as [Hm Hu].
      split; intros e He; apply Hkeep; auto.
  - by apply narrowed_store_alloc.
  - done.
  - intros n Traits HT.
    destruct (decide (N = n)) as [<-|Hne].
    + eexists. rewrite lookup_insert_eq. split; [reflexivity|].
      injection (eq_trans (eq_sym Hnode) HT) as ->.
      split; [done|intros u Hu; by right].
    + exists Traits. rewrite lookup_insert_ne by exact Hne. by repeat split.
Qed.

Lemma fold_left_None {S X : Type} (f : option S -> X -> option S)
    (l : list X) :
  (forall x, f None x = None) -> fold_left f l None = None.
Proof.
  intros Hnone. induction l as [|x l IH]; [reflexivity|].
  cbn [fold_left]. by rewrite Hnone.
Qed.

Lemma fold_resolveAccess (P : PrivateRecognitionPass)
    (LatchDefs ExitingDefs : DefinitionInfo) (DefUse : DefUseSet)
    (LS : LiveSet) (Deps : gmap positive DependenceImp)
    (l : list MemoryLocation) (W W' : Working) :
  fold_left (resolveAccess P LatchDefs ExitingDefs DefUse LS Deps) l (Some W)
    = Some W' ->
  well_formed_working W ->
  well_formed_working W' /\ extended_working W W'.
Proof.
  apply (fold_option_step _ well_formed_working extended_working).
  - reflexivity.
  - apply extended_working_refl.
  - apply extended_working_trans.
  - intros s x s' Hstep Hwf.
    exact (proj1 (resolveAccess_step _ _ _ _ _ _ _ _ _ Hstep Hwf)).
Qed.

Lemma fold_resolveUnknown (P : PrivateRecognitionPass)
    (l : list Instruction) (W W' : Working) :
  fold_left (resolveUnknown P) l (Some W) = Some W' ->
  well_formed_working W ->
  well_formed_working W' /\ extended_working W W'.
Proof.
  apply (fold_option_step _ well_formed_working extended_working).
  - reflexivity.
  - apply extended_working_refl.
  - apply extended_working_trans.
  - intros s x s'. apply resolveUnknown_step.
Qed.

Lemma resolveAccesses_inv (P : PrivateRecognitionPass)
    (LatchNode ExitNode : option positive) (DefUse : DefUseSet)
    (LS : LiveSet) (Deps : gmap positive DependenceImp) (W W' : Working) :
  resolveAccesses P LatchNode ExitNode DefUse LS Deps W = Some W' ->
  exists LatchDefs ExitingDefs W1,
    fold_left (resolveAccess P LatchDefs ExitingDefs DefUse LS Deps)
      (getExplicitAccesses DefUse) (Some W) = Some W1 /\
    fold_left (resolveUnknown P) (getExplicitUnknowns DefUse) (Some W1)
      = Some W'.
Proof.
  unfold resolveAccesses.
  destruct LatchNode as [ln|]; [|discriminate].
  destruct ExitNode as [en|]; [|discriminate].
  cbn [mbind option_bind].
  destruct (mDefInfo P ln) as [LatchDefs|]; [|discriminate].
  destruct (mDefInfo P en) as [ExitingDefs|]; [|discriminate].
  cbn [mbind option_bind]. intros Hrun.
  exists LatchDefs, ExitingDefs.
  destruct (fold_left (resolveAccess P LatchDefs ExitingDefs DefUse LS Deps)
              (getExplicitAccesses DefUse) (Some W)) as [W1|] eqn:H1.
  - by exists W1.
  - by rewrite fold_left_None in Hrun.
Qed.

(** X15: [resolveAccesses] keeps the working state well formed (every
    pointer it holds points to a cell, every explicit access is listed with
    its cell in the trait list of its alias node) and only extends it: a
    trait which existed is only narrowed, an explicit access keeps its
    cell, and no entry leaves a list. *)
Theorem X15_resolveAccesses_extends (P : PrivateRecognitionPass)
    (LatchNode ExitNode : option positive) (DefUse : DefUseSet)
    (LS : LiveSet) (Deps : gmap positive DependenceImp) (W W' : Working) :
  well_formed_working W ->
  resolveAccesses P LatchNode ExitNode DefUse LS Deps W = Some W' ->
  well_formed_working W' /\ extended_working W W'.
Proof.
  intros Hwf Hrun.
  destruct (resolveAccesses_inv _ _ _ _ _ _ _ _ Hrun)
    as (LatchDefs & ExitingDefs & W1 & H1 & H2).
  destruct (fold_resolveAccess _ _ _ _ _ _ _ _ _ H1 Hwf) as [Hwf1 Hext1].
  destruct (fold_resolveUnknown _ _ _ _ H2 Hwf1) as [Hwf2 Hext2].
  split; [exact Hwf2|by eapply extended_working_trans].
Qed.

Lemma well_formed_start : well_formed_working Sample.start.
Proof.
  split; [|split].
  - intros em a H. unfold Sample.start in H. cbn [ExplicitAccesses] in H.
    by rewrite lookup_empty in H.
  - intros i N a H. unfold Sample.start in H. cbn [ExplicitUnknowns] in H.
    by rewrite lookup_empty in H.
  - intros n Traits H.
    assert (HT : Traits = ([], [])).
    { unfold Sample.start in H. cbn [NodeTraits] in H.
      apply lookup_insert_Some in H as [[_ <-]|[_ H]]; [reflexivity|].
      apply lookup_singleton_Some in H as [_ <-]. reflexivity. }
    subst Traits. split; intros e [].
Defined.

Lemma X15_resolveAccesses_extends_witness :
  let P := Sample.pass (mkDefinitionInfo Sample.nothing Sample.nothing) in
  exists W',
    well_formed_working Sample.start /\
    resolveAccesses P (Some 1%positive) (Some 2%positive) Sample.DefUse
      (mkLiveSet Sample.nothing) ∅ Sample.start = Some W' /\
    well_formed_working W' /\ extended_working Sample.start W'.
Proof.
  intros P.
  destruct (resolveAccesses P (Some 1%positive) (Some 2%positive)
              Sample.DefUse (mkLiveSet Sample.nothing) ∅ Sample.start)
    as [W'|] eqn:Hrun; [|vm_compute in Hrun; discriminate].
  exists W'. split; [exact well_formed_start|]. split; [reflexivity|].
  exact (X15_resolveAccesses_extends P _ _ _ _ _ _ W' well_formed_start Hrun).
Defined.

Lemma classified_extended (P : PrivateRecognitionPass) (Loc : MemoryLocation)
    (W W' : Working) :
  extended_working W W' ->
  (exists Base a T, find P Loc = Some Base /\
     ExplicitAccesses W !! em_id Base = Some a /\
     store W !! a = Some T /\ has_clear_bit T) ->
  exists Base a T, find P Loc = Some Base /\
    ExplicitAccesses W' !! em_id Base = Some a /\
    store W' !! a = Some T /\ has_clear_bit T.
Proof.
  intros (Hs & He & _) (Base & a & T & HB & Ha & HT & Hc).
  destruct (Hs a T HT) as (T' & HT' & Hland).
  exists Base, a, T'. split; [exact HB|]. split; [by apply He|].
  split; [exact HT'|by eapply has_clear_bit_narrowed].
Qed.

Lemma fold_resolveAccess_each (P : PrivateRecognitionPass)
    (LatchDefs ExitingDefs : DefinitionInfo) (DefUse : DefUseSet)
    (LS : LiveSet) (Deps : gmap positive DependenceImp)
    (l : list MemoryLocation) (W W' : Working) (Loc : MemoryLocation) :
  fold_left (resolveAccess P LatchDefs ExitingDefs DefUse LS Deps) l (Some W)
    = Some W' ->
  well_formed_working W -> In Loc l ->
  exists Base a T, find P Loc = Some Base /\
    ExplicitAccesses W' !! em_id Base = Some a /\
    store W' !! a = Some T /\ has_clear_bit T.
Proof.
  revert W. induction l as [|x l IH]; intros W Hrun Hwf []; subst.
  - cbn [fold_left] in Hrun.
    destruct (resolveAccess P LatchDefs ExitingDefs DefUse LS Deps (Some W)
                Loc) as [W1|] eqn:Hstep.
    + destruct (resolveAccess_step _ _ _ _ _ _ _ _ _ Hstep Hwf)
        as [[Hwf1 _] HQ].
      destruct (fold_resolveAccess _ _ _ _ _ _ _ _ _ Hrun Hwf1) as [_ Hext].
      by eapply classified_extended.
    + by rewrite fold_left_None in Hrun.
  - cbn [fold_left] in Hrun.
    destruct (resolveAccess P LatchDefs ExitingDefs DefUse LS Deps (Some W)
                x) as [W1|] eqn:Hstep.
    + destruct (resolveAccess_step _ _ _ _ _ _ _ _ _ Hstep Hwf)
        as [[Hwf1 _] _].
      by apply (IH W1).
    + by rewrite fold_left_None in Hrun.
Qed.

(** X16: after [resolveAccesses], every explicitly accessed location has an
    estimate memory location with an entry in [ExplicitAccesses], and the
    trait it points to, joined with [~AddressAccess], differs from
    [NoAccess]: the test by which [storeResults] sets [ExplicitAccess]
    holds for it. *)
Theorem X16_explicit_accesses_are_accessed (P : PrivateRecognitionPass)
    (LatchNode ExitNode : option positive) (DefUse : DefUseSet)
    (LS : LiveSet) (Deps : gmap positive DependenceImp) (W W' : Working)
    (Loc : MemoryLocation) :
  well_formed_working W ->
  resolveAccesses P LatchNode ExitNode DefUse LS Deps W = Some W' ->
  In Loc (getExplicitAccesses DefUse) ->
  exists Base a, find P Loc = Some Base /\
    ExplicitAccesses W' !! em_id Base = Some a /\
    isAccessed (store W') a = Some true.
Proof.
  intros Hwf Hrun Hin.
  destruct (resolveAccesses_inv _ _ _ _ _ _ _ _ Hrun)
    as (LatchDefs & ExitingDefs & W1 & H1 & H2).
  destruct (fold_resolveAccess _ _ _ _ _ _ _ _ _ H1 Hwf) as [Hwf1 _].
  destruct (fold_resolveUnknown _ _ _ _ H2 Hwf1) as [_ Hext2].
  pose proof (fold_resolveAccess_each _ _ _ _ _ _ _ _ _ Loc H1 Hwf Hin) as HQ.
  destruct (classified_extended P Loc W1 W' Hext2 HQ)
    as (Base & a & T & HB & Ha & HT & Hc).
  exists Base, a. split; [exact HB|]. split; [exact Ha|].
  by eapply has_clear_bit_accessed.
Qed.

Lemma X16_explicit_accesses_are_accessed_witness :
  let P := Sample.pass (mkDefinitionInfo Sample.nothing Sample.nothing) in
  exists W',
    well_formed_working Sample.start /\
    resolveAccesses P (Some 1%positive) (Some 2%positive) Sample.DefUse
      (mkLiveSet Sample.nothing) ∅ Sample.start = Some W' /\
    In Sample.x (getExplicitAccesses Sample.DefUse) /\
    exists Base a, find P Sample.x = Some Base /\
      ExplicitAccesses W' !! em_id Base = Some a /\
      isAccessed (store W') a = Some true.
Proof.
  intros P.
  destruct (resolveAccesses P (Some 1%positive) (Some 2%positive)
              Sample.DefUse (mkLiveSet Sample.nothing) ∅ Sample.start)
    as [W'|] eqn:Hrun; [|vm_compute in Hrun; discriminate].
  assert (Hin : In Sample.x (getExplicitAccesses Sample.DefUse))
    by (left; reflexivity).
  exists W'. split; [exact well_formed_start|]. split; [reflexivity|].
  split; [exact Hin|].
  exact (X16_explicit_accesses_are_accessed P _ _ _ _ _ _ W' Sample.x
           well_formed_start Hrun Hin).
Defined.

(** ** First-private check and result store, continued *)

(** X17: [checkFirstPrivate] returns at once, without looking for the
    definitions reaching the latch and the exit, where the descriptor has
    [FirstPrivate] or has neither [LastPrivate] nor [SecondToLastPrivate].
    Where it succeeds it changes the trait and the descriptor together or
    not at all: either both are as they were, or the descriptor lacked
    [FirstPrivate], had one of the two last kinds, and gets
    [FirstPrivate] while the cell of the entry, and no other cell, is
    narrowed with [FirstPrivate]. *)
Theorem X17_checkFirstPrivate_effect (P : PrivateRecognitionPass)
    (Numbers : GraphNumbering) (R : DFRegion) (EM : EstimateMemory)
    (a : positive) (H H' : gmap positive TraitImp) (Dptr Dptr' : gset trait.t) :
  (is_ trait.FirstPrivate Dptr = true \/
   (is_ trait.LastPrivate Dptr = false /\
    is_ trait.SecondToLastPrivate Dptr = false) ->
   checkFirstPrivate P Numbers R (EM, a) (H, Dptr) = Some (H, Dptr)) /\
  (checkFirstPrivate P Numbers R (EM, a) (H, Dptr) = Some (H', Dptr') ->
   (H' = H /\ Dptr' = Dptr) \/
   (is_ trait.FirstPrivate Dptr = false /\
    (is_ trait.LastPrivate Dptr = true \/
     is_ trait.SecondToLastPrivate Dptr = true) /\
    exists T, H !! a = Some T /\
      H' = <[a := and_assign T (mkTraitImp FirstPrivate)]> H /\
      Dptr' = set trait.FirstPrivate Dptr)).
Proof.
  unfold checkFirstPrivate. split.
  - intros [->|[-> ->]]; [reflexivity|]. by rewrite orb_true_r.
  - destruct (is_ trait.FirstPrivate Dptr) eqn:HFP;
      destruct (is_ trait.LastPrivate Dptr) eqn:HLP;
      destruct (is_ trait.SecondToLastPrivate Dptr) eqn:HSP;
      cbn [orb andb negb];
      try (intros [= <- <-]; by left);
      (destruct (getLatchNode R) as [ln|]; [|discriminate];
       destruct (getExitNode R) as [en|]; [|discriminate];
       cbn [mbind option_bind];
       destruct (mDefInfo P ln); [|discriminate];
       destruct (mDefInfo P en); [|discriminate];
       cbn [mbind option_bind fst snd];
       destruct (cover P Numbers EM _); [intros [= <- <-]; by left|];
       destruct (H !! a) as [T|]; [|discriminate];
       cbn [mbind option_bind]; intros [= <- <-]; right;
       split; [reflexivity|]; split; [tauto|];
       exists T; by repeat split).
Qed.

Lemma X17_checkFirstPrivate_effect_witness :
  let P := Sample.pass (mkDefinitionInfo Sample.nothing Sample.nothing) in
  let R := mkDFRegion None None in
  let H : gmap positive TraitImp := {[1%positive := mkTraitImp Private]} in
  let Dptr : gset trait.t := {[trait.Private]} in
  (is_ trait.FirstPrivate Dptr = true \/
   (is_ trait.LastPrivate Dptr = false /\
    is_ trait.SecondToLastPrivate Dptr = false)) /\
  checkFirstPrivate P Sample.numbers R (Sample.EM_x, 1%positive) (H, Dptr)
    = Some (H, Dptr) /\
  ((H = H /\ Dptr = Dptr) \/
   (is_ trait.FirstPrivate Dptr = false /\
    (is_ trait.LastPrivate Dptr = true \/
     is_ trait.SecondToLastPrivate Dptr = true) /\
    exists T, H !! 1%positive = Some T /\
      H = <[1%positive := and_assign T (mkTraitImp FirstPrivate)]> H /\
      Dptr = set trait.FirstPrivate Dptr)).
Proof.
  intros P R H Dptr.
  assert (H1 : is_ trait.FirstPrivate Dptr = true \/
               (is_ trait.LastPrivate Dptr = false /\
                is_ trait.SecondToLastPrivate Dptr = false))
    by (right; split; by vm_compute).
  destruct (X17_checkFirstPrivate_effect P Sample.numbers R Sample.EM_x 1
              H H Dptr Dptr) as [Hearly Hinv].
  split; [exact H1|]. split; [exact (Hearly H1)|exact (Hinv (Hearly H1))].
Defined.

Lemma first_private_narrowed_refl (H : gmap positive TraitImp) :
  first_private_narrowed H H.
Proof. intros a. by left. Qed.

Lemma first_private_narrowed_trans (H1 H2 H3 : gmap positive TraitImp) :
  first_private_narrowed H1 H2 -> first_private_narrowed H2 H3 ->
  first_private_narrowed H1 H3.
Proof.
  intros H12 H23 a.
  destruct (H23 a) as [Heq|(T2 & HT2 & HT3)].
  - rewrite Heq. apply H12.
  - destruct (H12 a) as [Heq|(T1 & HT1 & HT2')].
    + right. exists T2. by rewrite <- Heq.
    + right. exists T1. split; [exact HT1|].
      rewrite HT3. rewrite HT2 in HT2'. injection HT2' as ->.
      unfold and_assign. cbn [mId].
      by rewrite <- Z.land_assoc, Z.land_diag.
Qed.

Lemma checkFirstPrivate_store (P : PrivateRecognitionPass)
    (Numbers : GraphNumbering) (R : DFRegion)
    (EMI : EstimateMemory * positive)
    (H H' : gmap positive TraitImp) (Dptr Dptr' : gset trait.t) :
  checkFirstPrivate P Numbers R EMI (H, Dptr) = Some (H', Dptr') ->
  first_private_narrowed H H'.
Proof.
  unfold checkFirstPrivate.
  destruct (_ || _); [intros [= <- <-]; apply first_private_narrowed_refl|].
  destruct (getLatchNode R) as [ln|]; [|discriminate].
  destruct (getExitNode R) as [en|]; [|discriminate].
  cbn [mbind option_bind].
  destruct (mDefInfo P ln); [|discriminate].
  destruct (mDefInfo P en); [|discriminate].
  cbn [mbind option_bind].
  destruct (cover P Numbers _ _);
    [intros [= <- <-]; apply first_private_narrowed_refl|].
  destruct (H !! EMI.2) as [T|] eqn:HT; [|discriminate].
  cbn [mbind option_bind]. intros [= <- <-] a.
  destruct (decide (EMI.2 = a)) as [<-|Hne].
  - right. exists T. split; [exact HT|apply lookup_insert_eq].
  - left. by apply lookup_insert_ne.
Qed.

Lemma storeMemory_step (P : PrivateRecognitionPass)
    (Numbers : GraphNumbering) (R : DFRegion) (N : positive)
    (EA : gmap positive positive) (s s' : Combined)
    (EMI : EstimateMemory * positive) :
  storeMemory P Numbers R N EA (Some s) EMI = Some s' ->
  first_private_narrowed s.1.1.1 s'.1.1.1 /\
  map fst (memories s'.2) = map fst (memories s.2) ++ [em_id EMI.1] /\
  unknowns s'.2 = unknowns s.2.
Proof.
  destruct s as [[[H St] C] NT]. unfold storeMemory.
  cbn [mbind option_bind].
  destruct (H !! EMI.2) as [T|]; [|discriminate]. cbn [mbind option_bind].
  destruct (toDescriptor T 0 St) as [[Dptr St1]|]; [|discriminate].
  cbn [mbind option_bind].
  destruct (checkFirstPrivate P Numbers R EMI (H, Dptr))
    as [[H1 Dptr1]|] eqn:Hcheck; [|discriminate].
  cbn [mbind option_bind].
  destruct (match EA !! em_id EMI.1 with
            | Some a => _
            | None => Some false
            end) as [explicit|]; [|discriminate].
  cbn [mbind option_bind]. destruct explicit; intros [= <-]; cbn [fst snd];
    (split; [by eapply checkFirstPrivate_store|]);
    cbn [memories unknowns]; by rewrite map_app.
Qed.

Lemma storeUnknown_step (N : positive)
    (EU : gmap positive (positive * positive)) (s s' : Combined)
    (U : Instruction * positive) :
  storeUnknown N EU (Some s) U = Some s' ->
  s'.1.1.1 = s.1.1.1 /\
  memories s'.2 = memories s.2 /\
  map fst (unknowns s'.2) = map fst (unknowns s.2) ++ [inst_id U.1].
Proof.
  destruct s as [[[H St] C] NT]. unfold storeUnknown.
  cbn [mbind option_bind].
  destruct (H !! U.2) as [T|]; [|discriminate]. cbn [mbind option_bind].
  destruct (toDescriptor T 0 St) as [[Dptr St1]|]; [|discriminate].
  cbn [mbind option_bind].
  destruct (match EU !! inst_id U.1 with
            | Some (N', a) => _
            | None => Some false
            end) as [explicit|]; [|discriminate].
  cbn [mbind option_bind]. destruct explicit; intros [= <-]; cbn [fst snd];
    (split; [reflexivity|]); cbn [memories unknowns]; by rewrite map_app.
Qed.

Lemma fold_storeMemory (P : PrivateRecognitionPass)
    (Numbers : GraphNumbering) (R : DFRegion) (N : positive)
    (EA : gmap positive positive) (TL : TraitList) (s s' : Combined) :
  fold_left (storeMemory P Numbers R N EA) TL (Some s) = Some s' ->
  first_private_narrowed s.1.1.1 s'.1.1.1 /\
  map fst (memories s'.2) =
    map fst (memories s.2) ++ map (fun e => em_id e.1) TL /\
  unknowns s'.2 = unknowns s.2.
Proof.
  revert s. induction TL as [|EMI TL IH]; intros s Hrun.
  - injection Hrun as <-.
    split; [apply first_private_narrowed_refl|]. by rewrite app_nil_r.
  - cbn [fold_left] in Hrun.
    destruct (storeMemory P Numbers R N EA (Some s) EMI) as [s1|] eqn:Hstep;
      [|by rewrite fold_left_None in Hrun].
    destruct (storeMemory_step _ _ _ _ _ _ _ _ Hstep) as (Hs1 & Hm1 & Hu1).
    destruct (IH s1 Hrun) as (Hs2 & Hm2 & Hu2).
    split; [by eapply first_private_narrowed_trans|].
    split; [|congruence].
    rewrite Hm2, Hm1. cbn [map]. by rewrite <- app_assoc.
Qed.

Lemma fold_storeUnknown (N : positive)
    (EU : gmap positive (positive * positive)) (UL : UnknownList)
    (s s' : Combined) :
  fold_left (storeUnknown N EU) UL (Some s) = Some s' ->
  s'.1.1.1 = s.1.1.1 /\
  memories s'.2 = memories s.2 /\
  map fst (unknowns s'.2) =
    map fst (unknowns s.2) ++ map (fun u => inst_id u.1) UL.
Proof.
  revert s. induction UL as [|U UL IH]; intros s Hrun.
  - injection Hrun as <-. by rewrite app_nil_r.
  - cbn [fold_left] in Hrun.
    destruct (storeUnknown N EU (Some s) U) as [s1|] eqn:Hstep;
      [|by rewrite fold_left_None in Hrun].
    destruct (storeUnknown_step _ _ _ _ _ Hstep) as (Hs1 & Hm1 & Hu1).
    destruct (IH s1 Hrun) as (Hs2 & Hm2 & Hu2).
    split; [congruence|]. split; [congruence|].
    rewrite Hu2, Hu1. cbn [map]. by rewrite <- app_assoc.
Qed.

(** The three ways in which [storeResults] succeeds: nothing to store, one
    memory location and no unknown access, or the combined result. *)
Lemma storeResults_inv (P : PrivateRecognitionPass)
    (Numbers : GraphNumbering) (R : DFRegion) (N : positive)
    (EA : gmap positive positive) (EU : gmap positive (positive * positive))
    (TL : TraitList) (UL : UnknownList)
    (H H' : gmap positive TraitImp) (DS DS' : gmap positive AliasTrait)
    (St St' : Statistics) :
  storeResults P Numbers R N EA EU (TL, UL) (H, DS, St) = Some (H', DS', St') ->
  DS !! N = None /\
  ((TL = [] /\ UL = [] /\ H' = H /\ DS' = DS) \/
   (exists EMI Dptr0 Dptr,
      TL = [EMI] /\ UL = [] /\
      (exists T, H !! EMI.2 = Some T /\
         toDescriptor T 1 St = Some (Dptr0, St')) /\
      (exists Dptr1,
         checkFirstPrivate P Numbers R EMI (H, Dptr0) = Some (H', Dptr1) /\
         (Dptr = Dptr1 \/ Dptr = set trait.ExplicitAccess Dptr1)) /\
      DS' = <[N := mkAliasTrait Dptr [(em_id EMI.1, Dptr)] []]> DS) \/
   ((TL <> [] \/ UL <> []) /\
    exists s1 St1 C Loops Dptr,
      fold_left (storeMemory P Numbers R N EA) TL
        (Some (H, St, TraitImp_default, mkAliasTrait ∅ [] [])) = Some s1 /\
      fold_left (storeUnknown N EU) UL (Some s1) = Some (H', St1, C, Loops) /\
      toDescriptor (combine C) (count Loops) St1 = Some (Dptr, St') /\
      DS' = <[N := mkAliasTrait
                     (if is_ trait.ExplicitAccess (dptr Loops)
                      then set trait.ExplicitAccess Dptr else Dptr)
                     (memories Loops) (unknowns Loops)]> DS)).
Proof.
  unfold storeResults.
  destruct (DS !! N) as [Old|] eqn:HN.
  { rewrite bool_decide_eq_true_2 by (by eexists). discriminate. }
  rewrite bool_decide_eq_false_2 by (intros [? ?]; discriminate).
  cbn [fst snd]. intros Hrun. split; [reflexivity|].
  assert (Hcombined : TL <> [] \/ UL <> [] ->
    (s ← fold_left (storeMemory P Numbers R N EA) TL
           (Some (H, St, TraitImp_default, mkAliasTrait ∅ [] []));
     '(H, St, CombinedTrait, NodeTrait) ←
       fold_left (storeUnknown N EU) UL (Some s);
     '(Dptr, St) ← toDescriptor (combine CombinedTrait) (count NodeTrait) St;
     Some (H, <[N := mkAliasTrait
                       (if is_ trait.ExplicitAccess (dptr NodeTrait)
                        then set trait.ExplicitAccess Dptr else Dptr)
                       (memories NodeTrait) (unknowns NodeTrait)]> DS, St))
    = Some (H', DS', St') ->
    exists s1 St1 C Loops Dptr,
      fold_left (storeMemory P Numbers R N EA) TL
        (Some (H, St, TraitImp_default, mkAliasTrait ∅ [] [])) = Some s1 /\
      fold_left (storeUnknown N EU) UL (Some s1) = Some (H', St1, C, Loops) /\
      toDescriptor (combine C) (count Loops) St1 = Some (Dptr, St') /\
      DS' = <[N := mkAliasTrait
                     (if is_ trait.ExplicitAccess (dptr Loops)
                      then set trait.ExplicitAccess Dptr else Dptr)
                     (memories Loops) (unknowns Loops)]> DS).
  { intros _ Hc.
    destruct (fold_left (storeMemory P Numbers R N EA) TL _) as [s1|]
      eqn:Hf1; [|discriminate].
    cbn [mbind option_bind] in Hc.
    destruct (fold_left (storeUnknown N EU) UL (Some s1))
      as [[[[H1 St1] C] Loops]|] eqn:Hf2; [|discriminate].
    cbn [mbind option_bind] in Hc.
    destruct (toDescriptor (combine C) (count Loops) St1) as [[Dptr St2]|]
      eqn:Hf3; [|discriminate].
    cbn [mbind option_bind] in Hc. injection Hc as <- <- <-.
    exists s1, St1, C, Loops, Dptr. by repeat split. }
  destruct TL as [|EMI SecondEM].
  - destruct UL as [|U UL].
    + injection Hrun as <- <- <-. by left.
    + right. right. split; [right; discriminate|].
      apply Hcombined; [right; discriminate|exact Hrun].
  - destruct UL as [|U UL]; [destruct SecondEM as [|EMI' TL]|].
    + right. left. cbn [bool_decide andb] in Hrun.
      rewrite !bool_decide_eq_true_2 in Hrun by reflexivity.
      cbn [andb] in Hrun.
      destruct (H !! EMI.2) as [T|] eqn:HT; [|discriminate].
      cbn [mbind option_bind] in Hrun.
      destruct (toDescriptor T 1 St) as [[Dptr0 St0]|] eqn:Hdec;
        [|discriminate].
      cbn [mbind option_bind] in Hrun.
      destruct (checkFirstPrivate P Numbers R EMI (H, Dptr0))
        as [[H1 Dptr1]|] eqn:Hcheck; [|discriminate].
      cbn [mbind option_bind] in Hrun.
      destruct (match EA !! em_id EMI.1 with
                | Some a => _
                | None => Some false
                end) as [explicit|]; [|discriminate].
      cbn [mbind option_bind] in Hrun. injection Hrun as <- <- <-.
      eexists EMI, Dptr0, _. split; [reflexivity|]. split; [reflexivity|].
      split; [by exists T|]. split; [|reflexivity].
      exists Dptr1. split; [exact Hcheck|]. destruct explicit; tauto.
    + right. right. split; [left; discriminate|].
      apply Hcombined; [left; discriminate|].
      rewrite (bool_decide_eq_false_2 (EMI' :: TL = [])) in Hrun
        by discriminate.
      by rewrite andb_false_r in Hrun.
    + right. right. split; [left; discriminate|].
      apply Hcombined; [left; discriminate|].
      by rewrite (bool_decide_eq_false_2 (U :: UL = [])) in Hrun
        by discriminate.
Qed.

(** X18: [storeResults] succeeds only for a node which has no result yet;
    it leaves the results of all other nodes as they are, and stores a
    result for the node exactly where one of its two lists is not empty. *)
Theorem X18_storeResults_frame (P : PrivateRecognitionPass)
    (Numbers : GraphNumbering) (R : DFRegion) (N : positive)
    (EA : gmap positive positive) (EU : gmap positive (positive * positive))
    (TL : TraitList) (UL : UnknownList)
    (H H' : gmap positive TraitImp) (DS DS' : gmap positive AliasTrait)
    (St St' : Statistics) :
  storeResults P Numbers R N EA EU (TL, UL) (H, DS, St) = Some (H', DS', St') ->
  DS !! N = None /\
  (forall M, M <> N -> DS' !! M = DS !! M) /\
  (is_Some (DS' !! N) <-> TL <> [] \/ UL <> []).
Proof.
  intros Hrun.
  destruct (storeResults_inv _ _ _ _ _ _ _ _ _ _ _ _ _ _ Hrun) as [HN Hcases].
  split; [exact HN|].
  destruct Hcases as [(-> & -> & _ & ->)
    |[(EMI & D0 & D & -> & -> & _ & _ & ->)
     |(Hne & s1 & St1 & C & Loops & D & _ & _ & _ & ->)]].
  - split; [done|]. rewrite HN. split; [intros [? ?]; discriminate|].
    intros [?|?]; congruence.
  - split; [intros M HM; by rewrite lookup_insert_ne|].
    rewrite lookup_insert_eq. split; [intros _; left; discriminate|by eexists].
  - split; [intros M HM; by rewrite lookup_insert_ne|].
    rewrite lookup_insert_eq. split; [done|by eexists].
Qed.


(** X20: the only change which [storeResults] makes to the traits is the
    narrowing with [FirstPrivate] of [checkFirstPrivate]: afterwards every
    cell of the store is as it was or holds its trait narrowed with
    [FirstPrivate]. *)
Theorem X20_storeResults_store (P : PrivateRecognitionPass)
    (Numbers : GraphNumbering) (R : DFRegion) (N : positive)
    (EA : gmap positive positive) (EU : gmap positive (positive * positive))
    (TL : TraitList) (UL : UnknownList)
    (H H' : gmap positive TraitImp) (DS DS' : gmap positive AliasTrait)
    (St St' : Statistics) :
  storeResults P Numbers R N EA EU (TL, UL) (H, DS, St) = Some (H', DS', St') ->
  forall a, H' !! a = H !! a \/
    exists T, H !! a = Some T /\
      H' !! a = Some (and_assign T (mkTraitImp FirstPrivate)).
Proof.
  intros Hrun.
  destruct (storeResults_inv _ _ _ _ _ _ _ _ _ _ _ _ _ _ Hrun) as [HN Hcases].
  destruct Hcases as [(-> & -> & -> & ->)
    |[(EMI & D0 & D & -> & -> & _ & (D1 & Hcheck & _) & ->)
     |(Hne & s1 & St1 & C & Loops & D & Hf1 & Hf2 & _ & ->)]].
  - apply first_private_narrowed_refl.
  - exact (checkFirstPrivate_store _ _ _ _ _ _ _ _ Hcheck).
  - destruct (fold_storeMemory _ _ _ _ _ _ _ _ Hf1) as (Hs1 & _ & _).
    destruct (fold_storeUnknown _ _ _ _ _ Hf2) as (Hs2 & _ & _).
    cbn [fst snd] in *. by rewrite Hs2.
Qed.

Lemma X18_storeResults_frame_witness :
  let P := Sample.pass (mkDefinitionInfo Sample.nothing Sample.nothing) in
  let TL : TraitList := [(Sample.EM_x, 1%positive)] in
  let UL : UnknownList := [(Sample.store_x, 2%positive)] in
  let H : gmap positive TraitImp :=
    {[1%positive := mkTraitImp LastPrivate;
      2%positive := mkTraitImp Readonly]} in
  let EA : gmap positive positive := {[1%positive := 1%positive]} in
  let DS : gmap positive AliasTrait :=
    {[3%positive := mkAliasTrait {[trait.Readonly]} [] []]} in
  exists H' DS' St',
    storeResults P Sample.numbers Sample.region 2 EA ∅ (TL, UL)
      (H, DS, no_statistics) = Some (H', DS', St') /\
    DS !! 2%positive = None /\
    (forall M, M <> 2%positive -> DS' !! M = DS !! M) /\
    (is_Some (DS' !! 2%positive) <-> TL <> [] \/ UL <> []).
Proof.
  intros P TL UL H EA DS.
  destruct (storeResults P Sample.numbers Sample.region 2 EA ∅ (TL, UL)
              (H, DS, no_statistics)) as [[[H' DS'] St']|] eqn:Hrun;
    [|vm_compute in Hrun; discriminate].
  exists H', DS', St'. split; [reflexivity|].
  exact (X18_storeResults_frame _ _ _ _ _ _ _ _ _ _ _ _ _ _ Hrun).
Defined.


Lemma X20_storeResults_store_witness :
  let P := Sample.pass (mkDefinitionInfo Sample.nothing Sample.nothing) in
  let TL : TraitList := [(Sample.EM_x, 1%positive)] in
  let UL : UnknownList := [(Sample.store_x, 2%positive)] in
  let H : gmap positive TraitImp :=
    {[1%positive := mkTraitImp LastPrivate;
      2%positive := mkTraitImp Readonly]} in
  let EA : gmap positive positive := {[1%positive := 1%positive]} in
  exists H' DS' St',
    storeResults P Sample.numbers Sample.region 2 EA ∅ (TL, UL)
      (H, ∅, no_statistics) = Some (H', DS', St') /\
    forall a, H' !! a = H !! a \/
      exists T, H !! a = Some T /\
        H' !! a = Some (and_assign T (mkTraitImp FirstPrivate)).
Proof.
  intros P TL UL H EA.
  destruct (storeResults P Sample.numbers Sample.region 2 EA ∅ (TL, UL)
              (H, ∅, no_statistics)) as [[[H' DS'] St']|] eqn:Hrun;
    [|vm_compute in Hrun; discriminate].
  exists H', DS', St'. split; [reflexivity|].
  exact (X20_storeResults_store _ _ _ _ _ _ _ _ _ _ _ _ _ _ Hrun).
Defined.

(** ** Coverage, continued *)

Lemma markEntry_idempotent (Itr : AliasTrait) :
  markEntry (markEntry Itr) = markEntry Itr.
Proof.
  unfold markEntry.
  destruct (is_ trait.NoAccess (dptr Itr)) eqn:HNA; cbn [negb].
  - by rewrite HNA.
  - cbn [dptr memories unknowns].
    assert (HNA' : is_ trait.NoAccess
              (set trait.Output (set trait.Anti (set trait.Flow (dptr Itr))))
              = false).
    { unfold is_, set in *. apply bool_decide_eq_false.
      apply bool_decide_eq_false in HNA. set_solver. }
    rewrite HNA'. cbn [negb]. f_equal. unfold set. set_solver.
Qed.

Lemma markDescendant_lookup (DS : gmap positive AliasTrait) (D : AliasNode)
    (i : positive) :
  markDescendant DS D !! i =
  if decide (i = an_id D) then markEntry <$> DS !! i else DS !! i.
Proof.
  unfold markDescendant.
  destruct (decide (i = an_id D)) as [->|Hne].
  - destruct (DS !! an_id D) as [Itr|] eqn:HItr; [|by rewrite HItr].
    cbn. unfold markEntry.
    destruct (negb (is_ trait.NoAccess (dptr Itr))).
    + by rewrite lookup_insert_eq.
    + exact HItr.
  - destruct (DS !! an_id D) as [Itr|]; [|reflexivity].
    destruct (negb _); [|reflexivity]. by rewrite lookup_insert_ne.
Qed.

Lemma fold_markDescendant_lookup (l : list AliasNode)
    (DS : gmap positive AliasTrait) (i : positive) :
  fold_left markDescendant l DS !! i =
  if decide (i ∈ map an_id l) then markEntry <$> DS !! i else DS !! i.
Proof.
  revert DS. induction l as [|D l IH]; intros DS.
  - cbn. rewrite decide_False; [reflexivity|]. apply not_elem_of_nil.
  - cbn [fold_left map]. rewrite IH, markDescendant_lookup.
    destruct (decide (i = an_id D)) as [->|Hne].
    + rewrite (decide_True (P := an_id D ∈ an_id D :: map an_id l))
        by apply list_elem_of_here.
      destruct (decide (an_id D ∈ map an_id l)); [|reflexivity].
      destruct (DS !! an_id D); [|reflexivity].
      cbn. by rewrite markEntry_idempotent.
    + destruct (decide (i ∈ map an_id l)) as [Hin|Hnin].
      * rewrite decide_True; [reflexivity|by apply list_elem_of_further].
      * rewrite decide_False; [reflexivity|].
        intros [?|?]%elem_of_cons; tauto.
Qed.

(** X21: the last loop of [propagateTraits] creates and removes no result.
    It keeps the contributions of every result, keeps a result which is
    [NoAccess] and the result of every node which is not a strict
    descendant of a node of the coverage, and otherwise only adds [Flow],
    [Anti] and [Output] to the descriptor. *)
Theorem X21_markCoverage_frame (Coverage : list AliasNode)
    (DS : gmap positive AliasTrait) (i : positive) :
  (DS !! i = None -> markCoverage Coverage DS !! i = None) /\
  (forall Itr, DS !! i = Some Itr ->
     exists Itr', markCoverage Coverage DS !! i = Some Itr' /\
       memories Itr' = memories Itr /\ unknowns Itr' = unknowns Itr /\
       (dptr Itr' = dptr Itr \/
        dptr Itr' = {[trait.Flow; trait.Anti; trait.Output]} ∪ dptr Itr) /\
       (is_ trait.NoAccess (dptr Itr) = true -> Itr' = Itr) /\
       ((forall N D, In N Coverage -> In D (descendants N) -> an_id D <> i) ->
        Itr' = Itr)).
Proof.
  rewrite markCoverage_flat, fold_markDescendant_lookup.
  split.
  - intros ->. by destruct (decide _).
  - intros Itr ->.
    destruct (decide (i ∈ map an_id (flat_map descendants Coverage)))
      as [Hin|Hnin].
    + exists (markEntry Itr). split; [reflexivity|]. unfold markEntry.
      destruct (is_ trait.NoAccess (dptr Itr)) eqn:HNA; cbn [negb].
      * split; [reflexivity|]. split; [reflexivity|]. split; [by left|].
        by split.
      * cbn [dptr memories unknowns].
        split; [reflexivity|]. split; [reflexivity|].
        split; [right; unfold set; set_solver|].
        split; [discriminate|].
        intros Hout. exfalso.
        apply list_elem_of_In, in_map_iff in Hin as (D & HD & HDin).
        apply in_flat_map in HDin as (N & HN & HDN).
        by apply (Hout N D).
    + exists Itr. split; [reflexivity|].
      split; [reflexivity|]. split; [reflexivity|]. split; [by left|].
      by split.
Qed.

Lemma X21_markCoverage_frame_witness :
  let DS : gmap positive AliasTrait :=
    {[2%positive := mkAliasTrait {[trait.Readonly]} [(1%positive, ∅)] [];
      3%positive := mkAliasTrait {[trait.NoAccess]} [] []]} in
  let Itr := mkAliasTrait {[trait.Readonly]} [(1%positive, ∅)] [] in
  DS !! 2%positive = Some Itr /\
  exists Itr', markCoverage [Sample.node1] DS !! 2%positive = Some Itr' /\
    memories Itr' = memories Itr /\ unknowns Itr' = unknowns Itr /\
    (dptr Itr' = dptr Itr \/
     dptr Itr' = {[trait.Flow; trait.Anti; trait.Output]} ∪ dptr Itr) /\
    (is_ trait.NoAccess (dptr Itr) = true -> Itr' = Itr) /\
    ((forall N D, In N [Sample.node1] -> In D (descendants N) ->
        an_id D <> 2%positive) -> Itr' = Itr).
Proof.
  intros DS Itr.
  assert (H : DS !! 2%positive = Some Itr) by (by vm_compute).
  split; [exact H|].
  exact (proj2 (X21_markCoverage_frame [Sample.node1] DS 2%positive) Itr H).
Defined.

(** X22: the last loop of [propagateTraits] is idempotent: running it again
    with the same coverage changes no result. *)
Theorem X22_markCoverage_idempotent (Coverage : list AliasNode)
    (DS : gmap positive AliasTrait) :
  markCoverage Coverage (markCoverage Coverage DS) = markCoverage Coverage DS.
Proof.
  apply map_eq. intros i.
  rewrite !markCoverage_flat, !fold_markDescendant_lookup.
  destruct (decide _); [|reflexivity].
  destruct (DS !! i); [|reflexivity].
  cbn. by rewrite markEntry_idempotent.
Qed.
Lemma dependency_narrowed_refl (H : gmap positive TraitImp) :
  dependency_narrowed H H.
Proof. intros a. by left. Qed.

Lemma and_Dependency_idem (T : TraitImp) :
  and_assign (and_assign T (mkTraitImp Dependency)) (mkTraitImp Dependency)
  = and_assign T (mkTraitImp Dependency).
Proof.
  unfold and_assign. cbn [mId]. f_equal.
  by rewrite <- Z.land_assoc, Z.land_diag.
Qed.

Lemma dependency_narrowed_trans (H1 H2 H3 : gmap positive TraitImp) :
  dependency_narrowed H1 H2 -> dependency_narrowed H2 H3 ->
  dependency_narrowed H1 H3.
Proof.
  intros H12 H23 a.
  destruct (H23 a) as [Heq|(T2 & HT2 & Hkept2 & HT3)].
  { rewrite Heq. apply H12. }
  destruct (H12 a) as [Heq|(T1 & HT1 & Hkept1 & HT2')].
  - right. exists T2. by rewrite <- Heq.
  - right. exists T1. repeat split; [exact HT1|exact Hkept1|].
    rewrite HT2 in HT2'. injection HT2' as ->.
    by rewrite HT3, and_Dependency_idem.
Qed.

Lemma pointer_resolved_stable (P : PrivateRecognitionPass)
    (EA : gmap positive positive) (H H' : gmap positive TraitImp)
    (Loc : MemoryLocation) (LI : Instruction) :
  dependency_narrowed H H' -> pointer_resolved P EA H Loc LI ->
  pointer_resolved P EA H' Loc LI.
Proof.
  intros Hnar (EM & a & T & Hfind & Hea & HT & Hcases).
  destruct (Hnar a) as [Heq|(T0 & HT0 & Hkept & HT')].
  - exists EM, a, T. repeat split; [exact Hfind|exact Hea|by rewrite Heq|].
    destruct Hcases as [Hk|[Hz|[Hd|(Pointer & b & PT & Hp & Hb & HPT & Hro)]]];
      [by left|by right; left|by right; right; left|].
    right; right; right. exists Pointer, b, PT.
    repeat split; [exact Hp|exact Hb| |exact Hro].
    destruct (Hnar b) as [Heqb|(PT0 & HPT0 & Hkeptb & _)];
      [by rewrite Heqb|].
    rewrite HPT in HPT0. injection HPT0 as <-.
    exfalso. apply Hkeptb. right. by left.
  - exists EM, a, (and_assign T0 (mkTraitImp Dependency)).
    repeat split; [exact Hfind|exact Hea|exact HT'|].
    right. unfold and_assign. cbn [mId]. change Dependency with 1.
    destruct (land_1_cases (mId T0)) as [-> | ->]; [by left|by right; left].
Qed.

Lemma kept_trait_dec (T : TraitImp) :
  (tor (get T) (tnot AddressAccess) =? Private) ||
  (tor (get T) (tnot AddressAccess) =? Readonly) ||
  (tor (get T) (tnot AddressAccess) =? Shared) = true <-> kept_trait T.
Proof.
  unfold kept_trait. rewrite !orb_true_iff, !Z.eqb_eq. tauto.
Qed.

Lemma resolvePointer_step (P : PrivateRecognitionPass)
    (dyn_cast_LoadInst : positive -> option Instruction)
    (EA : gmap positive positive) (H H' : gmap positive TraitImp)
    (Loc : MemoryLocation) :
  resolvePointer P dyn_cast_LoadInst EA (Some H) Loc = Some H' ->
  dependency_narrowed H H' /\
  forall v LI, Ptr Loc = Some v -> dyn_cast_LoadInst v = Some LI ->
    pointer_resolved P EA H' Loc LI.
Proof.
  unfold resolvePointer. cbn [mbind option_bind].
  destruct (Ptr Loc) as [v|]; [|discriminate]. cbn [mbind option_bind].
  destruct (dyn_cast_LoadInst v) as [LI|] eqn:Hcast.
  2:{ intros [= <-]. split; [apply dependency_narrowed_refl|].
      intros v' LI' [= <-]. by rewrite Hcast. }
  destruct (find P Loc) as [EM|] eqn:Hfind; [|discriminate].
  cbn [mbind option_bind].
  destruct (EA !! em_id EM) as [a|] eqn:Hea; [|discriminate].
  cbn [mbind option_bind].
  destruct (H !! a) as [T|] eqn:HT; [|discriminate].
  cbn [mbind option_bind].
  destruct (_ || _) eqn:Hkept.
  { intros [= <-]. split; [apply dependency_narrowed_refl|].
    intros v' LI' [= <-] Hc. exists EM, a, T. repeat split; try done.
    left. by apply kept_trait_dec. }
  assert (Hnot : ~ kept_trait T).
  { intros Hk. apply kept_trait_dec in Hk. congruence. }
  destruct (find P (MemoryLocation_get LI)) as [Pointer|] eqn:Hp;
    [|discriminate].
  cbn [mbind option_bind].
  destruct (EA !! em_id Pointer) as [b|] eqn:Hb; [|discriminate].
  cbn [mbind option_bind].
  destruct (H !! b) as [PT|] eqn:HPT; [|discriminate].
  cbn [mbind option_bind].
  destruct (tor (get PT) (tnot AddressAccess) =? Readonly) eqn:Hro.
  { intros [= <-]. split; [apply dependency_narrowed_refl|].
    intros v' LI' [= <-] Hc. rewrite Hcast in Hc. injection Hc as <-.
    exists EM, a, T. repeat split; try done.
    right; right; right. exists Pointer, b, PT. repeat split; try done.
    by apply Z.eqb_eq. }
  intros [= <-]. split.
  - intros c. destruct (decide (c = a)) as [->|Hne].
    + right. exists T. repeat split; [exact HT|exact Hnot|].
      by rewrite lookup_insert_eq.
    + left. by rewrite lookup_insert_ne.
  - intros v' LI' [= <-] Hc. rewrite Hcast in Hc. injection Hc as <-.
    exists EM, a, (and_assign T (mkTraitImp Dependency)).
    repeat split; [exact Hfind|exact Hea|by rewrite lookup_insert_eq|].
    right. unfold and_assign. cbn [mId]. change Dependency with 1.
    destruct (land_1_cases (mId T)) as [-> | ->]; [by left|by right; left].
Qed.

Lemma fold_resolvePointer (P : PrivateRecognitionPass)
    (dyn_cast_LoadInst : positive -> option Instruction)
    (EA : gmap positive positive) (l : list MemoryLocation) :
  forall H H',
    fold_left (resolvePointer P dyn_cast_LoadInst EA) l (Some H) = Some H' ->
    dependency_narrowed H H' /\
    forall Loc v LI, Loc ∈ l -> Ptr Loc = Some v ->
      dyn_cast_LoadInst v = Some LI -> pointer_resolved P EA H' Loc LI.
Proof.
  induction l as [|Loc0 l IH]; intros H H' Hrun.
  { injection Hrun as <-. split; [apply dependency_narrowed_refl|].
    intros Loc v LI Hin. by apply elem_of_nil in Hin. }
  cbn [fold_left] in Hrun.
  destruct (resolvePointer P dyn_cast_LoadInst EA (Some H) Loc0)
    as [H1|] eqn:Hstep.
  2:{ rewrite fold_left_None in Hrun; [discriminate|done]. }
  destruct (resolvePointer_step _ _ _ _ _ _ Hstep) as [Hnar1 Hres1].
  destruct (IH _ _ Hrun) as [Hnar Hres].
  split; [exact (dependency_narrowed_trans _ _ _ Hnar1 Hnar)|].
  intros Loc v LI Hin Hv Hc.
  apply elem_of_cons in Hin as [->|Hin].
  - apply (pointer_resolved_stable _ _ H1); [exact Hnar|].
    by apply (Hres1 v).
  - by apply (Hres Loc v).
Qed.

(** X23: [resolvePointers] changes the traits of the explicit accesses by
    narrowing with [Dependency] only, and never changes a trait which,
    joined with [~AddressAccess], is [Private], [Readonly] or [Shared]. *)
Theorem X23_resolvePointers_narrows (P : PrivateRecognitionPass)
    (dyn_cast_LoadInst : positive -> option Instruction)
    (DefUse : DefUseSet) (EA : gmap positive positive)
    (H H' : gmap positive TraitImp) (a : positive) :
  resolvePointers P dyn_cast_LoadInst DefUse EA H = Some H' ->
  H' !! a = H !! a \/
  exists T, H !! a = Some T /\ ~ kept_trait T /\
    H' !! a = Some (and_assign T (mkTraitImp Dependency)).
Proof.
  intros Hrun. apply fold_resolvePointer in Hrun as [Hnar _]. apply Hnar.
Qed.

Lemma X23_resolvePointers_narrows_witness :
  exists H',
    resolvePointers PointerSample.pass PointerSample.dyn_cast_LoadInst
      PointerSample.DefUse PointerSample.ExplicitAccesses
      (PointerSample.traits Shared DynamicPrivate) = Some H' /\
    (H' !! 2%positive
       = PointerSample.traits Shared DynamicPrivate !! 2%positive \/
     exists T,
       PointerSample.traits Shared DynamicPrivate !! 2%positive = Some T /\
       ~ kept_trait T /\
       H' !! 2%positive = Some (and_assign T (mkTraitImp Dependency))).
Proof.
  destruct (resolvePointers PointerSample.pass
              PointerSample.dyn_cast_LoadInst PointerSample.DefUse
              PointerSample.ExplicitAccesses
              (PointerSample.traits Shared DynamicPrivate))
    as [H'|] eqn:Hrun; [|vm_compute in Hrun; discriminate].
  exists H'. split; [reflexivity|].
  exact (X23_resolvePointers_narrows _ _ _ _ _ _ 2%positive Hrun).
Defined.

(** X24: after [resolvePointers], every explicitly accessed location whose
    pointer is loaded has a kept trait ([Private], [Readonly] or [Shared]
    up to the address bit), or a trait decoded as a dependence (the code of
    [Dependency], or zero), or the location which holds its pointer is
    [Readonly] up to the address bit. *)
Theorem X24_loaded_pointer_resolved (P : PrivateRecognitionPass)
    (dyn_cast_LoadInst : positive -> option Instruction)
    (DefUse : DefUseSet) (EA : gmap positive positive)
    (H H' : gmap positive TraitImp) (Loc : MemoryLocation) (v : positive)
    (LI : Instruction) :
  resolvePointers P dyn_cast_LoadInst DefUse EA H = Some H' ->
  Loc ∈ getExplicitAccesses DefUse ->
  Ptr Loc = Some v -> dyn_cast_LoadInst v = Some LI ->
  exists EM a T, find P Loc = Some EM /\ EA !! em_id EM = Some a /\
    H' !! a = Some T /\
    (kept_trait T \/ mId T = 0 \/ mId T = Dependency \/
     exists Pointer b PT, find P (MemoryLocation_get LI) = Some Pointer /\
       EA !! em_id Pointer = Some b /\ H' !! b = Some PT /\
       tor (get PT) (tnot AddressAccess) = Readonly).
Proof.
  intros Hrun Hin Hv Hc. apply fold_resolvePointer in Hrun as [_ Hres].
  exact (Hres Loc v LI Hin Hv Hc).
Qed.

Lemma X24_loaded_pointer_resolved_witness :
  exists H' EM a T,
    resolvePointers PointerSample.pass PointerSample.dyn_cast_LoadInst
      PointerSample.DefUse PointerSample.ExplicitAccesses
      (PointerSample.traits Shared DynamicPrivate) = Some H' /\
    find PointerSample.pass PointerSample.q = Some EM /\
    PointerSample.ExplicitAccesses !! em_id EM = Some a /\
    H' !! a = Some T /\
    (kept_trait T \/ mId T = 0 \/ mId T = Dependency \/
     exists Pointer b PT,
       find PointerSample.pass (MemoryLocation_get PointerSample.load_p)
         = Some Pointer /\
       PointerSample.ExplicitAccesses !! em_id Pointer = Some b /\
       H' !! b = Some PT /\
       tor (get PT) (tnot AddressAccess) = Readonly).
Proof.
  destruct (resolvePointers PointerSample.pass
              PointerSample.dyn_cast_LoadInst PointerSample.DefUse
              PointerSample.ExplicitAccesses
              (PointerSample.traits Shared DynamicPrivate))
    as [H'|] eqn:Hrun; [|vm_compute in Hrun; discriminate].
  destruct (X24_loaded_pointer_resolved _ _ _ _ _ _ PointerSample.q
              3%positive PointerSample.load_p Hrun)
    as (EM & a & T & Hres);
    [by apply list_elem_of_further, list_elem_of_here
    |reflexivity|reflexivity|].
  by exists H', EM, a, T.
Defined.
Lemma absorb_spec
    (ancestor : EstimateMemory -> EstimateMemory -> option EstimateMemory)
    (Current : EstimateMemory) (c : positive) :
  forall (Rest : TraitList) (H : gmap positive TraitImp),
    c ∉ Rest.*2 -> NoDup Rest.*2 -> is_Some (H !! c) ->
    (forall a, a ∈ Rest.*2 -> is_Some (H !! a)) ->
    exists H' absorbed Rest',
      absorb ancestor H Current c Rest = Some (H', absorbed, Rest') /\
      sublist Rest' Rest /\
      (forall a, a <> c -> a ∉ Rest.*2 -> H' !! a = H !! a) /\
      (forall a, a ∈ Rest'.*2 -> is_Some (H' !! a)) /\
      (if absorbed then H' !! c = None else is_Some (H' !! c)) /\
      forall n,
        (forall a T, a ∈ (if absorbed then Rest'.*2 else c :: Rest'.*2) ->
           H' !! a = Some T -> Z.testbit (mId T) n = true) <->
        (forall a T, a ∈ c :: Rest.*2 ->
           H !! a = Some T -> Z.testbit (mId T) n = true).
Proof.
  induction Rest as [|[EMI i] Rest IH]; intros H Hc Hnd [TC HTC] Hall.
  { exists H, false, []. do 4 (split; [done|]). by split; [exists TC|]. }
  rewrite fmap_cons in Hc, Hnd, Hall. cbn [snd] in Hc, Hnd, Hall.
  apply not_elem_of_cons in Hc as [Hci Hc].
  apply list.NoDup_cons in Hnd as [Hi Hnd].
  destruct (Hall i) as [TI HTI]; [by left|].
  assert (Hrest : forall a, a ∈ Rest.*2 -> a <> c /\ a <> i).
  { intros a Ha. split; intros ->; contradiction. }
  assert (Habsorbed :
    exists H' absorbed Rest',
      Some (delete c (<[i := and_assign TI TC]> H), true, (EMI, i) :: Rest)
        = Some (H', absorbed, Rest') /\
      sublist Rest' ((EMI, i) :: Rest) /\
      (forall a, a <> c -> a ∉ ((EMI, i) :: Rest).*2 -> H' !! a = H !! a) /\
      (forall a, a ∈ Rest'.*2 -> is_Some (H' !! a)) /\
      (if absorbed then H' !! c = None else is_Some (H' !! c)) /\
      forall n,
        (forall a T, a ∈ (if absorbed then Rest'.*2 else c :: Rest'.*2) ->
           H' !! a = Some T -> Z.testbit (mId T) n = true) <->
        (forall a T, a ∈ c :: ((EMI, i) :: Rest).*2 ->
           H !! a = Some T -> Z.testbit (mId T) n = true)).
  { eexists _, true, _. split; [reflexivity|].
    split; [done|]. rewrite fmap_cons. cbn [snd].
    split; [|split; [|split; [by rewrite lookup_delete_eq|]]].
    - intros a Hac [Hai _]%not_elem_of_cons.
      by rewrite lookup_delete_ne, lookup_insert_ne.
    - intros a [->|Ha]%elem_of_cons.
      + rewrite lookup_delete_ne, lookup_insert_eq by done. by eexists.
      + destruct (Hrest a Ha) as [Hac Hai].
        rewrite lookup_delete_ne, lookup_insert_ne by done. by apply Hall; right.
    - intros n. split.
      + intros Hbit a T Ha HT.
        pose proof (Hbit i (and_assign TI TC)) as Hi'.
        rewrite lookup_delete_ne, lookup_insert_eq in Hi' by done.
        specialize (Hi' ltac:(by left) eq_refl).
        unfold and_assign in Hi'. cbn [mId] in Hi'.
        rewrite Z.land_spec in Hi'. apply andb_true_iff in Hi' as [HbI HbC].
        apply elem_of_cons in Ha as [->|[->|Ha]%elem_of_cons].
        * rewrite HTC in HT. by injection HT as <-.
        * rewrite HTI in HT. by injection HT as <-.
        * destruct (Hrest a Ha) as [Hac Hai].
          apply (Hbit a); [by right|].
          by rewrite lookup_delete_ne, lookup_insert_ne.
      + intros Hbit a T Ha HT.
        apply elem_of_cons in Ha as [->|Ha].
        * rewrite lookup_delete_ne, lookup_insert_eq in HT by done.
          injection HT as <-. unfold and_assign. cbn [mId].
          rewrite Z.land_spec.
          rewrite (Hbit i TI), (Hbit c TC); try done;
            [by left|by right; left].
        * destruct (Hrest a Ha) as [Hac Hai].
          rewrite lookup_delete_ne, lookup_insert_ne in HT by done.
          apply (Hbit a); [by right; right|done]. }
  cbn [absorb]. rewrite HTC. cbn [mbind option_bind snd fst]. rewrite HTI.
  cbn [mbind option_bind].
  destruct (bool_decide (em_id Current = em_id EMI)); [exact Habsorbed|].
  destruct (same_memory (ancestor Current EMI) EMI); [exact Habsorbed|].
  clear Habsorbed.
  destruct (same_memory (ancestor Current EMI) Current).
  - destruct (IH (delete i (<[c := and_assign TC TI]> H)))
      as (H' & absorbed & Rest' & Hrun & Hsub & Hframe & Halive & Hcur & Hbits);
      [done|done| | |].
    { rewrite lookup_delete_ne, lookup_insert_eq by done. by eexists. }
    { intros a Ha. destruct (Hrest a Ha) as [Hac Hai].
      rewrite lookup_delete_ne, lookup_insert_ne by done.
      by apply Hall; right. }
    exists H', absorbed, Rest'. split; [exact Hrun|].
    split; [by apply sublist_cons|].
    split.
    { intros a Hac [Hai Ha]%not_elem_of_cons. cbn [snd] in Hai.
      rewrite (Hframe a Hac Ha).
      by rewrite lookup_delete_ne, lookup_insert_ne. }
    split; [exact Halive|].
    split; [exact Hcur|]. intros n. rewrite Hbits. clear Hbits. split.
    + intros Hbit a T Ha HT.
      pose proof (Hbit c (and_assign TC TI)) as Hc'.
      rewrite lookup_delete_ne, lookup_insert_eq in Hc' by done.
      specialize (Hc' ltac:(by left) eq_refl).
      unfold and_assign in Hc'. cbn [mId] in Hc'.
      rewrite Z.land_spec in Hc'. apply andb_true_iff in Hc' as [HbC HbI].
      rewrite fmap_cons in Ha. cbn [snd] in Ha.
      apply elem_of_cons in Ha as [->|[->|Ha]%elem_of_cons].
      * rewrite HTC in HT. by injection HT as <-.
      * rewrite HTI in HT. by injection HT as <-.
      * destruct (Hrest a Ha) as [Hac Hai].
        apply (Hbit a); [by right|].
        by rewrite lookup_delete_ne, lookup_insert_ne.
    + intros Hbit a T Ha HT. rewrite fmap_cons in Hbit. cbn [snd] in Hbit.
      apply elem_of_cons in Ha as [->|Ha].
      * rewrite lookup_delete_ne, lookup_insert_eq in HT by done.
        injection HT as <-. unfold and_assign. cbn [mId].
        rewrite Z.land_spec.
        rewrite (Hbit i TI), (Hbit c TC); try done;
          [by left|by right; left].
      * destruct (Hrest a Ha) as [Hac Hai].
        rewrite lookup_delete_ne, lookup_insert_ne in HT by done.
        apply (Hbit a); [by right; right|done].
  - destruct (IH H)
      as (H' & absorbed & Rest' & Hrun & Hsub & Hframe & Halive & Hcur & Hbits);
      [done|done|by exists TC|by intros a Ha; apply Hall; right|].
    rewrite Hrun. cbn [mbind option_bind fst snd].
    assert (Hkeep : H' !! i = H !! i) by (by apply Hframe).
    exists H', absorbed, ((EMI, i) :: Rest'). split; [reflexivity|].
    split; [by apply sublist_skip|].
    split.
    { intros a Hac [Hai Ha]%not_elem_of_cons. by apply Hframe. }
    split.
    { intros a. rewrite fmap_cons. cbn [snd].
      intros [->|Ha]%elem_of_cons; [rewrite Hkeep; by eexists|].
      by apply Halive. }
    split; [exact Hcur|]. intros n.
    rewrite !fmap_cons. cbn [snd]. split.
    + intros Hbit.
      assert (Hbit' : forall a T,
        a ∈ (if absorbed then Rest'.*2 else c :: Rest'.*2) ->
        H' !! a = Some T -> Z.testbit (mId T) n = true).
      { intros a T Ha. apply Hbit.
        destruct absorbed; [by right|].
        apply elem_of_cons in Ha as [->|Ha]; [by left|by right; right]. }
      pose proof (proj1 (Hbits n) Hbit') as Hall'. clear Hbit'. rename Hall' into Hbit'. intros a T Ha HT.
      apply elem_of_cons in Ha as [->|[->|Ha]%elem_of_cons].
      * apply (Hbit' c); [by left|done].
      * apply (Hbit i); [|by rewrite Hkeep].
        destruct absorbed; [by left|by right; left].
      * apply (Hbit' a); [by right|done].
    + intros Hbit.
      assert (Hbit' : forall a T, a ∈ c :: Rest.*2 ->
        H !! a = Some T -> Z.testbit (mId T) n = true).
      { intros a T Ha. apply Hbit.
        apply elem_of_cons in Ha as [->|Ha]; [by left|by right; right]. }
      pose proof (proj2 (Hbits n) Hbit') as Hall'. clear Hbit'. rename Hall' into Hbit'. intros a T Ha HT.
      assert (Hcases : a = i \/
        a ∈ (if absorbed then Rest'.*2 else c :: Rest'.*2)).
      { destruct absorbed.
        - apply elem_of_cons in Ha as [->|Ha]; [by left|by right].
        - apply elem_of_cons in Ha as [->|[->|Ha]%elem_of_cons];
            [by right; left|by left|by right; right]. }
      destruct Hcases as [->|Ha'].
      * apply (Hbit i); [by right; left|by rewrite <- Hkeep].
      * by apply (Hbit' a).
Qed.
Lemma absorb_shape
    (ancestor : EstimateMemory -> EstimateMemory -> option EstimateMemory)
    (Current : EstimateMemory) (c : positive) :
  forall (Rest : TraitList) (H H' : gmap positive TraitImp) (absorbed : bool)
    (Rest' : TraitList),
    absorb ancestor H Current c Rest = Some (H', absorbed, Rest') ->
    sublist Rest' Rest /\
    (forall a, a <> c -> a ∉ Rest.*2 -> H' !! a = H !! a) /\
    if absorbed
    then exists e, e ∈ Rest' /\
           (em_id Current = em_id e.1 \/
            same_memory (ancestor Current e.1) e.1 = true)
    else forall e, e ∈ Rest' -> ~ redundant ancestor Current e.1.
Proof.
  induction Rest as [|[EMI i] Rest IH]; intros H H' absorbed Rest' Hrun.
  { injection Hrun as <- <- <-. split; [done|]. split; [done|].
    intros e He. by apply elem_of_nil in He. }
  cbn [absorb] in Hrun.
  destruct (H !! c) as [TC|]; [|discriminate].
  cbn [mbind option_bind fst snd] in Hrun.
  destruct (H !! i) as [TI|]; [|discriminate].
  cbn [mbind option_bind] in Hrun.
  destruct (bool_decide (em_id Current = em_id EMI)) eqn:Hsame.
  { injection Hrun as <- <- <-. split; [done|]. split.
    - intros a Hac [Hai _]%not_elem_of_cons. cbn [snd] in Hai.
      by rewrite lookup_delete_ne, lookup_insert_ne.
    - exists (EMI, i). split; [by left|]. left.
      by apply bool_decide_eq_true in Hsame. }
  destruct (same_memory (ancestor Current EMI) EMI) eqn:Hanc.
  { injection Hrun as <- <- <-. split; [done|]. split.
    - intros a Hac [Hai _]%not_elem_of_cons. cbn [snd] in Hai.
      by rewrite lookup_delete_ne, lookup_insert_ne.
    - exists (EMI, i). split; [by left|]. by right. }
  destruct (same_memory (ancestor Current EMI) Current) eqn:Hcur.
  - apply IH in Hrun as (Hsub & Hframe & Hout).
    split; [by apply sublist_cons|]. split; [|exact Hout].
    intros a Hac [Hai Ha]%not_elem_of_cons. cbn [snd] in Hai.
    rewrite (Hframe a Hac Ha).
    by rewrite lookup_delete_ne, lookup_insert_ne.
  - destruct (absorb ancestor H Current c Rest) as [[[H1 ab1] Rest1]|] eqn:Hrec;
      [|discriminate].
    cbn [mbind option_bind fst snd] in Hrun. injection Hrun as <- <- <-.
    apply IH in Hrec as (Hsub & Hframe & Hout).
    split; [by apply sublist_skip|]. split.
    { intros a Hac [Hai Ha]%not_elem_of_cons. by apply Hframe. }
    destruct ab1.
    + destruct Hout as (e & He & Hred). exists e. split; [by right|done].
    + intros e [->|He]%elem_of_cons; [|by apply Hout].
      cbn [fst]. intros [Hid|[Hred|Hred]]; [|congruence|congruence].
      by apply bool_decide_eq_false in Hsame.
Qed.

Lemma cells_after (H H' : gmap positive TraitImp) (B K K' : list positive)
    (n : Z) :
  NoDup (B ++ K) -> sublist K' K ->
  (forall a, a ∈ B ++ K -> is_Some (H !! a)) ->
  (forall a, a ∉ K -> H' !! a = H !! a) ->
  (forall a, a ∈ K' -> is_Some (H' !! a)) ->
  ((forall a T, a ∈ K' -> H' !! a = Some T -> Z.testbit (mId T) n = true) <->
   (forall a T, a ∈ K -> H !! a = Some T -> Z.testbit (mId T) n = true)) ->
  (NoDup (B ++ K') /\ forall a, a ∈ B ++ K' -> is_Some (H' !! a)) /\
  ((forall a T, a ∈ B ++ K' -> H' !! a = Some T ->
      Z.testbit (mId T) n = true) <->
   (forall a T, a ∈ B ++ K -> H !! a = Some T ->
      Z.testbit (mId T) n = true)).
Proof.
  intros Hnd Hsub Halive Hframe Halive' Hbits.
  apply list.NoDup_app in Hnd as (HndB & Hdisj & HndK).
  assert (HB : forall a, a ∈ B -> H' !! a = H !! a).
  { intros a Ha. apply Hframe. by apply Hdisj. }
  split; [split|].
  - apply list.NoDup_app. split; [done|]. split.
    + intros a Ha Ha'. apply (Hdisj a Ha). by apply (elem_of_sublist K').
    + by apply (sublist_NoDup _ K).
  - intros a [Ha|Ha]%elem_of_app; [|by apply Halive'].
    rewrite (HB a Ha). apply Halive, elem_of_app. by left.
  - split; intros Hbit a T [Ha|Ha]%elem_of_app HT.
    + apply (Hbit a); [by apply elem_of_app; left|by rewrite (HB a Ha)].
    + revert a T Ha HT. apply Hbits. intros a T Ha.
      apply Hbit, elem_of_app. by right.
    + apply (Hbit a); [by apply elem_of_app; left|by rewrite <- (HB a Ha)].
    + revert a T Ha HT. apply Hbits. intros a T Ha.
      apply Hbit, elem_of_app. by right.
Qed.

Lemma removeRedundant_spec
    (ancestor : EstimateMemory -> EstimateMemory -> option EstimateMemory)
    (parents : EstimateMemory -> list EstimateMemory) (N : positive)
    (H : gmap positive TraitImp) (Before : TraitList)
    (Curr : EstimateMemory * positive) (Rest : TraitList) :
  owns_traits H (Before ++ Curr :: Rest) ->
  exists H' Before' Todo',
    removeRedundant ancestor parents N (H, Before, Curr :: Rest)
      = Some (H', Before', Todo') /\
    (length Todo' <= length Rest)%nat /\
    (length (Before' ++ Todo') <= length (Before ++ Curr :: Rest))%nat /\
    owns_traits H' (Before' ++ Todo') /\
    forall n, bit_in_all H' (Before' ++ Todo') n <->
              bit_in_all H (Before ++ Curr :: Rest) n.
Proof.
  destruct Curr as [Current c]. unfold owns_traits, bit_in_all.
  rewrite fmap_app, fmap_cons. cbn [snd]. intros [Hnd Halive].
  pose proof Hnd as Hnd'.
  apply list.NoDup_app in Hnd' as (_ & _ & [Hc HndR]%list.NoDup_cons).
  destruct (absorb_spec ancestor Current c Rest H)
    as (H' & absorbed & Rest' & Hrun & Hsub & Hframe & Halive' & Hcur & Hbits);
    [done|done|by apply Halive, elem_of_app; right; left| |].
  { intros a Ha. apply Halive, elem_of_app. by right; right. }
  unfold removeRedundant. cbn [fst snd]. rewrite Hrun.
  assert (Hframe' : forall a, a ∉ c :: Rest.*2 -> H' !! a = H !! a).
  { intros a [Hac Ha]%not_elem_of_cons. by apply Hframe. }
  destruct absorbed.
  - exists H', Before, Rest'. split; [reflexivity|].
    pose proof (sublist_length _ _ Hsub) as Hlen.
    split; [exact Hlen|].
    split; [rewrite !length_app; cbn [length]; lia|]. rewrite fmap_app.
    assert (Hsub' : sublist Rest'.*2 (c :: Rest.*2)).
    { apply sublist_cons. by apply fmap_sublist. }
    split.
    + by apply (cells_after H H' _ (c :: Rest.*2) _ 0 Hnd Hsub'
                  Halive Hframe' Halive' (Hbits 0)).
    + intros n.
      by apply (cells_after H H' _ (c :: Rest.*2) _ n Hnd Hsub'
                  Halive Hframe' Halive' (Hbits n)).
  - eexists H', _, Rest'. split; [reflexivity|].
    pose proof (sublist_length _ _ Hsub) as Hlen.
    split; [exact Hlen|].
    split; [rewrite !length_app; cbn [length]; lia|].
    rewrite <- app_assoc, fmap_app. cbn [app fmap list_fmap snd].
    assert (Hsub' : sublist (c :: Rest'.*2) (c :: Rest.*2)).
    { apply sublist_skip. by apply fmap_sublist. }
    assert (Halive'' : forall a, a ∈ c :: Rest'.*2 -> is_Some (H' !! a)).
    { intros a [->|Ha]%elem_of_cons; [done|by apply Halive']. }
    split.
    + by apply (cells_after H H' _ (c :: Rest.*2) _ 0 Hnd Hsub'
                  Halive Hframe' Halive'' (Hbits 0)).
    + intros n.
      by apply (cells_after H H' _ (c :: Rest.*2) _ n Hnd Hsub'
                  Halive Hframe' Halive'' (Hbits n)).
Qed.

Lemma largest_spec (N : positive) :
  forall (Parents : list EstimateMemory) (Current : EstimateMemory),
    (getAliasNode Current = N ->
     getAliasNode (largest N Current Parents) = N) /\
    (largest N Current Parents = Current \/
     largest N Current Parents ∈ Parents).
Proof.
  induction Parents as [|Parent Parents IH]; intros Current.
  { split; [done|by left]. }
  cbn [largest]. case_bool_decide as Hnode; [|split; [done|by left]].
  destruct (IH Parent) as [Hin [Heq|Hmem]].
  - split; [by intros _; apply Hin|right; rewrite Heq; by left].
  - split; [by intros _; apply Hin|right; by right].
Qed.

Lemma removeAllRedundant_spec
    (ancestor : EstimateMemory -> EstimateMemory -> option EstimateMemory)
    (parents : EstimateMemory -> list EstimateMemory) (N : positive) :
  forall (fuel : nat) (H : gmap positive TraitImp) (Before Todo : TraitList),
    (length Todo <= fuel)%nat -> owns_traits H (Before ++ Todo) ->
    exists H' Traits',
      removeAllRedundant ancestor parents fuel N (H, Before, Todo)
        = Some (H', Traits') /\
      owns_traits H' Traits' /\
      (length Traits' <= length (Before ++ Todo))%nat /\
      forall n, bit_in_all H' Traits' n <-> bit_in_all H (Before ++ Todo) n.
Proof.
  induction fuel as [|fuel IH]; intros H Before Todo Hfuel Howns.
  - destruct Todo as [|Curr Rest]; [|cbn [length] in Hfuel; lia].
    rewrite app_nil_r in *. by exists H, Before.
  - destruct Todo as [|Curr Rest].
    { rewrite app_nil_r in *. by exists H, Before. }
    cbn [removeAllRedundant snd].
    destruct (removeRedundant_spec ancestor parents N H Before Curr Rest Howns)
      as (H1 & Before1 & Todo1 & Hrun & Hlen & Htotal & Howns1 & Hbits1).
    cbn [length] in Hfuel.
    destruct (IH H1 Before1 Todo1 ltac:(lia) Howns1)
      as (H' & Traits' & Hrun' & Howns' & Hlen' & Hbits').
    exists H', Traits'. split.
    { exact (eq_trans
        (f_equal (fun o => o ≫= removeAllRedundant ancestor parents fuel N)
           Hrun) Hrun'). }
    split; [exact Howns'|].
    split; [lia|]. intros n. by rewrite Hbits', Hbits1.
Qed.

(** X25: [removeRedundant] succeeds on a list whose entries own their
    traits, the remaining entries still own theirs, and a bit is set in the
    traits of all the remaining entries exactly when it was set in the
    traits of all the entries before: the conjunction of the traits of the
    list is preserved. *)
Theorem X25_removeRedundant_conjunction
    (ancestor : EstimateMemory -> EstimateMemory -> option EstimateMemory)
    (parents : EstimateMemory -> list EstimateMemory) (N : positive)
    (H : gmap positive TraitImp) (Before : TraitList)
    (Curr : EstimateMemory * positive) (Rest : TraitList) :
  owns_traits H (Before ++ Curr :: Rest) ->
  exists H' Before' Todo',
    removeRedundant ancestor parents N (H, Before, Curr :: Rest)
      = Some (H', Before', Todo') /\
    owns_traits H' (Before' ++ Todo') /\
    forall n, bit_in_all H' (Before' ++ Todo') n <->
              bit_in_all H (Before ++ Curr :: Rest) n.
Proof.
  intros Howns.
  destruct (removeRedundant_spec ancestor parents N H Before Curr Rest Howns)
    as (H' & Before' & Todo' & Hrun & _ & _ & Howns' & Hbits).
  by exists H', Before', Todo'.
Qed.

Lemma owns_sample : owns_traits RedundantSample.traits RedundantSample.Traits.
Proof.
  split.
  - apply (bool_decide_unpack _). by vm_compute.
  - intros a Ha. cbn in Ha.
    repeat (apply elem_of_cons in Ha as [->|Ha]); [by eexists..|].
    by apply elem_of_nil in Ha.
Defined.

Lemma X25_removeRedundant_conjunction_witness :
  exists H' Before' Todo',
    removeRedundant RedundantSample.ancestor RedundantSample.parents 2
      (RedundantSample.traits, [],
       (RedundantSample.part, 1%positive)
         :: [(RedundantSample.piece, 2%positive);
             (RedundantSample.whole, 3%positive)])
      = Some (H', Before', Todo') /\
    owns_traits H' (Before' ++ Todo') /\
    forall n, bit_in_all H' (Before' ++ Todo') n <->
              bit_in_all RedundantSample.traits
                ([] ++ (RedundantSample.part, 1%positive)
                   :: [(RedundantSample.piece, 2%positive);
                       (RedundantSample.whole, 3%positive)]) n.
Proof.
  exact (X25_removeRedundant_conjunction RedundantSample.ancestor
           RedundantSample.parents 2 RedundantSample.traits []
           (RedundantSample.part, 1%positive)
           [(RedundantSample.piece, 2%positive);
            (RedundantSample.whole, 3%positive)] owns_sample).
Defined.

(** X26: a call of [removeRedundant] changes or destroys the traits of the
    entries from [CurrItr] on only, removes the current entry from the
    entries still to visit, and never adds an entry: what remains to visit
    is a sublist of the entries after the current one, and the entries
    before are kept, followed at most by the current entry. *)
Theorem X26_removeRedundant_frame
    (ancestor : EstimateMemory -> EstimateMemory -> option EstimateMemory)
    (parents : EstimateMemory -> list EstimateMemory) (N : positive)
    (H H' : gmap positive TraitImp) (Before Todo Before' Todo' : TraitList) :
  removeRedundant ancestor parents N (H, Before, Todo)
    = Some (H', Before', Todo') ->
  exists Curr Rest, Todo = Curr :: Rest /\ sublist Todo' Rest /\
    (Before' = Before \/ exists EM, Before' = Before ++ [(EM, Curr.2)]) /\
    forall a, a ∉ Todo.*2 -> H' !! a = H !! a.
Proof.
  unfold removeRedundant. cbn [fst snd].
  destruct Todo as [|[Current c] Rest]; [discriminate|]. cbn [fst snd].
  destruct (absorb ancestor H Current c Rest) as [[[H1 absorbed] Rest1]|]
    eqn:Hrun; [|discriminate].
  apply absorb_shape in Hrun as (Hsub & Hframe & _).
  intros Hres. exists (Current, c), Rest. split; [reflexivity|].
  assert (Hframe' : forall a, a ∉ ((Current, c) :: Rest).*2 ->
                      H1 !! a = H !! a).
  { intros a [Hac Ha]%not_elem_of_cons. by apply Hframe. }
  destruct absorbed; injection Hres as <- <- <-.
  - split; [exact Hsub|]. split; [by left|exact Hframe'].
  - split; [exact Hsub|]. split; [right; by eexists|exact Hframe'].
Qed.

Lemma X26_removeRedundant_frame_witness :
  exists H' Before' Todo' Curr Rest,
    removeRedundant RedundantSample.ancestor RedundantSample.parents 2
      (RedundantSample.traits, [], RedundantSample.Traits)
      = Some (H', Before', Todo') /\
    RedundantSample.Traits = Curr :: Rest /\ sublist Todo' Rest /\
    (Before' = [] \/ exists EM, Before' = [] ++ [(EM, Curr.2)]) /\
    forall a, a ∉ RedundantSample.Traits.*2 ->
      H' !! a = RedundantSample.traits !! a.
Proof.
  destruct (removeRedundant RedundantSample.ancestor RedundantSample.parents
              2 (RedundantSample.traits, [], RedundantSample.Traits))
    as [[[H' Before'] Todo']|] eqn:Hrun; [|vm_compute in Hrun; discriminate].
  destruct (X26_removeRedundant_frame _ _ _ _ _ _ _ _ _ Hrun)
    as (Curr & Rest & Hres).
  by exists H', Before', Todo', Curr, Rest.
Defined.

(** X27: when [removeRedundant] returns, either the current entry has been
    erased and an entry which remains holds the same location or their
    [ancestor], or the current entry is kept and no entry which remains
    after it is redundant with its location; the kept entry is re-keyed to
    the current location or one of its parents, of the alias node [N]
    whenever the current location is. *)
Theorem X27_removeRedundant_outcome
    (ancestor : EstimateMemory -> EstimateMemory -> option EstimateMemory)
    (parents : EstimateMemory -> list EstimateMemory) (N : positive)
    (H H' : gmap positive TraitImp) (Before Rest Before' Todo' : TraitList)
    (Current : EstimateMemory) (c : positive) :
  removeRedundant ancestor parents N (H, Before, (Current, c) :: Rest)
    = Some (H', Before', Todo') ->
  (Before' = Before /\
   exists e, e ∈ Todo' /\
     (em_id Current = em_id e.1 \/
      same_memory (ancestor Current e.1) e.1 = true)) \/
  (exists EM, Before' = Before ++ [(EM, c)] /\
     (getAliasNode Current = N -> getAliasNode EM = N) /\
     (getAliasNode Current <> N -> EM = Current) /\
     (EM = Current \/ EM ∈ parents Current) /\
     forall e, e ∈ Todo' -> ~ redundant ancestor Current e.1).
Proof.
  unfold removeRedundant. cbn [fst snd].
  destruct (absorb ancestor H Current c Rest) as [[[H1 absorbed] Rest1]|]
    eqn:Hrun; [|discriminate].
  apply absorb_shape in Hrun as (_ & _ & Hout).
  destruct absorbed; intros [= <- <- <-]; [by left|].
  right. eexists. split; [reflexivity|].
  destruct (largest_spec N (parents Current) Current) as [Hnode Hmem].
  case_bool_decide as HN.
  - split; [done|]. split; [done|]. by split.
  - split; [done|]. split; [done|]. split; [by left|done].
Qed.

Lemma X27_removeRedundant_outcome_witness :
  exists H' Before' Todo',
    removeRedundant RedundantSample.ancestor RedundantSample.parents 2
      (RedundantSample.traits, [],
       (RedundantSample.part, 1%positive)
         :: [(RedundantSample.piece, 2%positive)])
      = Some (H', Before', Todo') /\
    ((Before' = [] /\
      exists e, e ∈ Todo' /\
        (em_id RedundantSample.part = em_id e.1 \/
         same_memory
           (RedundantSample.ancestor RedundantSample.part e.1) e.1 = true))
     \/
     (exists EM, Before' = [] ++ [(EM, 1%positive)] /\
        (getAliasNode RedundantSample.part = 2%positive ->
         getAliasNode EM = 2%positive) /\
        (getAliasNode RedundantSample.part <> 2%positive ->
         EM = RedundantSample.part) /\
        (EM = RedundantSample.part \/
         EM ∈ RedundantSample.parents RedundantSample.part) /\
        forall e, e ∈ Todo' ->
          ~ redundant RedundantSample.ancestor RedundantSample.part e.1)).
Proof.
  destruct (removeRedundant RedundantSample.ancestor RedundantSample.parents
              2 (RedundantSample.traits, [],
                 (RedundantSample.part, 1%positive)
                   :: [(RedundantSample.piece, 2%positive)]))
    as [[[H' Before'] Todo']|] eqn:Hrun; [|vm_compute in Hrun; discriminate].
  exists H', Before', Todo'. split; [reflexivity|].
  exact (X27_removeRedundant_outcome _ _ _ _ _ _ _ _ _ _ _ Hrun).
Defined.

(** X28: the loop of [propagateTraits] over [removeRedundant] needs no more
    calls than the list has entries; on a list whose entries own their
    traits it ends with a list which is no longer, whose entries own their
    traits, and which has the same conjunction of traits. *)
Theorem X28_removeAllRedundant_conjunction
    (ancestor : EstimateMemory -> EstimateMemory -> option EstimateMemory)
    (parents : EstimateMemory -> list EstimateMemory) (N : positive)
    (H : gmap positive TraitImp) (Traits : TraitList) :
  owns_traits H Traits ->
  exists H' Traits',
    removeAllRedundant ancestor parents (length Traits) N (H, [], Traits)
      = Some (H', Traits') /\
    owns_traits H' Traits' /\
    (length Traits' <= length Traits)%nat /\
    forall n, bit_in_all H' Traits' n <-> bit_in_all H Traits n.
Proof.
  intros Howns.
  exact (removeAllRedundant_spec ancestor parents N (length Traits) H []
           Traits (le_n _) Howns).
Qed.

Lemma X28_removeAllRedundant_conjunction_witness :
  exists H' Traits',
    removeAllRedundant RedundantSample.ancestor RedundantSample.parents
      (length RedundantSample.Traits) 2
      (RedundantSample.traits, [], RedundantSample.Traits)
      = Some (H', Traits') /\
    owns_traits H' Traits' /\
    (length Traits' <= length RedundantSample.Traits)%nat /\
    forall n, bit_in_all H' Traits' n <->
              bit_in_all RedundantSample.traits RedundantSample.Traits n.
Proof.
  exact (X28_removeAllRedundant_conjunction RedundantSample.ancestor
           RedundantSample.parents 2 RedundantSample.traits
           RedundantSample.Traits owns_sample).
Defined.
Lemma narrowed_store_fresh (H : gmap positive TraitImp) (T : TraitImp) :
  narrowed_store H (<[fresh (dom H) := T]> H).
Proof.
  apply narrowed_store_alloc, not_elem_of_dom, is_fresh.
Qed.

Lemma accounted_stable
    (getParent : EstimateMemory -> option EstimateMemory) (N : positive)
    (EA : gmap positive positive) (H H' : gmap positive TraitImp)
    (Traits Traits' : TraitList) (EM : EstimateMemory) (T1 T : TraitImp) :
  accounted getParent N EA H Traits EM T1 ->
  Z.land (mId T1) (mId T) = mId T1 ->
  narrowed_store H H' ->
  (forall x, x ∈ Traits.*2 -> x ∈ Traits'.*2) ->
  accounted getParent N EA H' Traits' EM T.
Proof.
  intros (x & T' & Hx & Hland & Hwhere) Hweak Hnar Hincl.
  destruct (Hnar x T' Hx) as (T'' & Hx' & Hland').
  exists x, T''. split; [exact Hx'|]. split.
  - assert (Hland1 : Z.land (mId T') (mId T) = mId T').
    { rewrite <- Hland. by rewrite <- Z.land_assoc, Hweak. }
    rewrite <- Hland'. by rewrite <- Z.land_assoc, Hland1.
  - destruct Hwhere as [Hin|Hpar]; [left; by apply Hincl|by right].
Qed.

Lemma propagateEntry_step
    (getParent : EstimateMemory -> option EstimateMemory) (N : positive)
    (EA : gmap positive positive) (H H' : gmap positive TraitImp)
    (Traits Traits' : TraitList) (e : EstimateMemory * positive) :
  propagateEntry getParent N EA (Some (H, Traits)) e = Some (H', Traits') ->
  narrowed_store H H' /\
  (Traits' = Traits \/ exists EM b, Traits' = (EM, b) :: Traits) /\
  forall T, H !! e.2 = Some T -> accounted getParent N EA H' Traits' e.1 T.
Proof.
  unfold propagateEntry. destruct e as [EM a]. cbn [fst snd].
  destruct (H !! a) as [T|] eqn:HT; [|discriminate].
  cbn [mbind option_bind].
  assert (Hpush : forall EM',
    Some (<[fresh (dom H) := T]> H, (EM', fresh (dom H)) :: Traits)
      = Some (H', Traits') ->
    narrowed_store H H' /\
    (Traits' = Traits \/ exists EM b, Traits' = (EM, b) :: Traits) /\
    forall T0, Some T = Some T0 -> accounted getParent N EA H' Traits' EM T0).
  { intros EM' [= <- <-]. split; [apply narrowed_store_fresh|].
    split; [right; by eexists _, _|]. intros T0 [= <-].
    exists (fresh (dom H)), T. rewrite lookup_insert_eq.
    split; [done|]. split; [apply Z.land_diag|]. left. by left. }
  destruct (getParent EM) as [Parent|] eqn:Hparent; [|by apply Hpush].
  case_bool_decide as Hnode; cbn [negb]; [|by apply Hpush].
  destruct (EA !! em_id Parent) as [x|] eqn:Hea; [|by apply Hpush].
  destruct (H !! x) as [Cell|] eqn:HCell; [|discriminate].
  cbn [mbind option_bind]. intros [= <- <-].
  split; [by apply narrowed_store_narrow|]. split; [by left|].
  intros T0 [= <-]. exists x, (and_assign Cell T).
  rewrite lookup_insert_eq. split; [done|]. split.
  - unfold and_assign. cbn [mId]. by rewrite <- Z.land_assoc, Z.land_diag.
  - right. by exists Parent.
Qed.

Lemma fold_propagateEntry
    (getParent : EstimateMemory -> option EstimateMemory) (N : positive)
    (EA : gmap positive positive) (l : TraitList) :
  forall (H H' : gmap positive TraitImp) (Traits Traits' : TraitList),
    fold_left (propagateEntry getParent N EA) l (Some (H, Traits))
      = Some (H', Traits') ->
    narrowed_store H H' /\
    (exists New, Traits' = New ++ Traits /\ (length New <= length l)%nat) /\
    forall e T, e ∈ l -> H !! e.2 = Some T ->
      accounted getParent N EA H' Traits' e.1 T.
Proof.
  induction l as [|e0 l IH]; intros H H' Traits Traits' Hrun.
  { injection Hrun as <- <-. split; [apply narrowed_store_refl|].
    split; [by exists []|]. intros e T He. by apply elem_of_nil in He. }
  cbn [fold_left] in Hrun.
  destruct (propagateEntry getParent N EA (Some (H, Traits)) e0)
    as [[H1 Traits1]|] eqn:Hstep.
  2:{ rewrite fold_left_None in Hrun; [discriminate|done]. }
  apply propagateEntry_step in Hstep as (Hnar1 & Hshape1 & Hacc1).
  apply IH in Hrun as (Hnar & (New & -> & Hlen) & Hacc).
  assert (Hincl : forall x, x ∈ Traits1.*2 -> x ∈ (New ++ Traits1).*2).
  { intros x Hx. rewrite fmap_app. apply elem_of_app. by right. }
  split; [exact (narrowed_store_trans _ _ _ Hnar1 Hnar)|]. split.
  - destruct Hshape1 as [->|(EM & b & ->)].
    + exists New. split; [done|]. cbn [length]. lia.
    + exists (New ++ [(EM, b)]). rewrite <- app_assoc. split; [done|].
      rewrite length_app. cbn [length]. lia.
  - intros e T [->|He]%elem_of_cons HT.
    + apply (accounted_stable _ _ _ H1 _ Traits1 _ _ T T);
        [by apply Hacc1|apply Z.land_diag|exact Hnar|exact Hincl].
    + destruct (Hnar1 _ _ HT) as (T1 & HT1 & Hland).
      apply (accounted_stable _ _ _ H' _ (New ++ Traits1) _ _ T1 T);
        [by apply Hacc|exact Hland|apply narrowed_store_refl|done].
Qed.

Lemma fold_propagateUnknown (l : UnknownList) :
  forall (H H' : gmap positive TraitImp) (Unknowns Unknowns' : UnknownList),
    fold_left propagateUnknown l (Some (H, Unknowns))
      = Some (H', Unknowns') ->
    H ⊆ H' /\
    exists New, Unknowns' = New ++ Unknowns /\ New.*1 = reverse l.*1.
Proof.
  induction l as [|[U a] l IH]; intros H H' Unknowns Unknowns' Hrun.
  { injection Hrun as <- <-. split; [done|]. by exists []. }
  cbn [fold_left propagateUnknown fst snd] in Hrun.
  destruct (H !! a) as [T|] eqn:HT.
  2:{ cbn [mbind option_bind] in Hrun.
      rewrite fold_left_None in Hrun; [discriminate|done]. }
  cbn [mbind option_bind] in Hrun.
  apply IH in Hrun as (Hsub & New & -> & Hnames). split.
  - etransitivity; [|exact Hsub].
    apply insert_subseteq, not_elem_of_dom, is_fresh.
  - exists (New ++ [(U, fresh (dom H))]). rewrite <- app_assoc.
    split; [done|]. rewrite fmap_app, Hnames.
    cbn [fmap list_fmap fst]. by rewrite reverse_cons.
Qed.

Lemma subseteq_narrowed_store (H H' : gmap positive TraitImp) :
  H ⊆ H' -> narrowed_store H H'.
Proof.
  intros Hsub a T HT. exists T. split; [|apply Z.land_diag].
  by apply (lookup_weaken H).
Qed.

Lemma propagateChild_inv
    (getParent : EstimateMemory -> option EstimateMemory) (N : positive)
    (EA : gmap positive positive) (H H' : gmap positive TraitImp)
    (NT CT NT' : TraitList * UnknownList) :
  propagateChild getParent N EA H NT CT = Some (H', NT') ->
  exists H1,
    fold_left (propagateEntry getParent N EA) CT.1 (Some (H, NT.1))
      = Some (H1, NT'.1) /\
    fold_left propagateUnknown CT.2 (Some (H1, NT.2)) = Some (H', NT'.2).
Proof.
  unfold propagateChild.
  destruct (fold_left (propagateEntry getParent N EA) _ _)
    as [[H1 Traits]|] eqn:Htraits; [|discriminate].
  destruct (fold_left propagateUnknown _ _)
    as [[H2 Unknowns]|] eqn:Hunknowns; [|discriminate].
  intros [= <- <-]. exists H1. by split.
Qed.

(** X29: moving the traits of a child to the node [N] only narrows the
    traits which exist, puts at most one new entry per entry of the child
    in front of the trait list of [N], and puts the unknown accesses of the
    child, in reverse order, in front of the unknown list of [N]. *)
Theorem X29_propagateChild_extends
    (getParent : EstimateMemory -> option EstimateMemory) (N : positive)
    (EA : gmap positive positive) (H H' : gmap positive TraitImp)
    (NT CT NT' : TraitList * UnknownList) :
  propagateChild getParent N EA H NT CT = Some (H', NT') ->
  narrowed_store H H' /\
  (exists New, NT'.1 = New ++ NT.1 /\ (length New <= length CT.1)%nat) /\
  (exists New, NT'.2 = New ++ NT.2 /\ New.*1 = reverse CT.2.*1).
Proof.
  intros (H1 & Htraits & Hunknowns)%propagateChild_inv.
  apply fold_propagateEntry in Htraits as (Hnar1 & Hnew & _).
  apply fold_propagateUnknown in Hunknowns as (Hsub & HnewU).
  split; [|by split].
  exact (narrowed_store_trans _ _ _ Hnar1 (subseteq_narrowed_store _ _ Hsub)).
Qed.

Lemma X29_propagateChild_extends_witness :
  exists H' NT',
    propagateChild PropagationSample.getParent 2
      PropagationSample.ExplicitAccesses RedundantSample.traits
      PropagationSample.NT PropagationSample.CT = Some (H', NT') /\
    narrowed_store RedundantSample.traits H' /\
    (exists New, NT'.1 = New ++ PropagationSample.NT.1 /\
       (length New <= length PropagationSample.CT.1)%nat) /\
    (exists New, NT'.2 = New ++ PropagationSample.NT.2 /\
       New.*1 = reverse PropagationSample.CT.2.*1).
Proof.
  destruct (propagateChild PropagationSample.getParent 2
              PropagationSample.ExplicitAccesses RedundantSample.traits
              PropagationSample.NT PropagationSample.CT)
    as [[H' NT']|] eqn:Hrun; [|vm_compute in Hrun; discriminate].
  exists H', NT'. split; [reflexivity|].
  exact (X29_propagateChild_extends _ _ _ _ _ _ _ _ Hrun).
Defined.

(** X30: no trait of a child is lost when it is moved to the node [N]:
    for every entry of the trait list of the child, a trait which is the
    same or narrower is afterwards held by an entry of the list of [N], or
    by the explicit access to the parent of its location. *)
Theorem X30_propagateChild_accounts
    (getParent : EstimateMemory -> option EstimateMemory) (N : positive)
    (EA : gmap positive positive) (H H' : gmap positive TraitImp)
    (NT CT NT' : TraitList * UnknownList) (EM : EstimateMemory)
    (a : positive) (T : TraitImp) :
  propagateChild getParent N EA H NT CT = Some (H', NT') ->
  (EM, a) ∈ CT.1 -> H !! a = Some T ->
  exists x T', H' !! x = Some T' /\ Z.land (mId T') (mId T) = mId T' /\
    (x ∈ NT'.1.*2 \/
     exists Parent, getParent EM = Some Parent /\
       getAliasNode Parent = N /\ EA !! em_id Parent = Some x).
Proof.
  intros (H1 & Htraits & Hunknowns)%propagateChild_inv Hin HT.
  apply fold_propagateEntry in Htraits as (_ & _ & Hacc).
  apply fold_propagateUnknown in Hunknowns as (Hsub & _).
  exact (accounted_stable _ _ _ H1 H' NT'.1 NT'.1 EM T T
           (Hacc (EM, a) T Hin HT) (Z.land_diag _)
           (subseteq_narrowed_store _ _ Hsub) (fun _ Hx => Hx)).
Qed.

Lemma X30_propagateChild_accounts_witness :
  exists H' NT' x T',
    propagateChild PropagationSample.getParent 2
      PropagationSample.ExplicitAccesses RedundantSample.traits
      PropagationSample.NT PropagationSample.CT = Some (H', NT') /\
    H' !! x = Some T' /\ Z.land (mId T') Readonly = mId T' /\
    (x ∈ NT'.1.*2 \/
     exists Parent,
       PropagationSample.getParent RedundantSample.piece = Some Parent /\
       getAliasNode Parent = 2%positive /\
       PropagationSample.ExplicitAccesses !! em_id Parent = Some x).
Proof.
  destruct (propagateChild PropagationSample.getParent 2
              PropagationSample.ExplicitAccesses RedundantSample.traits
              PropagationSample.NT PropagationSample.CT)
    as [[H' NT']|] eqn:Hrun; [|vm_compute in Hrun; discriminate].
  destruct (X30_propagateChild_accounts _ _ _ _ _ _ _ _
              RedundantSample.piece 2%positive (mkTraitImp Readonly) Hrun)
    as (x & T' & Hres); [by left|reflexivity|].
  by exists H', NT', x, T'.
Defined.
